(** * gogotelehash: routing table, packet framing and channel demux

    A shallow embedding of
    - [modules/dht/kademlia/table.go]  (the Kademlia routing table),
    - [pkt.go]                         (packet header, [JustAck], framing),
    - [controller_channel.go], [switch.go] (channel send/receive/close, demux),
    followed by the properties of the specification that concern them. *)

From Stdlib Require Import ZArith Lia List Bool DecimalFacts DecimalPos DecimalZ.
From stdpp Require Import base list gmap strings sorting.

Local Open Scope Z_scope.

(** ** Part I: definitions *)

(** *** The Kademlia routing table ([modules/dht/kademlia/table.go]) *)
Module Kademlia.

Definition KeyLen : Z := 32.
Definition numBuckets : Z := KeyLen * 8.
Definition maxPeers : nat := 32.
Definition maxCandidates : nat := 128.
Definition maxRoutersPerCandidate : nat := 5.
Definition defaultLookupSize : Z := 32.

(** A hashname, a key and a key distance are 32-byte vectors.  They are
    represented by the 256-bit number the vector spells in big-endian
    order, so that the most significant bit of the vector is bit 255. *)
Definition hashname := Z.
Definition Key := Z.
Definition keyDist := Z.

(** [mesh.Tag]: an opaque handle; only its identity matters here. *)
Definition Tag := nat.
Bind Scope nat_scope with Tag.

(** Modelled from the spec: [distance], [keyDistance], [bucketFromDistance]
    and [distanceLess] are declared in a file of the kademlia package that is
    not part of the sources at hand.  Section 4.2 of the specification:
    the distance is the XOR of the two vectors; the bucket of a distance is
    -1 when the distance is all-zero and otherwise 255 minus the index of
    its most significant set bit; [distanceLess] is the unsigned
    lexicographic comparison of the 32 bytes, which on the big-endian
    number is [<]. *)
Definition distance (a b : hashname) : keyDist := Z.lxor a b.
Definition keyDistance (a : hashname) (key : Key) : keyDist := Z.lxor a key.
Definition bucketFromDistance (d : keyDist) : Z :=
  if d =? 0 then -1 else 255 - Z.log2 d.
Definition distanceLess (x y : keyDist) : bool := x <? y.

Record peerInfo := PeerInfo {
  pi_bucket : Z;
  pi_distance : keyDist;
  pi_hashname : hashname
}.

Record activePeer := ActivePeer {
  ap_info : peerInfo;
  tag : Tag
}.

Record candidatePeer := CandidatePeer {
  cp_info : peerInfo;
  routers : list hashname
}.

Record bucket := Bucket {
  bucket_id : Z;
  peers : list activePeer;
  candidates : list candidatePeer;
  pending : list candidatePeer
}.

Record table := Table {
  localHashname : hashname;
  buckets : list bucket
}.

Definition ap_hashname (p : activePeer) : hashname := pi_hashname (ap_info p).
Definition cp_hashname (c : candidatePeer) : hashname := pi_hashname (cp_info c).

#[global] Instance bucket_inhabited : Inhabited bucket :=
  populate (Bucket 0 [] [] []).

(** [t.init()]: bucket [i] carries id [i]. *)
Definition init (local : hashname) : table :=
  Table local
    (map (fun i => Bucket (Z.of_nat i) [] [] []) (seq 0 (Z.to_nat numBuckets))).

(** [t.buckets[idx]] and the in-place mutation of that bucket. *)
Definition bucket_at (t : table) (idx : Z) : bucket :=
  buckets t !!! Z.to_nat idx.

Definition set_bucket (t : table) (idx : Z) (b : bucket) : table :=
  Table (localHashname t) (<[Z.to_nat idx := b]> (buckets t)).

(** The [peerInfo]s of the active peers of a bucket, front to back
    (the three identical [for e := bucket.peers.Front(); ...] loops of
    [findKey]). *)
Definition bucket_peerInfos (b : bucket) : list peerInfo :=
  map ap_info (peers b).

(** [int(n)] for [n : uint] on a 64-bit platform. *)
Definition int_of_uint (n : Z) : Z :=
  if n <? 2 ^ 63 then n else n - 2 ^ 64.

(** The loop [for len(peers) < int(n) && offset < int(numBuckets)] of
    [findKey].  [fuel] bounds the number of iterations; [numBuckets]
    iterations always suffice because [offset] grows by one each time. *)
Fixpoint findKey_walk (fuel : nat) (t : table) (bucketIdx n offset : Z)
    (acc : list peerInfo) : list peerInfo :=
  match fuel with
  | O => acc
  | S fuel' =>
    if (Z.of_nat (length acc) <? int_of_uint n) && (offset <? numBuckets) then
      (* lower bucket *)
      let idx := bucketIdx - offset in
      let acc :=
        if 0 <=? idx then acc ++ bucket_peerInfos (bucket_at t idx) else acc in
      (* higher bucket *)
      let idx := bucketIdx + offset in
      let acc :=
        if idx <? numBuckets then acc ++ bucket_peerInfos (bucket_at t idx)
        else acc in
      findKey_walk fuel' t bucketIdx n (offset + 1) acc
    else acc
  end.

(** [peerInfoByDistance.Less]. *)
Definition Less (p q : peerInfo) : bool :=
  distanceLess (pi_distance p) (pi_distance q).

(** The order [sort.Sort] establishes: no element is [Less] than one that
    precedes it. *)
Definition not_after (p q : peerInfo) : Prop := Less q p = false.

#[global] Instance not_after_dec p q : Decision (not_after p q).
Proof. unfold not_after. apply _. Defined.

(** [sort.Sort(peerInfoByDistance(peers))].  The standard library sort is
    modelled by a merge sort; [sort.Sort] is not stable, but the hashnames
    [findKey] returns do not depend on how ties are broken (lemma
    [findKey_sort_irrelevant] below). *)
Definition sort_peerInfoByDistance (l : list peerInfo) : list peerInfo :=
  merge_sort not_after l.

(** The peers gathered by [findKey] before sorting: the seed bucket and
    the outward walk. [n] is the lookup width after defaulting. *)
Definition findKey_gather (t : table) (key : Key) (n : Z) : list peerInfo :=
  let dist := keyDistance (localHashname t) key in
  let bucketIdx := bucketFromDistance dist in
  let bucketIdx := if bucketIdx <? 0 then 0 else bucketIdx in
  let acc := bucket_peerInfos (bucket_at t bucketIdx) in
  findKey_walk (Z.to_nat numBuckets) t bucketIdx n 1 acc.

(** [peer.distance = keyDistance(peer.hashname, key[:])] *)
Definition with_key_distance (key : Key) (p : peerInfo) : peerInfo :=
  PeerInfo (pi_bucket p) (keyDistance (pi_hashname p) key) (pi_hashname p).

(** [make([]peerInfo, 0, n+(3*maxPeers))].  The capacity is computed in
    [uint], so it wraps at 2^64.  [make] panics when the capacity does
    not fit [int], and when it is more than the allocator grants for a
    slice of [peerInfo]s; that limit depends on the platform and is the
    parameter [maxCap] of [findKey]. *)
Definition make_cap (n : Z) : Z := (n + 3 * Z.of_nat maxPeers) mod 2 ^ 64.

Definition make_panics (maxCap cap : Z) : bool :=
  (2 ^ 63 <=? cap) || (maxCap <? cap).

(** [findKey].  [n] is a [uint]; [None] is a run-time panic: that of
    [make] when the capacity is not granted, and that of the slice
    expression [peers[:n]] when [n] exceeds the capacity, which happens
    exactly when [int(n)] is negative.  (A machine that runs out of
    memory below the limit [maxCap] is not modelled.) *)
Definition findKey (maxCap : Z) (t : table) (key : Key) (n : Z)
    : option (list hashname) :=
  let n := if n =? 0 then defaultLookupSize else n in
  (* peers = make([]peerInfo, 0, n+(3*maxPeers)) *)
  if make_panics maxCap (make_cap n) then None else
  let gathered := findKey_gather t key n in
  (* determine the distance of each peer to the key *)
  let with_dist := map (with_key_distance key) gathered in
  (* sort by distance *)
  let sorted := sort_peerInfoByDistance with_dist in
  (* trim *)
  let trimmed :=
    if int_of_uint n <? Z.of_nat (length sorted) then
      if n <=? Z.of_nat (length sorted) then Some (take (Z.to_nat n) sorted)
      else None
    else Some sorted in
  match trimmed with
  | Some ps => Some (map pi_hashname ps)
  | None => None
  end.

(** [nextCandidate]: the first bucket, in index order, that is not full
    and has a candidate gives up the head of its candidate list. *)
Fixpoint nextCandidate_scan (bs : list bucket)
    : list bucket * option candidatePeer :=
  match bs with
  | [] => ([], None)
  | b :: bs' =>
    if (length (peers b) + length (pending b) =? maxPeers)%nat then
      let '(bs'', r) := nextCandidate_scan bs' in (b :: bs'', r)
    else
      match candidates b with
      | [] => let '(bs'', r) := nextCandidate_scan bs' in (b :: bs'', r)
      | c :: cs =>
        (Bucket (bucket_id b) (peers b) cs (pending b ++ [c]) :: bs', Some c)
      end
  end.

Definition nextCandidate (t : table) : table * option candidatePeer :=
  let '(bs, r) := nextCandidate_scan (buckets t) in
  (Table (localHashname t) bs, r).

(** Removal of the first entry for [hn]
    ([for e := l.Front(); ...; if v.hashname == hn { l.Remove(e); break }]). *)
Fixpoint remove_candidate (hn : hashname) (l : list candidatePeer)
    : list candidatePeer :=
  match l with
  | [] => []
  | c :: l' =>
    if cp_hashname c =? hn then l' else c :: remove_candidate hn l'
  end.

(** Same loop on the active list; the tag of the removed entry is handed
    back so that the caller can release it. *)
Fixpoint remove_peer (hn : hashname) (l : list activePeer)
    : list activePeer * list Tag :=
  match l with
  | [] => ([], [])
  | p :: l' =>
    if ap_hashname p =? hn then (l', [tag p])
    else let '(l'', rel) := remove_peer hn l' in (p :: l'', rel)
  end.

(** The "attempt to update peer" loop of [activatePeer]: the first entry
    for [hn] has its tag swapped; the old tag is returned. *)
Fixpoint swap_tag (hn : hashname) (tg : Tag) (l : list activePeer)
    : option (list activePeer * Tag) :=
  match l with
  | [] => None
  | p :: l' =>
    if ap_hashname p =? hn then Some (ActivePeer (ap_info p) tg :: l', tag p)
    else
      match swap_tag hn tg l' with
      | Some (l'', old) => Some (p :: l'', old)
      | None => None
      end
  end.

(** [activatePeer].  The second component lists the tags on which
    [Release] is called. *)
Definition activatePeer (t : table) (hn : hashname) (tg : Tag)
    : table * list Tag :=
  let dist := distance (localHashname t) hn in
  let bucketIdx := bucketFromDistance dist in
  (* cannot link self *)
  if bucketIdx <? 0 then (t, [tg]) else
  let b := bucket_at t bucketIdx in
  (* remove from pending list *)
  let b := Bucket (bucket_id b) (peers b) (candidates b)
                  (remove_candidate hn (pending b)) in
  (* attempt to update peer *)
  match swap_tag hn tg (peers b) with
  | Some (ps, old) =>
    (set_bucket t bucketIdx
       (Bucket (bucket_id b) ps (candidates b) (pending b)), [old])
  | None =>
    (* too many peers *)
    if (maxPeers <=? length (peers b))%nat then
      (set_bucket t bucketIdx b, [tg])
    else
      (* add peer *)
      (set_bucket t bucketIdx
         (Bucket (bucket_id b)
            (peers b ++ [ActivePeer (PeerInfo bucketIdx dist hn) tg])
            (candidates b) (pending b)), [])
  end.

(** [deactivatePeer]. *)
Definition deactivatePeer (t : table) (hn : hashname) : table * list Tag :=
  let dist := distance (localHashname t) hn in
  let bucketIdx := bucketFromDistance dist in
  (* cannot unlink self *)
  if bucketIdx <? 0 then (t, []) else
  let b := bucket_at t bucketIdx in
  let '(ps, rel) := remove_peer hn (peers b) in
  (set_bucket t bucketIdx
     (Bucket (bucket_id b) ps
        (remove_candidate hn (candidates b))
        (remove_candidate hn (pending b))), rel).

(** The "add router" loop of [addCandidate]:
    [for _, r := range c.routers { if r != router { c.routers = append(c.routers, r) } }].
    The range expression is evaluated once, so the loop runs over the
    routers present on entry ([range_]) while [rs] is the growing slice. *)
Fixpoint add_router_loop (router : hashname) (range_ rs : list hashname)
    : list hashname :=
  match range_ with
  | [] => rs
  | r :: range' =>
    add_router_loop router range' (if negb (r =? router) then rs ++ [r] else rs)
  end.

(** The body executed for the candidate that matches: add router, then
    trim routers. *)
Definition merge_router (router : hashname) (rs : list hashname)
    : list hashname :=
  let rs' := add_router_loop router rs rs in
  if (maxRoutersPerCandidate <? length rs')%nat
  then take maxRoutersPerCandidate rs' else rs'.

(** The "attempt to update" loop of [addCandidate]; [None] when no
    candidate matches. *)
Fixpoint update_candidate (hn router : hashname) (l : list candidatePeer)
    : option (list candidatePeer) :=
  match l with
  | [] => None
  | c :: l' =>
    if cp_hashname c =? hn then
      Some (CandidatePeer (cp_info c) (merge_router router (routers c)) :: l')
    else
      match update_candidate hn router l' with
      | Some l'' => Some (c :: l'')
      | None => None
      end
  end.

(** [addCandidate]. *)
Definition addCandidate (t : table) (hn router : hashname) : table :=
  let dist := distance (localHashname t) hn in
  let bucketIdx := bucketFromDistance dist in
  (* cannot add self *)
  if bucketIdx <? 0 then t else
  let b := bucket_at t bucketIdx in
  (* ignore if active peer *)
  if existsb (fun p => ap_hashname p =? hn) (peers b) then t else
  (* ignore if pending peer *)
  if existsb (fun c => cp_hashname c =? hn) (pending b) then t else
  (* attempt to update *)
  match update_candidate hn router (candidates b) with
  | Some cs =>
    set_bucket t bucketIdx (Bucket (bucket_id b) (peers b) cs (pending b))
  | None =>
    (* attempt to add *)
    if (length (candidates b) <? maxCandidates)%nat then
      set_bucket t bucketIdx
        (Bucket (bucket_id b) (peers b)
           (candidates b ++ [CandidatePeer (PeerInfo bucketIdx dist hn) [router]])
           (pending b))
    else t
  end.

(** The table operations named by the specification, and their effect on
    a table (released tags and returned candidates are dropped). *)
Inductive table_op :=
| OpActivatePeer (hn : hashname) (tg : Tag)
| OpDeactivatePeer (hn : hashname)
| OpAddCandidate (hn router : hashname)
| OpNextCandidate.

Definition apply_op (t : table) (op : table_op) : table :=
  match op with
  | OpActivatePeer hn tg => fst (activatePeer t hn tg)
  | OpDeactivatePeer hn => fst (deactivatePeer t hn)
  | OpAddCandidate hn router => addCandidate t hn router
  | OpNextCandidate => fst (nextCandidate t)
  end.

Definition run_ops (t : table) (ops : list table_op) : table :=
  fold_left apply_op ops t.

(** *** Vocabulary of the specification for the table *)

(** The order of hashnames by distance to a key. *)
Definition nearer (key : Key) (a b : hashname) : Prop :=
  keyDistance a key <= keyDistance b key.

(** The [distance] field of [p] holds the distance of [p] to [key]. *)
Definition key_distance_set (key : Key) (p : peerInfo) : Prop :=
  pi_distance p = keyDistance (pi_hashname p) key.

(** [pi] is the [peerInfo] of an active peer of some bucket of [t]. *)
Definition from_peers (t : table) (pi : peerInfo) : Prop :=
  exists b p, b ∈ buckets t /\ p ∈ peers b /\ pi = ap_info p.

(** The router merge as the specification words it: the router is
    appended when it is not yet listed, and the list is cut to its first
    [maxRoutersPerCandidate] entries. *)
Definition merge_router_intended (router : hashname) (rs : list hashname)
    : list hashname :=
  take maxRoutersPerCandidate
    (if existsb (Z.eqb router) rs then rs else rs ++ [router]).

(** A table with three active peers. *)
Definition sample_table : table :=
  run_ops (init 0) [OpActivatePeer 1 11; OpActivatePeer 2 12; OpActivatePeer 5 15].

(** Hashnames held in each list of a bucket. *)
Definition peer_names (b : bucket) : list hashname := map ap_hashname (peers b).
Definition candidate_names (b : bucket) : list hashname :=
  map cp_hashname (candidates b).
Definition pending_names (b : bucket) : list hashname :=
  map cp_hashname (pending b).

(** The walk as section 4.3 of the specification words it (steps 2 and
    3): the active peers of bucket [i], then for the strides 1, 2, ...,
    [r] those of bucket [i - k] and then those of bucket [i + k], when in
    range. *)
Fixpoint spec_walk (t : table) (i : Z) (r : nat) : list hashname :=
  match r with
  | O => peer_names (bucket_at t i)
  | S r' =>
    spec_walk t i r' ++
    (if 0 <=? i - Z.of_nat r
     then peer_names (bucket_at t (i - Z.of_nat r)) else []) ++
    (if i + Z.of_nat r <? numBuckets
     then peer_names (bucket_at t (i + Z.of_nat r)) else [])
  end.

(** Where that walk stops for the width [n]: at the first stride after
    which at least [n] peers are gathered, and at stride 255, when all
    256 buckets are examined, if there is none. *)
Definition spec_walk_stops (t : table) (i n : Z) (r : nat) : Prop :=
  (r <= 255)%nat /\
  (forall r', (r' < r)%nat -> Z.of_nat (length (spec_walk t i r')) < n) /\
  (r = 255%nat \/ n <= Z.of_nat (length (spec_walk t i r))).

(** *** Well-formed tables *)

(** The hashnames a bucket holds in any of its three lists. *)
Definition stored_names (b : bucket) : list hashname :=
  peer_names b ++ candidate_names b ++ pending_names b.

(** What the operations keep true of a bucket of the table of node
    [local]: the capacities, no hashname twice among the active peers nor
    twice among candidates and pending entries, and every hashname in the
    bucket its distance to [local] selects. *)
Definition bucket_ok (local : hashname) (b : bucket) : Prop :=
  (length (peers b) <= maxPeers)%nat /\
  (length (candidates b) <= maxCandidates)%nat /\
  Forall (fun c => (length (routers c) <= maxRoutersPerCandidate)%nat)
    (candidates b ++ pending b) /\
  NoDup (peer_names b) /\
  NoDup (candidate_names b ++ pending_names b) /\
  Forall (fun hn => bucketFromDistance (distance local hn) = bucket_id b)
    (stored_names b).

(** A table as [init] and the operations leave it: [numBuckets] buckets,
    bucket [i] with id [i], each of them as above. *)
Definition table_ok (t : table) : Prop :=
  map bucket_id (buckets t) = map Z.of_nat (seq 0 (Z.to_nat numBuckets)) /\
  Forall (bucket_ok (localHashname t)) (buckets t).

(** The tags the table holds, bucket by bucket. *)
Definition table_tags (t : table) : list Tag :=
  concat (map (fun b => map tag (peers b)) (buckets t)).

(** A bucket that [nextCandidate] passes over. *)
Definition passed_over (b : bucket) : Prop :=
  (length (peers b) + length (pending b))%nat = maxPeers \/ candidates b = [].

(** [h] is the hashname of an active peer of some bucket of [t]. *)
Definition active (t : table) (h : hashname) : Prop :=
  exists b, b ∈ buckets t /\ h ∈ peer_names b.

End Kademlia.

(** *** Packets and their framing ([pkt.go]) *)
Module Telehash.

Import Stdlib.Init.Byte.

(** A Go slice: [None] is the nil slice, [Some l] a non-nil slice holding
    [l].  [len] does not tell the two apart when [l] is empty. *)
Definition slice (A : Type) : Type := option (list A).

Definition len {A} (s : slice A) : nat :=
  match s with None => O | Some l => length l end.

Definition elems {A} (s : slice A) : list A :=
  match s with None => [] | Some l => l end.

(** Go strings: [Hashname] is a string type, [*net.UDPAddr] a pointer. *)
Definition Hashname := string.
Definition ZeroHashname : Hashname := "".
Definition UDPAddr := string.

(** Go [error] values.  [ErrorString] is what [errors.New] and
    [fmt.Errorf] build; [JsonError] stands for the errors of
    [encoding/json]; the last three are the error kinds of the channel
    buffers named in section 7 of the specification. *)
Inductive error :=
| ErrorString (msg : string)
| JsonError (msg : string)
| ErrWouldBlock
| ErrTimeout
| ErrClosed.

(** A Go result pair [(value, error)] in which exactly one side is set. *)
Inductive result (A : Type) :=
| Ok (a : A)
| Fail (e : error).
Arguments Ok {A} a.
Arguments Fail {A} e.

Record pkt_hdr_t := PktHdr {
  Type_ : string;
  Line : string;
  Iv : string;
  Open : string;
  Sig : string;
  C : string;
  To : string;
  At : Z;
  Family : string;
  Seq : Z;
  Ack : option Z;
  Miss : slice Z;
  End_ : bool;
  Err : string;
  Seek : string;
  See : slice string;
  Peer : string;
  IP : string;
  Port : Z;
  Custom : slice byte
}.

Record pkt_t := Pkt {
  addr : option UDPAddr;
  hdr : pkt_hdr_t;
  body : slice byte;
  peer : Hashname
}.

(** The zero value [pkt_hdr_t{}]. *)
Definition zero_hdr : pkt_hdr_t :=
  PktHdr "" "" "" "" "" "" "" 0 "" 0 None None false "" "" None "" "" 0 None.

(** Assignment to one field of a header ([h.F = v]). *)
Definition set_Type (v : string) (h : pkt_hdr_t) : pkt_hdr_t :=
  PktHdr v (Line h) (Iv h) (Open h) (Sig h) (C h) (To h) (At h) (Family h)
    (Seq h) (Ack h) (Miss h) (End_ h) (Err h) (Seek h) (See h) (Peer h) (IP
    h) (Port h) (Custom h).
Definition set_Line (v : string) (h : pkt_hdr_t) : pkt_hdr_t :=
  PktHdr (Type_ h) v (Iv h) (Open h) (Sig h) (C h) (To h) (At h) (Family h)
    (Seq h) (Ack h) (Miss h) (End_ h) (Err h) (Seek h) (See h) (Peer h) (IP
    h) (Port h) (Custom h).
Definition set_Iv (v : string) (h : pkt_hdr_t) : pkt_hdr_t :=
  PktHdr (Type_ h) (Line h) v (Open h) (Sig h) (C h) (To h) (At h) (Family
    h) (Seq h) (Ack h) (Miss h) (End_ h) (Err h) (Seek h) (See h) (Peer h)
    (IP h) (Port h) (Custom h).
Definition set_Open (v : string) (h : pkt_hdr_t) : pkt_hdr_t :=
  PktHdr (Type_ h) (Line h) (Iv h) v (Sig h) (C h) (To h) (At h) (Family h)
    (Seq h) (Ack h) (Miss h) (End_ h) (Err h) (Seek h) (See h) (Peer h) (IP
    h) (Port h) (Custom h).
Definition set_Sig (v : string) (h : pkt_hdr_t) : pkt_hdr_t :=
  PktHdr (Type_ h) (Line h) (Iv h) (Open h) v (C h) (To h) (At h) (Family h)
    (Seq h) (Ack h) (Miss h) (End_ h) (Err h) (Seek h) (See h) (Peer h) (IP
    h) (Port h) (Custom h).
Definition set_C (v : string) (h : pkt_hdr_t) : pkt_hdr_t :=
  PktHdr (Type_ h) (Line h) (Iv h) (Open h) (Sig h) v (To h) (At h) (Family
    h) (Seq h) (Ack h) (Miss h) (End_ h) (Err h) (Seek h) (See h) (Peer h)
    (IP h) (Port h) (Custom h).
Definition set_To (v : string) (h : pkt_hdr_t) : pkt_hdr_t :=
  PktHdr (Type_ h) (Line h) (Iv h) (Open h) (Sig h) (C h) v (At h) (Family
    h) (Seq h) (Ack h) (Miss h) (End_ h) (Err h) (Seek h) (See h) (Peer h)
    (IP h) (Port h) (Custom h).
Definition set_At (v : Z) (h : pkt_hdr_t) : pkt_hdr_t :=
  PktHdr (Type_ h) (Line h) (Iv h) (Open h) (Sig h) (C h) (To h) v (Family
    h) (Seq h) (Ack h) (Miss h) (End_ h) (Err h) (Seek h) (See h) (Peer h)
    (IP h) (Port h) (Custom h).
Definition set_Family (v : string) (h : pkt_hdr_t) : pkt_hdr_t :=
  PktHdr (Type_ h) (Line h) (Iv h) (Open h) (Sig h) (C h) (To h) (At h) v
    (Seq h) (Ack h) (Miss h) (End_ h) (Err h) (Seek h) (See h) (Peer h) (IP
    h) (Port h) (Custom h).
Definition set_Seq (v : Z) (h : pkt_hdr_t) : pkt_hdr_t :=
  PktHdr (Type_ h) (Line h) (Iv h) (Open h) (Sig h) (C h) (To h) (At h)
    (Family h) v (Ack h) (Miss h) (End_ h) (Err h) (Seek h) (See h) (Peer h)
    (IP h) (Port h) (Custom h).
Definition set_Ack (v : option Z) (h : pkt_hdr_t) : pkt_hdr_t :=
  PktHdr (Type_ h) (Line h) (Iv h) (Open h) (Sig h) (C h) (To h) (At h)
    (Family h) (Seq h) v (Miss h) (End_ h) (Err h) (Seek h) (See h) (Peer h)
    (IP h) (Port h) (Custom h).
Definition set_Miss (v : slice Z) (h : pkt_hdr_t) : pkt_hdr_t :=
  PktHdr (Type_ h) (Line h) (Iv h) (Open h) (Sig h) (C h) (To h) (At h)
    (Family h) (Seq h) (Ack h) v (End_ h) (Err h) (Seek h) (See h) (Peer h)
    (IP h) (Port h) (Custom h).
Definition set_End (v : bool) (h : pkt_hdr_t) : pkt_hdr_t :=
  PktHdr (Type_ h) (Line h) (Iv h) (Open h) (Sig h) (C h) (To h) (At h)
    (Family h) (Seq h) (Ack h) (Miss h) v (Err h) (Seek h) (See h) (Peer h)
    (IP h) (Port h) (Custom h).
Definition set_Err (v : string) (h : pkt_hdr_t) : pkt_hdr_t :=
  PktHdr (Type_ h) (Line h) (Iv h) (Open h) (Sig h) (C h) (To h) (At h)
    (Family h) (Seq h) (Ack h) (Miss h) (End_ h) v (Seek h) (See h) (Peer h)
    (IP h) (Port h) (Custom h).
Definition set_Seek (v : string) (h : pkt_hdr_t) : pkt_hdr_t :=
  PktHdr (Type_ h) (Line h) (Iv h) (Open h) (Sig h) (C h) (To h) (At h)
    (Family h) (Seq h) (Ack h) (Miss h) (End_ h) (Err h) v (See h) (Peer h)
    (IP h) (Port h) (Custom h).
Definition set_See (v : slice string) (h : pkt_hdr_t) : pkt_hdr_t :=
  PktHdr (Type_ h) (Line h) (Iv h) (Open h) (Sig h) (C h) (To h) (At h)
    (Family h) (Seq h) (Ack h) (Miss h) (End_ h) (Err h) (Seek h) v (Peer h)
    (IP h) (Port h) (Custom h).
Definition set_Peer (v : string) (h : pkt_hdr_t) : pkt_hdr_t :=
  PktHdr (Type_ h) (Line h) (Iv h) (Open h) (Sig h) (C h) (To h) (At h)
    (Family h) (Seq h) (Ack h) (Miss h) (End_ h) (Err h) (Seek h) (See h) v
    (IP h) (Port h) (Custom h).
Definition set_IP (v : string) (h : pkt_hdr_t) : pkt_hdr_t :=
  PktHdr (Type_ h) (Line h) (Iv h) (Open h) (Sig h) (C h) (To h) (At h)
    (Family h) (Seq h) (Ack h) (Miss h) (End_ h) (Err h) (Seek h) (See h)
    (Peer h) v (Port h) (Custom h).
Definition set_Port (v : Z) (h : pkt_hdr_t) : pkt_hdr_t :=
  PktHdr (Type_ h) (Line h) (Iv h) (Open h) (Sig h) (C h) (To h) (At h)
    (Family h) (Seq h) (Ack h) (Miss h) (End_ h) (Err h) (Seek h) (See h)
    (Peer h) (IP h) v (Custom h).
Definition set_Custom (v : slice byte) (h : pkt_hdr_t) : pkt_hdr_t :=
  PktHdr (Type_ h) (Line h) (Iv h) (Open h) (Sig h) (C h) (To h) (At h)
    (Family h) (Seq h) (Ack h) (Miss h) (End_ h) (Err h) (Seek h) (See h)
    (Peer h) (IP h) (Port h) v.

(** [func (p *pkt_hdr_t) JustAck() bool] *)
Definition hdr_JustAck (p : pkt_hdr_t) : bool :=
  String.eqb (Type_ p) "" &&
  String.eqb (Line p) "" &&
  String.eqb (Iv p) "" &&
  String.eqb (Open p) "" &&
  String.eqb (Sig p) "" &&
  String.eqb (To p) "" &&
  (At p =? 0) &&
  String.eqb (Family p) "" &&
  (Seq p =? 0) &&
  (match Ack p with Some _ => true | None => false end) &&
  Bool.eqb (End_ p) false &&
  String.eqb (Err p) "" &&
  String.eqb (Seek p) "" &&
  (match See p with None => true | Some _ => false end) &&
  String.eqb (Peer p) "" &&
  String.eqb (IP p) "" &&
  (Port p =? 0) &&
  (len (Custom p) =? 0)%nat.

(** [func (p *pkt_t) JustAck() bool] *)
Definition JustAck (p : pkt_t) : bool :=
  (len (body p) =? 0)%nat && hdr_JustAck (hdr p).

(** The parts of [encoding/json] the package calls.
    - [json_Encode h] is what [json.NewEncoder(buf).Encode(h)] appends to
      [buf] (the JSON text of [h] and the newline the encoder adds after
      it), or the encoder's error;
    - [json_Decode bs h] is [json.NewDecoder(bytes.NewReader(bs)).Decode(&h)]:
      the header after decoding into [h], or the decoder's error. *)
Class JsonCodec := {
  json_Encode : pkt_hdr_t -> result (list byte);
  json_Decode : list byte -> pkt_hdr_t -> result pkt_hdr_t
}.

(** [byte(v)] and the value of a byte. *)
Definition byte_of_Z (v : Z) : byte :=
  match Byte.of_N (Z.to_N (v mod 256)) with
  | Some b => b
  | None => x00
  end.

Definition Z_of_byte (b : byte) : Z := Z.of_N (Byte.to_N b).

(** [uint16(l)] *)
Definition uint16 (l : Z) : Z := l mod 2 ^ 16.

(** [binary.BigEndian.PutUint16(data[0:2], v)] *)
Definition PutUint16 (data : list byte) (v : Z) : list byte :=
  <[1%nat := byte_of_Z v]> (<[0%nat := byte_of_Z (Z.shiftr v 8)]> data).

(** [binary.BigEndian.Uint16(b)] for a [b] of at least two bytes. *)
Definition Uint16 (b : list byte) : Z :=
  match b with
  | b0 :: b1 :: _ => Z.lor (Z_of_byte b1) (Z.shiftl (Z_of_byte b0) 8)
  | _ => 0
  end.

Definition ErrPktTooShort : error := ErrorString "pkt is too short".

Section Framing.
Context `{JsonCodec}.

(** [func (p *pkt_t) format_pkt()], returning the frame or an error. *)
Definition format_pkt (p : pkt_t) : result (list byte) :=
  (* make room for the length *)
  let buf := [x00; x00] in
  (* write the header *)
  match json_Encode (hdr p) with
  | Fail err => Fail err
  | Ok written =>
    let buf := buf ++ written in
    (* get the header length *)
    let l := Z.of_nat (length buf) - 2 in
    (* write the body *)
    let buf := if (0 <? len (body p))%nat then buf ++ elems (body p) else buf in
    (* put the header length *)
    Ok (PutUint16 buf (uint16 l))
  end.

(** [func parse_pkt(in []byte, addr *net.UDPAddr)], returning the packet or
    an error. *)
Definition parse_pkt (in_ : list byte) (addr : option UDPAddr) : result pkt_t :=
  let pkt := Pkt addr zero_hdr None ZeroHashname in
  if (length in_ <? 4)%nat then Fail ErrPktTooShort else
  (* determine header length *)
  let hdr_len := Uint16 (take 2 in_) in
  (* determine body length *)
  let body_len := Z.of_nat (length in_) - (hdr_len + 2) in
  if body_len <? 0 then Fail ErrPktTooShort else
  (* decode the header *)
  match json_Decode (drop 2 (take (Z.to_nat (hdr_len + 2)) in_)) (hdr pkt) with
  | Fail err => Fail err
  | Ok h =>
    (* no body *)
    if body_len =? 0 then Ok (Pkt addr h None ZeroHashname) else
    (* copy the body *)
    let body := take (Z.to_nat body_len) (drop (Z.to_nat (hdr_len + 2)) in_) in
    Ok (Pkt addr h (Some body) ZeroHashname)
  end.

End Framing.

(** *** A codec for plain headers

    [encoding/json] is not part of the repository; the framing code above
    is stated, and below verified, for any codec.  To run frames on
    concrete packets one codec is fixed here.  It follows [encoding/json]
    on _plain_ headers: the custom header is empty and every string
    consists of bytes that the encoder copies verbatim (printable ASCII
    other than the double quote, the backslash and the characters [<], [>]
    and [&]); integers lie in the [int64] range.  On anything else
    (escapes, non-ASCII text, unknown keys, [null], nested values) it
    answers [ErrUnsupported], which the Go library does not: no theorem
    about the repository depends on that answer. *)

Definition ErrUnsupported : error := JsonError "outside the plain fragment".

Definition plain_byte (b : byte) : bool :=
  let n := Byte.to_N b in
  (32 <=? n)%N && (n <=? 126)%N &&
  negb (n =? 34)%N && negb (n =? 92)%N &&
  negb (n =? 60)%N && negb (n =? 62)%N && negb (n =? 38)%N.

Definition in_int64 (z : Z) : bool := (- 2 ^ 63 <=? z) && (z <? 2 ^ 63).

(** The values a header field can hold. *)
Inductive jvalue :=
| JString (s : string)
| JInt (z : Z)
| JTrue
| JInts (l : list Z)
| JStrings (l : list string).

(** The members the encoder emits for a header: the fields in declaration
    order, each under its [json:] name, those tagged [omitempty] left out
    when empty (empty string, zero, nil pointer, slice of length zero,
    false). *)
Definition str_member (k s : string) : list (string * jvalue) :=
  if String.eqb s "" then [] else [(k, JString s)].
Definition int_member (k : string) (z : Z) : list (string * jvalue) :=
  if z =? 0 then [] else [(k, JInt z)].

Definition hdr_members (h : pkt_hdr_t) : list (string * jvalue) :=
  str_member "type" (Type_ h) ++
  str_member "line" (Line h) ++
  str_member "iv" (Iv h) ++
  str_member "open" (Open h) ++
  str_member "sig" (Sig h) ++
  str_member "c" (C h) ++
  str_member "to" (To h) ++
  int_member "at" (At h) ++
  str_member "family" (Family h) ++
  int_member "seq" (Seq h) ++
  match Ack h with Some a => [("ack", JInt a)] | None => [] end ++
  (if (len (Miss h) =? 0)%nat then [] else [("miss", JInts (elems (Miss h)))]) ++
  (if End_ h then [("end", JTrue)] else []) ++
  str_member "err" (Err h) ++
  str_member "seek" (Seek h) ++
  (if (len (See h) =? 0)%nat then [] else [("see", JStrings (elems (See h)))]) ++
  str_member "peer" (Peer h) ++
  str_member "ip" (IP h) ++
  int_member "port" (Port h).

(** Text of the values. *)
Fixpoint bytes_of_uint (u : Decimal.uint) : list byte :=
  match u with
  | Decimal.Nil => []
  | Decimal.D0 u => x30 :: bytes_of_uint u
  | Decimal.D1 u => x31 :: bytes_of_uint u
  | Decimal.D2 u => x32 :: bytes_of_uint u
  | Decimal.D3 u => x33 :: bytes_of_uint u
  | Decimal.D4 u => x34 :: bytes_of_uint u
  | Decimal.D5 u => x35 :: bytes_of_uint u
  | Decimal.D6 u => x36 :: bytes_of_uint u
  | Decimal.D7 u => x37 :: bytes_of_uint u
  | Decimal.D8 u => x38 :: bytes_of_uint u
  | Decimal.D9 u => x39 :: bytes_of_uint u
  end.

Definition enc_int (z : Z) : option (list byte) :=
  if in_int64 z then
    Some match Z.to_int z with
         | Decimal.Pos u => bytes_of_uint u
         | Decimal.Neg u => x2d :: bytes_of_uint u
         end
  else None.

Definition enc_string (s : string) : option (list byte) :=
  let bs := String.list_byte_of_string s in
  if forallb plain_byte bs then Some (x22 :: bs ++ [x22]) else None.

(** [l] with [sep] between its elements. *)
Fixpoint join (sep : list byte) (l : list (list byte)) : list byte :=
  match l with
  | [] => []
  | [x] => x
  | x :: l' => x ++ sep ++ join sep l'
  end.

(** All of [l] through [f], or nothing. *)
Fixpoint traverse {A B} (f : A -> option B) (l : list A) : option (list B) :=
  match l with
  | [] => Some []
  | x :: l' =>
    match f x, traverse f l' with
    | Some y, Some ys => Some (y :: ys)
    | _, _ => None
    end
  end.

Definition enc_array {A} (f : A -> option (list byte)) (l : list A)
    : option (list byte) :=
  match traverse f l with
  | Some parts => Some (x5b :: join [x2c] parts ++ [x5d])
  | None => None
  end.

Definition enc_value (v : jvalue) : option (list byte) :=
  match v with
  | JString s => enc_string s
  | JInt z => enc_int z
  | JTrue => Some (String.list_byte_of_string "true")
  | JInts l => enc_array enc_int l
  | JStrings l => enc_array enc_string l
  end.

Definition enc_member (m : string * jvalue) : option (list byte) :=
  match enc_value (snd m) with
  | Some v => Some (x22 :: String.list_byte_of_string (fst m) ++ [x22; x3a] ++ v)
  | None => None
  end.

(** The bytes [Encoder.Encode] writes: the object and a newline. *)
Definition plain_Encode (h : pkt_hdr_t) : result (list byte) :=
  if (0 <? len (Custom h))%nat then Fail ErrUnsupported else
  match traverse enc_member (hdr_members h) with
  | Some parts => Ok (x7b :: join [x2c] parts ++ [x7d; x0a])
  | None => Fail ErrUnsupported
  end.

(** Reading.  Insignificant white space is skipped between tokens. *)
Definition is_ws (b : byte) : bool :=
  match b with x20 | x09 | x0a | x0d => true | _ => false end.

Fixpoint skip_ws (bs : list byte) : list byte :=
  match bs with
  | b :: bs' => if is_ws b then skip_ws bs' else bs
  | [] => []
  end.

(** The rest of a string literal after its opening quote. *)
Fixpoint read_plain (bs : list byte) : option (list byte * list byte) :=
  match bs with
  | [] => None
  | b :: bs' =>
    if Byte.eqb b x22 then Some ([], bs')
    else if plain_byte b then
      match read_plain bs' with
      | Some (s, r) => Some (b :: s, r)
      | None => None
      end
    else None
  end.

Definition parse_string (bs : list byte) : option (string * list byte) :=
  match bs with
  | x22 :: bs' =>
    match read_plain bs' with
    | Some (s, r) => Some (String.string_of_list_byte s, r)
    | None => None
    end
  | _ => None
  end.

Definition digit_of_byte (b : byte) : option (Decimal.uint -> Decimal.uint) :=
  match b with
  | x30 => Some Decimal.D0 | x31 => Some Decimal.D1 | x32 => Some Decimal.D2
  | x33 => Some Decimal.D3 | x34 => Some Decimal.D4 | x35 => Some Decimal.D5
  | x36 => Some Decimal.D6 | x37 => Some Decimal.D7 | x38 => Some Decimal.D8
  | x39 => Some Decimal.D9 | _ => None
  end.

Fixpoint read_digits (bs : list byte) : Decimal.uint * list byte :=
  match bs with
  | [] => (Decimal.Nil, [])
  | b :: bs' =>
    match digit_of_byte b with
    | Some d => let '(u, r) := read_digits bs' in (d u, r)
    | None => (Decimal.Nil, bs)
    end
  end.

(** An integer literal: an optional minus sign and digits without a
    leading zero; a fraction or an exponent does not fit an integer field. *)
Definition canonical (u : Decimal.uint) : bool :=
  match u with
  | Decimal.Nil => false
  | Decimal.D0 Decimal.Nil => true
  | Decimal.D0 _ => false
  | _ => true
  end.

Definition integral (rest : list byte) : bool :=
  match rest with
  | x2e :: _ | x65 :: _ | x45 :: _ => false
  | _ => true
  end.

(** The digits and what follows them, after the sign was read. *)
Definition finish_int (sgn : bool) (bs : list byte) : option (Z * list byte) :=
  let '(u, rest) := read_digits bs in
  let z := Z.of_int (if sgn then Decimal.Neg u else Decimal.Pos u) in
  if canonical u && integral rest && in_int64 z then Some (z, rest) else None.

Definition parse_int (bs : list byte) : option (Z * list byte) :=
  match bs with
  | x2d :: r => finish_int true r
  | _ => finish_int false bs
  end.

(** The elements of an array after its opening bracket, up to and
    including the closing one. *)
Fixpoint parse_elems {A} (p : list byte -> option (A * list byte))
    (fuel : nat) (bs : list byte) : option (list A * list byte) :=
  match fuel with
  | O => None
  | S fuel' =>
    match p (skip_ws bs) with
    | None => None
    | Some (x, r) =>
      match skip_ws r with
      | x2c :: r' =>
        match parse_elems p fuel' r' with
        | Some (xs, r'') => Some (x :: xs, r'')
        | None => None
        end
      | x5d :: r' => Some ([x], r')
      | _ => None
      end
    end
  end.

(** The rest of the input when it begins with a closing bracket. *)
Definition closes_array (bs : list byte) : option (list byte) :=
  match bs with
  | x5d :: r => Some r
  | _ => None
  end.

Definition parse_array {A} (p : list byte -> option (A * list byte))
    (bs : list byte) : option (list A * list byte) :=
  match bs with
  | x5b :: r =>
    let r1 := skip_ws r in
    match closes_array r1 with
    | Some r' => Some ([], r')
    | None => parse_elems p (length r1) r1
    end
  | _ => None
  end.

Definition parse_bool (bs : list byte) : option (bool * list byte) :=
  match bs with
  | x74 :: x72 :: x75 :: x65 :: r => Some (true, r)
  | x66 :: x61 :: x6c :: x73 :: x65 :: r => Some (false, r)
  | _ => None
  end.

(** A value read with [p] and stored with [set]. *)
Definition store {A} (p : list byte -> option (A * list byte))
    (set : A -> pkt_hdr_t -> pkt_hdr_t) (bs : list byte) (h : pkt_hdr_t)
    : option (pkt_hdr_t * list byte) :=
  match p bs with
  | Some (v, r) => Some (set v h, r)
  | None => None
  end.

(** The fields of a header and the names their [json:] tags give them. *)
Inductive field :=
  | F_type | F_line | F_iv | F_open | F_sig | F_c | F_to
  | F_at | F_family | F_seq | F_ack | F_miss | F_end
  | F_err | F_seek | F_see | F_peer | F_ip | F_port.

Definition json_name (f : field) : string :=
  match f with
  | F_type => "type"
  | F_line => "line"
  | F_iv => "iv"
  | F_open => "open"
  | F_sig => "sig"
  | F_c => "c"
  | F_to => "to"
  | F_at => "at"
  | F_family => "family"
  | F_seq => "seq"
  | F_ack => "ack"
  | F_miss => "miss"
  | F_end => "end"
  | F_err => "err"
  | F_seek => "seek"
  | F_see => "see"
  | F_peer => "peer"
  | F_ip => "ip"
  | F_port => "port"
  end.

Definition field_of_key (key : string) : option field :=
  if String.eqb key "type" then Some F_type
  else if String.eqb key "line" then Some F_line
  else if String.eqb key "iv" then Some F_iv
  else if String.eqb key "open" then Some F_open
  else if String.eqb key "sig" then Some F_sig
  else if String.eqb key "c" then Some F_c
  else if String.eqb key "to" then Some F_to
  else if String.eqb key "at" then Some F_at
  else if String.eqb key "family" then Some F_family
  else if String.eqb key "seq" then Some F_seq
  else if String.eqb key "ack" then Some F_ack
  else if String.eqb key "miss" then Some F_miss
  else if String.eqb key "end" then Some F_end
  else if String.eqb key "err" then Some F_err
  else if String.eqb key "seek" then Some F_seek
  else if String.eqb key "see" then Some F_see
  else if String.eqb key "peer" then Some F_peer
  else if String.eqb key "ip" then Some F_ip
  else if String.eqb key "port" then Some F_port
  else None.

(** The value of a member, read and stored into its field. *)
Definition decode_value (f : field) (bs : list byte) (h : pkt_hdr_t)
    : option (pkt_hdr_t * list byte) :=
  match f with
  | F_type => store parse_string set_Type bs h
  | F_line => store parse_string set_Line bs h
  | F_iv => store parse_string set_Iv bs h
  | F_open => store parse_string set_Open bs h
  | F_sig => store parse_string set_Sig bs h
  | F_c => store parse_string set_C bs h
  | F_to => store parse_string set_To bs h
  | F_at => store parse_int set_At bs h
  | F_family => store parse_string set_Family bs h
  | F_seq => store parse_int set_Seq bs h
  | F_ack => store parse_int (fun z => set_Ack (Some z)) bs h
  | F_miss => store (parse_array parse_int) (fun l => set_Miss (Some l)) bs h
  | F_end => store parse_bool set_End bs h
  | F_err => store parse_string set_Err bs h
  | F_seek => store parse_string set_Seek bs h
  | F_see =>
    store (parse_array parse_string) (fun l => set_See (Some l)) bs h
  | F_peer => store parse_string set_Peer bs h
  | F_ip => store parse_string set_IP bs h
  | F_port => store parse_int set_Port bs h
  end.

(** The value of the member named [key], stored into the field with that
    name. *)
Definition decode_field (key : string) (bs : list byte) (h : pkt_hdr_t)
    : option (pkt_hdr_t * list byte) :=
  match field_of_key key with
  | Some f => decode_value f bs h
  | None => None
  end.

(** The members of an object after its opening brace, up to the closing
    one. *)
Fixpoint parse_members (fuel : nat) (bs : list byte) (h : pkt_hdr_t)
    : option pkt_hdr_t :=
  match fuel with
  | O => None
  | S fuel' =>
    match parse_string (skip_ws bs) with
    | None => None
    | Some (key, r) =>
      match skip_ws r with
      | x3a :: r1 =>
        match decode_field key (skip_ws r1) h with
        | None => None
        | Some (h', r2) =>
          match skip_ws r2 with
          | x2c :: r3 => parse_members fuel' r3 h'
          | x7d :: _ => Some h'
          | _ => None
          end
        end
      | _ => None
      end
    end
  end.

(** The input begins with a closing brace. *)
Definition closes_object (bs : list byte) : bool :=
  match bs with
  | x7d :: _ => true
  | _ => false
  end.

(** [Decoder.Decode]: the first JSON value of the input, which has to be
    an object, is stored into [h]; fields without a member keep their
    value. *)
Definition plain_Decode (bs : list byte) (h : pkt_hdr_t) : result pkt_hdr_t :=
  match skip_ws bs with
  | x7b :: r =>
    let r1 := skip_ws r in
    if closes_object r1 then Ok h
    else
      match parse_members (length r1) r1 h with
      | Some h' => Ok h'
      | None => Fail ErrUnsupported
      end
  | _ => Fail ErrUnsupported
  end.

Definition plain_json : JsonCodec :=
  {| json_Encode := plain_Encode; json_Decode := plain_Decode |}.

(** What decoding a member does to a header: the field named by the key
    takes the value; [None] when the key names no field or the value does
    not fit the field. *)
Definition assign_value (f : field) (v : jvalue) (h : pkt_hdr_t)
    : option pkt_hdr_t :=
  match f, v with
  | F_type, JString s => Some (set_Type s h)
  | F_line, JString s => Some (set_Line s h)
  | F_iv, JString s => Some (set_Iv s h)
  | F_open, JString s => Some (set_Open s h)
  | F_sig, JString s => Some (set_Sig s h)
  | F_c, JString s => Some (set_C s h)
  | F_to, JString s => Some (set_To s h)
  | F_at, JInt z => Some (set_At z h)
  | F_family, JString s => Some (set_Family s h)
  | F_seq, JInt z => Some (set_Seq z h)
  | F_ack, JInt z => Some (set_Ack (Some z) h)
  | F_miss, JInts l => Some (set_Miss (Some l) h)
  | F_end, JTrue => Some (set_End true h)
  | F_err, JString s => Some (set_Err s h)
  | F_seek, JString s => Some (set_Seek s h)
  | F_see, JStrings l => Some (set_See (Some l) h)
  | F_peer, JString s => Some (set_Peer s h)
  | F_ip, JString s => Some (set_IP s h)
  | F_port, JInt z => Some (set_Port z h)
  | _, _ => None
  end.

Definition assign (m : string * jvalue) (h : pkt_hdr_t) : option pkt_hdr_t :=
  match field_of_key (fst m) with
  | Some f => assign_value f (snd m) h
  | None => None
  end.

Fixpoint assign_all (ms : list (string * jvalue)) (h : pkt_hdr_t)
    : option pkt_hdr_t :=
  match ms with
  | [] => Some h
  | m :: ms' =>
    match assign m h with
    | Some h' => assign_all ms' h'
    | None => None
    end
  end.

(** The bytes that may follow a value: a comma or a closing bracket or
    brace. *)
Definition delim (rest : list byte) : Prop :=
  (exists r, rest = x2c :: r) \/ (exists r, rest = x5d :: r) \/
  (exists r, rest = x7d :: r).

(** A text that does not begin with a digit. *)
Definition no_digit (rest : list byte) : Prop :=
  match rest with
  | [] => True
  | b :: _ => digit_of_byte b = None
  end.

(** A text that begins with a byte of a value: neither white space nor a
    closing bracket. *)
Definition starts_value (bs : list byte) : bool :=
  match bs with
  | b :: _ => negb (is_ws b) && negb (Byte.eqb b x5d)
  | [] => false
  end.

(** *** Vocabulary of the specification for packets *)

(** "Absent body is equivalent to zero-length body", and the same for the
    slices of a header that [omitempty] leaves out: the slice with the
    empty one replaced by nil. *)
Definition norm_slice {A} (s : slice A) : slice A :=
  match s with
  | Some (_ :: _) => s
  | _ => None
  end.

(** A header "modulo omitted optional fields". *)
Definition omit_empty (h : pkt_hdr_t) : pkt_hdr_t :=
  set_Miss (norm_slice (Miss h))
    (set_See (norm_slice (See h)) (set_Custom (norm_slice (Custom h)) h)).

(** The encoder contract as the specification words it: the two-byte
    prefix is the exact byte length of the JSON encoding, which follows
    it, and the body comes last. *)
Definition frame_as_specified `{JsonCodec} (p : pkt_t) : Prop :=
  exists j buf,
    json_Encode (hdr p) = Ok j /\
    format_pkt p = Ok buf /\
    Uint16 (take 2 buf) = Z.of_nat (length j) /\
    drop 2 buf = j ++ elems (body p).

(** Reading a result pair. *)
Definition succeeded {A} (r : result A) : bool :=
  match r with Ok _ => true | Fail _ => false end.

Definition written (r : result (list byte)) : list byte :=
  match r with Ok j => j | Fail _ => [] end.

(** A packet whose only header field is an [err] text of 65536 letters. *)
Definition long_err : string :=
  String.string_of_list_byte (replicate (Z.to_nat 65536) x61).

Definition long_err_pkt : pkt_t :=
  Pkt None (set_Err long_err zero_hdr) None ZeroHashname.

(** A small channel packet with a body. *)
Definition sample_pkt : pkt_t :=
  Pkt None
    (set_Miss (Some [2; 3])
       (set_Ack (Some 0) (set_Seq 12 (set_C "abc" (set_Type "chat" zero_hdr)))))
    (Some [x68; x69]) ZeroHashname.

(** *** Channels ([controller_channel.go], [switch.go]) *)

(** Modelled from the spec: the send buffer, the receive buffer and the
    ack handler ([channel_snd_buffer_t], [channel_rcv_buffer_t],
    [channel_ack_handler_t]) are declared in files that are not part of
    the sources at hand; they follow sections 4.4 and 4.5 of the
    specification.  Blocking and deadlines are left out: [rcv_get]
    describes the outcome of a [get] that returns now. *)
Record channel_snd_buffer_t := SndBuffer {
  snd_pkts : gmap Z pkt_t;
  next_seq : Z
}.

Record channel_rcv_buffer_t := RcvBuffer {
  rcv_pkts : gmap Z pkt_t;
  next_in_order : Z;
  terminal_seq : option Z;
  rcv_closed : bool
}.

Record channel_ack_handler_t := AckHandler {
  last_rcv_seq : Z;
  missing : list Z;
  last_ack_sent : option Z;
  last_miss_sent : list Z;
  last_rcv_ack : Z;
  notified : nat;
  ack_closed : bool
}.

Definition snd_window : nat := 100.

Definition make_channel_snd_buffer : channel_snd_buffer_t := SndBuffer ∅ 1.
Definition make_channel_rcv_buffer : channel_rcv_buffer_t :=
  RcvBuffer ∅ 1 None false.
Definition make_channel_ack_handler : channel_ack_handler_t :=
  AckHandler 0 [] None [] 0 O false.

Definition pkt_with_hdr (p : pkt_t) (h : pkt_hdr_t) : pkt_t :=
  Pkt (addr p) h (body p) (peer p).

(** Modelled from the spec: [snd.put] gives the next sequence number to
    a packet that is not a pure ack and stores it; a full window fails
    with [WouldBlock]. *)
Definition snd_put (b : channel_snd_buffer_t) (p : pkt_t)
    : result (channel_snd_buffer_t * pkt_t) :=
  if JustAck p then Ok (b, p)
  else if (snd_window <=? size (snd_pkts b))%nat then Fail ErrWouldBlock
  else
    let p' := pkt_with_hdr p (set_Seq (next_seq b) (hdr p)) in
    Ok (SndBuffer (<[next_seq b := p']> (snd_pkts b)) (next_seq b + 1), p').

(** Modelled from the spec: [rcv.put] drops on a closed buffer, drops a
    duplicate, stores otherwise and marks the sequence of an [end] packet
    as terminal. *)
Definition rcv_put (b : channel_rcv_buffer_t) (p : pkt_t)
    : channel_rcv_buffer_t :=
  let s := Seq (hdr p) in
  if rcv_closed b then b
  else if (s <? next_in_order b) || bool_decide (is_Some (rcv_pkts b !! s))
  then b
  else
    RcvBuffer (<[s := p]> (rcv_pkts b)) (next_in_order b)
      (if End_ (hdr p) then Some s else terminal_seq b) (rcv_closed b).

(** Modelled from the spec: [rcv.get] hands out the packet whose sequence
    number is [next_in_order]; without it the outcome is [Closed] on a
    closed buffer and [Timeout] otherwise. *)
Definition rcv_get (b : channel_rcv_buffer_t)
    : result pkt_t * channel_rcv_buffer_t :=
  match rcv_pkts b !! next_in_order b with
  | Some p =>
    (Ok p, RcvBuffer (delete (next_in_order b) (rcv_pkts b))
             (next_in_order b + 1) (terminal_seq b) (rcv_closed b))
  | None => (Fail (if rcv_closed b then ErrClosed else ErrTimeout), b)
  end.

(** Modelled from the spec: [rcv.close] sets the close flag, on which
    waiting and later [get]s fail with [Closed]. *)
Definition rcv_close (b : channel_rcv_buffer_t) : channel_rcv_buffer_t :=
  RcvBuffer (rcv_pkts b) (next_in_order b) (terminal_seq b) true.

(** Modelled from the spec: [ack.received_packet] notifies the ack
    engine that a packet entered the receive buffer. *)
Definition ack_received_packet (a : channel_ack_handler_t)
    : channel_ack_handler_t :=
  AckHandler (last_rcv_seq a) (missing a) (last_ack_sent a) (last_miss_sent a)
    (last_rcv_ack a) (S (notified a)) (ack_closed a).

(** Modelled from the spec: [ack.add_ack_info] stamps [ack] and [miss] on
    an outgoing packet when either differs from what was sent last; a
    channel that has not received anything stamps nothing. *)
Definition add_ack_info (a : channel_ack_handler_t) (p : pkt_t)
    : channel_ack_handler_t * pkt_t :=
  if (notified a =? 0)%nat then (a, p)
  else if bool_decide (last_ack_sent a = Some (last_rcv_seq a)) &&
          bool_decide (last_miss_sent a = missing a)
  then (a, p)
  else
    (AckHandler (last_rcv_seq a) (missing a) (Some (last_rcv_seq a)) (missing a)
       (last_rcv_ack a) (notified a) (ack_closed a),
     pkt_with_hdr p
       (set_Miss (Some (missing a)) (set_Ack (Some (last_rcv_seq a)) (hdr p)))).

(** Modelled from the spec: [ack.handle_ack_info] does nothing without an
    [ack] field; with [ack = A] it evicts the send buffer up to [A], keeps
    the highest [A] seen and hands the packets listed in [miss] to the
    line layer again.  The result lists those packets. *)
Definition handle_ack_info (a : channel_ack_handler_t)
    (s : channel_snd_buffer_t) (p : pkt_t)
    : channel_ack_handler_t * channel_snd_buffer_t * list pkt_t :=
  match Ack (hdr p) with
  | None => (a, s, [])
  | Some A =>
    let kept := filter (fun kv => A < fst kv) (snd_pkts s) in
    (AckHandler (last_rcv_seq a) (missing a) (last_ack_sent a)
       (last_miss_sent a) (Z.max (last_rcv_ack a) A) (notified a) (ack_closed a),
     SndBuffer kept (next_seq s),
     omap (fun m => kept !! m) (elems (Miss (hdr p))))
  end.

(** Modelled from the spec: [ack.close] stops the ack engine of the
    channel. *)
Definition ack_close (a : channel_ack_handler_t) : channel_ack_handler_t :=
  AckHandler (last_rcv_seq a) (missing a) (last_ack_sent a) (last_miss_sent a)
    (last_rcv_ack a) (notified a) true.

(** [channel_t]; the back reference [conn] is the one controller of the
    state below. *)
Record channel_t := Channel {
  ch_id : string;
  ch_peer : Hashname;
  channel_type : string;
  ch_snd : channel_snd_buffer_t;
  ch_rcv : channel_rcv_buffer_t;
  ch_ack : channel_ack_handler_t
}.

(** The controller and what it points to.  Channels are shared objects:
    [objs] holds every allocated [channel_t] under its address, and the
    registry [channels] (the map [h.channels]) holds addresses.  [wire]
    lists the packets handed to the line layer by [_snd_pkt], oldest
    first; [handlers] the channels for which [run_user_handler] was
    started. *)
Record channel_controller := Controller {
  objs : gmap nat channel_t;
  next_obj : nat;
  channels : gmap string nat;
  wire : list (Hashname * pkt_t);
  handlers : list nat
}.

Definition empty_controller : channel_controller := Controller ∅ O ∅ [] [].

Definition with_obj (h : channel_controller) (c : nat) (o : channel_t)
    : channel_controller :=
  Controller (<[c := o]> (objs h)) (next_obj h) (channels h) (wire h)
    (handlers h).

(** A channel object through its address; the zero object stands for a
    dangling address, which the operations below never produce. *)
Definition zero_channel : channel_t :=
  Channel "" ZeroHashname "" make_channel_snd_buffer make_channel_rcv_buffer
    make_channel_ack_handler.

Definition obj (h : channel_controller) (c : nat) : channel_t :=
  match objs h !! c with Some o => o | None => zero_channel end.

(** [add_channel], [drop_channel], [make_channel] *)
Definition add_channel (h : channel_controller) (c : nat) : channel_controller :=
  Controller (objs h) (next_obj h) (<[ch_id (obj h c) := c]> (channels h))
    (wire h) (handlers h).

Definition drop_channel (h : channel_controller) (c : nat) : channel_controller :=
  Controller (objs h) (next_obj h) (delete (ch_id (obj h c)) (channels h))
    (wire h) (handlers h).

Definition make_channel (h : channel_controller) (peer : Hashname)
    : channel_controller * nat :=
  let c := next_obj h in
  (Controller
     (<[c := Channel "" peer "" make_channel_snd_buffer make_channel_rcv_buffer
               make_channel_ack_handler]> (objs h))
     (S c) (channels h) (wire h) (handlers h), c).

(** Modelled from the spec: [_snd_pkt] belongs to the line layer, which
    takes the packet for the peer; it is assumed to accept it. *)
Definition _snd_pkt (h : channel_controller) (to : Hashname) (p : pkt_t)
    : channel_controller * option error :=
  (Controller (objs h) (next_obj h) (channels h) (wire h ++ [(to, p)])
     (handlers h), None).

(** [func (c *channel_t) send(pkt *pkt_t) error] *)
Definition send (h : channel_controller) (c : nat) (p : pkt_t)
    : channel_controller * option error :=
  let o := obj h c in
  (* mark the packet *)
  let p := pkt_with_hdr p (set_C (ch_id o) (hdr p)) in
  (* buffer the packet *)
  match snd_put (ch_snd o) p with
  | Fail err => (h, Some err)
  | Ok (s, p) =>
    let '(a, p) := add_ack_info (ch_ack o) p in
    let h := with_obj h c
               (Channel (ch_id o) (ch_peer o) (channel_type o) s (ch_rcv o) a) in
    (* send the packet *)
    _snd_pkt h (ch_peer o) p
  end.

(** [func (c *channel_t) close_with_error(err_message string) error] *)
Definition close_with_error (h : channel_controller) (c : nat)
    (err_message : string) : channel_controller * option error :=
  let '(h, err) :=
    send h c (Pkt None (set_Err err_message (set_End true zero_hdr)) None
                  ZeroHashname) in
  let o := obj h c in
  let h := with_obj h c
             (Channel (ch_id o) (ch_peer o) (channel_type o) (ch_snd o)
                (ch_rcv o) (ack_close (ch_ack o))) in
  let o := obj h c in
  let h := with_obj h c
             (Channel (ch_id o) (ch_peer o) (channel_type o) (ch_snd o)
                (rcv_close (ch_rcv o)) (ch_ack o)) in
  (h, err).

(** [func (c *channel_t) close() error] *)
Definition close (h : channel_controller) (c : nat)
    : channel_controller * option error :=
  close_with_error h c "".

(** [func (c *channel_t) receive()]: the pair [(pkt, err)] it returns. *)
Definition receive (h : channel_controller) (c : nat)
    : channel_controller * (option pkt_t * option error) :=
  let o := obj h c in
  let '(got, r) := rcv_get (ch_rcv o) in
  let h := with_obj h c
             (Channel (ch_id o) (ch_peer o) (channel_type o) (ch_snd o) r
                (ch_ack o)) in
  match got with
  | Fail err => (h, (None, Some err))
  | Ok pkt =>
    let err :=
      if negb (String.eqb (Err (hdr pkt)) "")
      then Some (ErrorString (Err (hdr pkt))) else None in
    (h, (Some pkt, err))
  end.

(** What [Channel.Receive(hdr)] hands to its caller: the two results and,
    when [json.Unmarshal] stored the custom header into [hdr], the text
    it was read from. *)
Record received := Received {
  rx_body : slice byte;
  rx_err : option error;
  rx_hdr : option (list byte)
}.

(** [func (c *Channel) Receive(hdr interface{}) (body []byte, err error)].
    [unmarshal bs] is the error, if any, of [json.Unmarshal(bs, hdr)] for
    the caller's [hdr]. *)
Definition Channel_Receive (unmarshal : list byte -> option error)
    (h : channel_controller) (c : nat) : channel_controller * received :=
  let '(h, (pkt, err)) := receive h c in
  match err with
  | Some e => (h, Received None (Some e) None)
  | None =>
    match pkt with
    | None => (h, Received None None None)
    | Some pkt =>
      if (0 <? len (Custom (hdr pkt)))%nat then
        match unmarshal (elems (Custom (hdr pkt))) with
        | Some e => (h, Received None (Some e) None)
        | None =>
          (h, Received (body pkt) None (Some (elems (Custom (hdr pkt)))))
        end
      else (h, Received (body pkt) None None)
    end
  end.

(** [func (h *channel_controller) rcv_new_channel_pkt(pkt *pkt_t)] *)
Definition rcv_new_channel_pkt (h : channel_controller) (p : pkt_t)
    : channel_controller :=
  let '(h, c) := make_channel h (peer p) in
  let o := obj h c in
  let h := with_obj h c
             (Channel (C (hdr p)) (ch_peer o) (Type_ (hdr p)) (ch_snd o)
                (ch_rcv o) (ch_ack o)) in
  let h := add_channel h c in
  (* go channel.run_user_handler() *)
  let h := Controller (objs h) (next_obj h) (channels h) (wire h)
             (handlers h ++ [c]) in
  let o := obj h c in
  with_obj h c
    (Channel (ch_id o) (ch_peer o) (channel_type o) (ch_snd o)
       (rcv_put (ch_rcv o) p) (ack_received_packet (ch_ack o))).

(** [func (h *channel_controller) rcv_channel_pkt(pkt *pkt_t)] *)
Definition rcv_channel_pkt (h : channel_controller) (p : pkt_t)
    : channel_controller :=
  if String.eqb (C (hdr p)) "" then h (* drop; unknown channel *) else
  match channels h !! C (hdr p) with
  | None =>
    if negb (String.eqb (Type_ (hdr p)) "") then rcv_new_channel_pkt h p
    else h (* drop; unknown channel *)
  | Some c =>
    let o := obj h c in
    let o :=
      if negb (JustAck p) then (* not just an ack *)
        Channel (ch_id o) (ch_peer o) (channel_type o) (ch_snd o)
          (rcv_put (ch_rcv o) p) (ack_received_packet (ch_ack o))
      else o in
    let '(a, s, resend) := handle_ack_info (ch_ack o) (ch_snd o) p in
    let h := with_obj h c
               (Channel (ch_id o) (ch_peer o) (channel_type o) s (ch_rcv o) a) in
    Controller (objs h) (next_obj h) (channels h)
      (wire h ++ map (fun q => (ch_peer o, q)) resend) (handlers h)
  end.

(** [func (h *channel_controller) open_channel(hashname, pkt)].  [id] is
    the hex text of the sixteen random bytes drawn by [make_rand]. *)
Definition open_channel (h : channel_controller) (id : string)
    (hashname : Hashname) (p : pkt_t)
    : channel_controller * result nat :=
  let '(h, c) := make_channel h hashname in
  let o := obj h c in
  let h := with_obj h c
             (Channel id (ch_peer o) (channel_type o) (ch_snd o) (ch_rcv o)
                (ch_ack o)) in
  let h := add_channel h c in
  match send h c p with
  | (h, Some err) => (fst (close h c), Fail err)
  | (h, None) => (h, Ok c)
  end.

(** *** Sample channel traffic *)

(** The first packet of a channel opened by the peer; it ends the channel
    with an error. *)
Definition boom_pkt : pkt_t :=
  Pkt None
    (set_Err "boom" (set_End true (set_Seq 1 (set_C "c1" (set_Type "chat" zero_hdr)))))
    (Some [x68; x69]) "peer1".

(** A later packet that names the same channel id and carries a type. *)
Definition reopen_pkt : pkt_t :=
  Pkt None (set_Seq 1 (set_C "c1" (set_Type "chat" zero_hdr))) None "peer1".

(** A pure ack for the channel. *)
Definition ack_pkt : pkt_t :=
  Pkt None (set_Ack (Some 1) (set_C "c1" zero_hdr)) None "peer1".

(** *** The rest of the channel interface *)

(** [func (h *channel_controller) _close_channels()].  A [range] over a
    Go map meets the entries in an order that is not specified:
    [close_channels_in order h] is the loop when it meets the channels in
    the order [order], an arrangement of [registered h]. *)
Definition registered (h : channel_controller) : list nat :=
  map snd (map_to_list (channels h)).

Definition close_channels_in (order : list nat) (h : channel_controller)
    : channel_controller :=
  fold_left (fun h c => fst (close_with_error h c "switch was terminated"))
    order h.

Definition _close_channels (h : channel_controller) : channel_controller :=
  close_channels_in (registered h) h.

(** [func (c *channel_t) run_user_handler()].  [serve h c] is what
    [c.conn.handler.serve_telehash(c)] leaves of the controller, and
    whether it panicked; the deferred function then closes the channel. *)
Definition run_user_handler
    (serve : channel_controller -> nat -> channel_controller * bool)
    (h : channel_controller) (c : nat) : channel_controller :=
  let '(h, panicked) := serve h c in
  if panicked then fst (close_with_error h c "internal server error")
  else fst (close h c).

(** [func (s *Switch) Open(hashname Hashname, typ string)]; [id] as in
    [open_channel]. *)
Definition Switch_Open (h : channel_controller) (id : string)
    (hashname : Hashname) (typ : string) : channel_controller * result nat :=
  open_channel h id hashname
    (Pkt None (set_Type typ zero_hdr) None ZeroHashname).

(** [func (c *Channel) Close() error] *)
Definition Channel_Close (h : channel_controller) (c : nat)
    : channel_controller * option error :=
  close h c.

(** [func (c *Channel) Send(hdr interface{}, body []byte) error].
    [marshal] is [None] for a nil [hdr] and the outcome of
    [json.Marshal(hdr)] otherwise. *)
Definition Channel_Send (marshal : option (result (list byte)))
    (h : channel_controller) (c : nat) (body : slice byte)
    : channel_controller * option error :=
  match marshal with
  | Some (Fail err) => (h, Some err)
  | Some (Ok custom) =>
    send h c (Pkt None (set_Custom (Some custom) zero_hdr) body ZeroHashname)
  | None => send h c (Pkt None zero_hdr body ZeroHashname)
  end.

(** [func make_rand(n int) ([]byte, error)].  [rand.Read] is external:
    [reads] scripts its calls, each entry being the bytes one call stores
    at the front of [w] (never more than [len(w)], so that a longer entry
    is cut) or the error it returns.  [None]: the script ends before the
    loop does. *)
Fixpoint make_rand_loop (reads : list (result (list byte)))
    (filled : list byte) (w : nat) : option (result (list byte)) :=
  match w with
  | O => Some (Ok filled)
  | S _ =>
    match reads with
    | [] => None
    | Fail err :: _ => Some (Fail err)
    | Ok chunk :: reads' =>
      let r := take w chunk in
      make_rand_loop reads' (filled ++ r) (w - length r)
    end
  end.

Definition make_rand (reads : list (result (list byte))) (n : nat)
    : option (result (list byte)) :=
  make_rand_loop reads [] n.

(** *** Vocabulary for the channel facts *)

(** [q] is [p] but for the fields the buffers stamp on an outgoing
    packet: [seq], [ack] and [miss]. *)
Definition stamped (p q : pkt_t) : Prop :=
  exists s a m,
    q = pkt_with_hdr p (set_Miss m (set_Ack a (set_Seq s (hdr p)))).

(** The channel at address [c] is closed for receiving and acking. *)
Definition closed (h : channel_controller) (c : nat) : Prop :=
  rcv_closed (ch_rcv (obj h c)) = true /\ ack_closed (ch_ack (obj h c)) = true.

(** The end packet [close_with_error] sends for the channel [o]. *)
Definition end_pkt_of (o : channel_t) (msg : string) (q : pkt_t) : Prop :=
  stamped (Pkt None (set_C (ch_id o) (set_Err msg (set_End true zero_hdr)))
             None ZeroHashname) q.

(** A packet as the line layer hands it to [rcv_channel_pkt]: [peer] is
    the hashname it came from. *)
Definition from_peer (from : Hashname) (q : pkt_t) : pkt_t :=
  Pkt (addr q) (hdr q) (body q) from.

End Telehash.

(** ** Part II: properties *)

(** *** The routing table *)
Module KademliaFacts.
Import Kademlia.

Lemma keyDistance_inj key a b :
  keyDistance a key = keyDistance b key -> a = b.
Proof.
  unfold keyDistance. intros E.
  apply (f_equal (fun d => Z.lxor d key)) in E.
  rewrite !Z.lxor_assoc, !Z.lxor_nilpotent, !Z.lxor_0_r in E. exact E.
Qed.

#[local] Instance nearer_trans key : Transitive (nearer key).
Proof. unfold nearer. intros a b c. lia. Qed.

#[local] Instance nearer_antisymm key : AntiSymm (=) (nearer key).
Proof.
  unfold nearer. intros a b Hab Hba. apply (keyDistance_inj key). lia.
Qed.

#[local] Instance not_after_trans : Transitive not_after.
Proof.
  unfold not_after, Less, distanceLess. intros p q r.
  rewrite !Z.ltb_ge. lia.
Qed.

#[local] Instance not_after_total : Total not_after.
Proof.
  unfold not_after, Less, distanceLess. intros p q.
  rewrite !Z.ltb_ge. lia.
Qed.

(** A bucket reached through an index is a bucket of the table, or has no
    entries. *)
Lemma bucket_at_peers t idx p :
  p ∈ peers (bucket_at t idx) -> exists b, b ∈ buckets t /\ p ∈ peers b.
Proof.
  unfold bucket_at. rewrite list_lookup_total_alt.
  destruct (buckets t !! Z.to_nat idx) as [b|] eqn:E; simpl.
  - intros Hp. exists b. split; [|exact Hp].
    apply list_elem_of_lookup. eauto.
  - intros Hp. inversion Hp.
Qed.

Lemma bucket_at_same_peers t t' idx :
  map peers (buckets t') = map peers (buckets t) ->
  peers (bucket_at t' idx) = peers (bucket_at t idx).
Proof.
  intros E. unfold bucket_at. rewrite !list_lookup_total_alt.
  assert (E' : peers <$> (buckets t' !! Z.to_nat idx)
               = peers <$> (buckets t !! Z.to_nat idx)).
  { rewrite <- !list_lookup_fmap. change (fmap peers) with (map peers).
    rewrite E. reflexivity. }
  destruct (buckets t' !! Z.to_nat idx), (buckets t !! Z.to_nat idx);
    simpl in *; congruence.
Qed.

Lemma bucket_peerInfos_from_peers t idx :
  Forall (from_peers t) (bucket_peerInfos (bucket_at t idx)).
Proof.
  apply Forall_forall. intros pi Hpi. unfold bucket_peerInfos in Hpi.
  apply list_elem_of_fmap in Hpi as (p & -> & Hp).
  destruct (bucket_at_peers t idx p Hp) as (b & Hb & Hpb).
  exists b, p. auto.
Qed.

Lemma findKey_walk_from_peers fuel t bucketIdx n offset acc :
  Forall (from_peers t) acc ->
  Forall (from_peers t) (findKey_walk fuel t bucketIdx n offset acc).
Proof.
  revert offset acc. induction fuel as [|fuel IH]; intros offset acc Hacc;
    simpl; [exact Hacc|].
  destruct (_ && _); [|exact Hacc].
  apply IH.
  destruct (_ <? numBuckets); destruct (0 <=? _);
    repeat (apply Forall_app; split);
    auto using bucket_peerInfos_from_peers.
Qed.

Lemma findKey_gather_from_peers t key n :
  Forall (from_peers t) (findKey_gather t key n).
Proof.
  unfold findKey_gather. apply findKey_walk_from_peers.
  apply bucket_peerInfos_from_peers.
Qed.

(** The walk reads the active lists only. *)
Lemma findKey_walk_same_peers fuel t t' bucketIdx n offset acc :
  map peers (buckets t') = map peers (buckets t) ->
  findKey_walk fuel t' bucketIdx n offset acc =
  findKey_walk fuel t bucketIdx n offset acc.
Proof.
  intros E. revert offset acc.
  induction fuel as [|fuel IH]; intros offset acc; simpl; [reflexivity|].
  unfold bucket_peerInfos. rewrite !(bucket_at_same_peers t t' _ E).
  destruct (_ && _); [apply IH|reflexivity].
Qed.

(** The loop of the walk has run to its end when the fuel is spent: more
    fuel does not change the result. *)
Lemma findKey_walk_fuel fuel t bucketIdx n offset acc :
  numBuckets - offset <= Z.of_nat fuel ->
  findKey_walk (S fuel) t bucketIdx n offset acc =
  findKey_walk fuel t bucketIdx n offset acc.
Proof.
  revert offset acc. induction fuel as [|fuel IH]; intros offset acc Hf.
  - simpl. destruct (Z.ltb_spec offset numBuckets); [lia|].
    rewrite andb_false_r. reflexivity.
  - change (findKey_walk (S (S fuel)) t bucketIdx n offset acc) with
      (if (Z.of_nat (length acc) <? int_of_uint n) && (offset <? numBuckets)
       then findKey_walk (S fuel) t bucketIdx n (offset + 1)
              (let acc1 := if 0 <=? bucketIdx - offset
                           then acc ++ bucket_peerInfos (bucket_at t (bucketIdx - offset))
                           else acc in
               if bucketIdx + offset <? numBuckets
               then acc1 ++ bucket_peerInfos (bucket_at t (bucketIdx + offset))
               else acc1)
       else acc).
    rewrite IH by lia. reflexivity.
Qed.

(** Once the distances are recomputed, sorting by [Less] orders the
    hashnames by their distance to the key. *)
Lemma with_key_distance_set key l :
  Forall (key_distance_set key) (map (with_key_distance key) l).
Proof.
  apply Forall_forall. intros p Hp.
  apply list_elem_of_fmap in Hp as (q & -> & _). reflexivity.
Qed.

Lemma with_key_distance_names key l :
  map pi_hashname (map (with_key_distance key) l) = map pi_hashname l.
Proof. rewrite map_map. reflexivity. Qed.

Lemma names_sorted key l :
  Forall (key_distance_set key) l ->
  StronglySorted not_after l ->
  StronglySorted (nearer key) (map pi_hashname l).
Proof.
  intros Hset Hs. induction Hs as [|p l Hs IH Hhd]; simpl; [constructor|].
  apply Forall_cons in Hset as [Hp Hl].
  constructor; [apply IH; exact Hl|].
  apply Forall_forall. intros h Hh.
  apply list_elem_of_fmap in Hh as (q & -> & Hq).
  rewrite Forall_forall in Hhd, Hl.
  specialize (Hhd q Hq). specialize (Hl q Hq).
  unfold not_after, Less, distanceLess in Hhd. apply Z.ltb_ge in Hhd.
  unfold nearer. unfold key_distance_set in Hp, Hl. lia.
Qed.

Lemma sorted_names_sorted key l :
  StronglySorted (nearer key)
    (map pi_hashname (sort_peerInfoByDistance (map (with_key_distance key) l))).
Proof.
  apply names_sorted.
  - unfold sort_peerInfoByDistance.
    rewrite (merge_sort_Permutation not_after). apply with_key_distance_set.
  - apply StronglySorted_merge_sort; apply _.
Qed.

(** The hashnames [findKey] returns do not depend on the sorting
    algorithm: every arrangement of the peers that [Less] accepts as
    sorted lists the hashnames in the same order. *)
Lemma findKey_sort_irrelevant key l s :
  s ≡ₚ map (with_key_distance key) l ->
  Sorted not_after s ->
  map pi_hashname s =
  map pi_hashname (sort_peerInfoByDistance (map (with_key_distance key) l)).
Proof.
  intros Hperm Hsorted.
  apply (StronglySorted_unique (nearer key)).
  - apply names_sorted.
    + rewrite Hperm. apply with_key_distance_set.
    + apply Sorted_StronglySorted; [apply _|exact Hsorted].
  - apply sorted_names_sorted.
  - change (pi_hashname <$> s ≡ₚ
            pi_hashname <$> sort_peerInfoByDistance (map (with_key_distance key) l)).
    rewrite Hperm. unfold sort_peerInfoByDistance.
    rewrite (merge_sort_Permutation not_after). reflexivity.
Qed.

Lemma int_of_uint_small n : 0 <= n < 2 ^ 63 -> int_of_uint n = n.
Proof.
  intros Hn. unfold int_of_uint.
  destruct (Z.ltb_spec n (2 ^ 63)); [reflexivity|lia].
Qed.

Lemma make_granted maxCap w :
  0 <= w -> w + 96 < 2 ^ 63 -> w + 96 <= maxCap ->
  make_panics maxCap (make_cap w) = false.
Proof.
  intros H0 Hint Hcap. unfold make_panics, make_cap.
  change (3 * Z.of_nat maxPeers) with 96. rewrite Z.mod_small by lia.
  destruct (Z.leb_spec (2 ^ 63) (w + 96)); [lia|].
  destruct (Z.ltb_spec maxCap (w + 96)); [lia|reflexivity].
Qed.

Lemma make_refused maxCap w :
  0 <= w < 2 ^ 63 -> 2 ^ 63 <= w + 96 \/ maxCap < w + 96 ->
  make_panics maxCap (make_cap w) = true.
Proof.
  intros Hw Hno. unfold make_panics, make_cap.
  change (3 * Z.of_nat maxPeers) with 96. rewrite Z.mod_small by lia.
  destruct (Z.leb_spec (2 ^ 63) (w + 96)); [reflexivity|].
  destruct (Z.ltb_spec maxCap (w + 96)); [reflexivity|lia].
Qed.

(** [findKey] for a width in the [int] range: a panic of [make], or the
    first [n] of the sorted peers. *)
Lemma findKey_cases maxCap t key n :
  0 <= n < 2 ^ 63 ->
  let width := if n =? 0 then defaultLookupSize else n in
  findKey maxCap t key n =
    if make_panics maxCap (make_cap width) then None
    else
      Some (map pi_hashname
              (take (Z.to_nat width)
                 (sort_peerInfoByDistance
                    (map (with_key_distance key) (findKey_gather t key width))))).
Proof.
  intros Hn width. unfold findKey. fold width.
  destruct (make_panics maxCap (make_cap width)); [reflexivity|].
  assert (Hw : 0 <= width < 2 ^ 63).
  { unfold width, defaultLookupSize. destruct (n =? 0); lia. }
  rewrite (int_of_uint_small width Hw).
  set (s := sort_peerInfoByDistance _).
  destruct (Z.ltb_spec width (Z.of_nat (length s))) as [Hlt|Hge].
  - destruct (Z.leb_spec width (Z.of_nat (length s))); [reflexivity|lia].
  - rewrite take_ge by lia. reflexivity.
Qed.

Lemma findKey_eq maxCap t key n :
  0 <= n < 2 ^ 63 ->
  let width := if n =? 0 then defaultLookupSize else n in
  width + 96 < 2 ^ 63 -> width + 96 <= maxCap ->
  findKey maxCap t key n =
    Some (map pi_hashname
            (take (Z.to_nat width)
               (sort_peerInfoByDistance
                  (map (with_key_distance key) (findKey_gather t key width))))).
Proof.
  intros Hn width Hint Hcap. rewrite (findKey_cases maxCap t key n Hn).
  fold width. rewrite make_granted; [reflexivity| |exact Hint|exact Hcap].
  unfold width, defaultLookupSize. destruct (n =? 0); lia.
Qed.

(** What [findKey] returns, when it returns. *)
Lemma findKey_Some maxCap t key n out :
  0 <= n < 2 ^ 63 ->
  findKey maxCap t key n = Some out ->
  let width := if n =? 0 then defaultLookupSize else n in
  out = map pi_hashname
          (take (Z.to_nat width)
             (sort_peerInfoByDistance
                (map (with_key_distance key) (findKey_gather t key width)))).
Proof.
  intros Hn Hout width. rewrite (findKey_cases maxCap t key n Hn) in Hout.
  fold width in Hout. destruct (make_panics _ _); [discriminate|].
  injection Hout as <-. reflexivity.
Qed.

Lemma findKey_gather_same_peers t t' key n :
  localHashname t' = localHashname t ->
  map peers (buckets t') = map peers (buckets t) ->
  findKey_gather t' key n = findKey_gather t key n.
Proof.
  intros Hl Hp. unfold findKey_gather. rewrite Hl.
  unfold bucket_peerInfos. rewrite (bucket_at_same_peers t t' _ Hp).
  apply findKey_walk_same_peers. exact Hp.
Qed.

(** The first [k] of the sorted peers: what [findKey] keeps of a list of
    gathered peers. *)
Lemma nearest_taken key (G : list peerInfo) (k : nat) s :
  s = sort_peerInfoByDistance (map (with_key_distance key) G) ->
  let out := map pi_hashname (take k s) in
  (length out <= k)%nat /\
  (forall h, h ∈ out -> exists g, g ∈ G /\ h = pi_hashname g) /\
  StronglySorted (nearer key) out /\
  exists rest,
    map pi_hashname G ≡ₚ out ++ rest /\
    (forall x y, x ∈ out -> y ∈ rest -> nearer key x y) /\
    ((k <= length G)%nat -> length out = k).
Proof.
  intros Hs out.
  assert (Hperm : s ≡ₚ map (with_key_distance key) G)
    by (rewrite Hs; apply (merge_sort_Permutation not_after)).
  assert (Hsorted : StronglySorted (nearer key) (map pi_hashname s))
    by (rewrite Hs; apply sorted_names_sorted).
  clear Hs.
  assert (Hsplit : map pi_hashname s = out ++ map pi_hashname (drop k s))
    by (unfold out; rewrite <- map_app, take_drop; reflexivity).
  split; [unfold out; rewrite length_map, length_take; lia|].
  split.
  { intros h Hh. apply list_elem_of_fmap in Hh as (p & -> & Hp).
    apply (subseteq_take k s) in Hp.
    apply (elem_of_Permutation_proper _ _ _ Hperm) in Hp.
    apply list_elem_of_fmap in Hp as (g & -> & Hg).
    exists g. split; [exact Hg|reflexivity]. }
  rewrite Hsplit in Hsorted.
  split; [exact (StronglySorted_app_1_l _ _ _ Hsorted)|].
  exists (map pi_hashname (drop k s)).
  split.
  { rewrite <- Hsplit, <- (with_key_distance_names key G).
    apply Permutation_map. symmetry. exact Hperm. }
  split.
  { intros x y Hx Hy.
    exact (StronglySorted_app_1_elem_of _ _ _ _ _ Hsorted Hx Hy). }
  intros Hlen. unfold out. rewrite length_map, length_take.
  apply Permutation_length in Hperm. rewrite length_map in Hperm. lia.
Qed.

(** **** The walk of the code and the walk of the specification *)

Lemma bucket_peerInfos_names b :
  map pi_hashname (bucket_peerInfos b) = peer_names b.
Proof. unfold bucket_peerInfos, peer_names. apply map_map. Qed.

Lemma spec_walk_succ t i r :
  spec_walk t i (S r) =
    spec_walk t i r ++
    (if 0 <=? i - (Z.of_nat r + 1)
     then peer_names (bucket_at t (i - (Z.of_nat r + 1))) else []) ++
    (if i + (Z.of_nat r + 1) <? numBuckets
     then peer_names (bucket_at t (i + (Z.of_nat r + 1))) else []).
Proof.
  cbn [spec_walk]. replace (Z.of_nat (S r)) with (Z.of_nat r + 1) by lia.
  reflexivity.
Qed.

(** The loop of [findKey], entered at stride [r + 1] with the peers of
    the specification's walk to stride [r], ends with the peers of that
    walk to the stride at which it stops. *)
Lemma findKey_walk_spec fuel t i n : forall (r : nat) acc,
  map pi_hashname acc = spec_walk t i r ->
  (forall r', (r' < r)%nat ->
     Z.of_nat (length (spec_walk t i r')) < int_of_uint n) ->
  (r <= 255)%nat -> (255 - r <= fuel)%nat ->
  exists r1,
    spec_walk_stops t i (int_of_uint n) r1 /\
    map pi_hashname (findKey_walk fuel t i n (Z.of_nat r + 1) acc) =
      spec_walk t i r1.
Proof.
  induction fuel as [|fuel IH]; intros r acc Hacc Hless Hr Hfuel.
  { exists r. split; [|exact Hacc].
    split; [exact Hr|]. split; [exact Hless|left; lia]. }
  assert (Hlen : length (spec_walk t i r) = length acc)
    by (rewrite <- Hacc; apply length_map).
  change (findKey_walk (S fuel) t i n (Z.of_nat r + 1) acc) with
    (if (Z.of_nat (length acc) <? int_of_uint n) &&
        (Z.of_nat r + 1 <? numBuckets)
     then findKey_walk fuel t i n (Z.of_nat r + 1 + 1)
            (let a1 := if 0 <=? i - (Z.of_nat r + 1)
                       then acc ++ bucket_peerInfos
                                     (bucket_at t (i - (Z.of_nat r + 1)))
                       else acc in
             if i + (Z.of_nat r + 1) <? numBuckets
             then a1 ++ bucket_peerInfos (bucket_at t (i + (Z.of_nat r + 1)))
             else a1)
     else acc).
  destruct (Z.ltb_spec (Z.of_nat (length acc)) (int_of_uint n)) as [Hlt|Hge].
  - destruct (Z.ltb_spec (Z.of_nat r + 1) numBuckets) as [Hin|Hout].
    + cbn [andb]. cbv zeta.
      change numBuckets with 256 in Hin.
      replace (Z.of_nat r + 1 + 1) with (Z.of_nat (S r) + 1) by lia.
      apply IH; [|intros r' Hr'|lia|lia].
      * rewrite spec_walk_succ, <- Hacc.
        destruct (0 <=? i - (Z.of_nat r + 1));
          destruct (i + (Z.of_nat r + 1) <? numBuckets);
          rewrite ?map_app, ?bucket_peerInfos_names, ?app_nil_r, <- ?app_assoc;
          reflexivity.
      * destruct (decide (r' = r)) as [->|Hne]; [lia|apply Hless; lia].
    + cbn [andb]. exists r. split; [|exact Hacc].
      change numBuckets with 256 in Hout.
      split; [exact Hr|]. split; [exact Hless|left; lia].
  - cbn [andb]. exists r. split; [|exact Hacc].
    split; [exact Hr|]. split; [exact Hless|right; lia].
Qed.

(** The peers [findKey] gathers are those of the specification's walk,
    in its order. *)
Lemma findKey_gather_spec t key w :
  let i := Z.max 0 (bucketFromDistance (keyDistance (localHashname t) key)) in
  exists r,
    spec_walk_stops t i (int_of_uint w) r /\
    map pi_hashname (findKey_gather t key w) = spec_walk t i r.
Proof.
  intros i. unfold findKey_gather. cbv zeta.
  assert (E : (if bucketFromDistance (keyDistance (localHashname t) key) <? 0
               then 0
               else bucketFromDistance (keyDistance (localHashname t) key)) = i).
  { unfold i.
    destruct (Z.ltb_spec (bucketFromDistance
                            (keyDistance (localHashname t) key)) 0); lia. }
  rewrite E. clearbody i. clear E.
  apply (findKey_walk_spec (Z.to_nat numBuckets) t i w 0).
  - apply bucket_peerInfos_names.
  - intros r' Hr'. lia.
  - lia.
  - change (Z.to_nat numBuckets) with 256%nat. lia.
Qed.

(** The first [k] of the sorted peers are as many as there are, up to
    [k]. *)
Lemma nearest_taken_length key (G : list peerInfo) (k : nat) :
  length (map pi_hashname
            (take k (sort_peerInfoByDistance (map (with_key_distance key) G))))
  = Nat.min k (length G).
Proof.
  rewrite length_map, length_take. unfold sort_peerInfoByDistance.
  rewrite (Permutation_length (merge_sort_Permutation not_after _)).
  rewrite length_map. reflexivity.
Qed.

(** C2 (lookup).  For a lookup width [n] in the [int] range, [findKey]
    panics exactly when the capacity it asks of [make], the width plus
    96, does not fit [int] or is more than the allocator grants.
    Otherwise it returns a list [out] such that: the peers gathered are
    those of the walk of the specification from the bucket of the key
    (bucket 0 for the local key) to the stride [r] at which that walk
    stops, the first after which at least [n] peers (32 when [n] is 0)
    are gathered or else 255; [out] has [n] entries, or all the gathered
    peers when they are fewer; each entry is the hashname of an active
    peer of a bucket of the table, and the list is the same for every
    table with these active lists, whatever its candidates and pending
    entries; the list is in non-decreasing order of XOR-distance to
    [key]; and it consists of the gathered peers that are nearest to
    [key]. *)
Theorem findKey_correct (maxCap : Z) (t : table) (key : Key) (n : Z) :
  0 <= n < 2 ^ 63 ->
  let width := if n =? 0 then defaultLookupSize else n in
  let i := Z.max 0 (bucketFromDistance (keyDistance (localHashname t) key)) in
  (2 ^ 63 <= width + 96 \/ maxCap < width + 96 ->
   findKey maxCap t key n = None) /\
  (width + 96 < 2 ^ 63 -> width + 96 <= maxCap ->
   exists out r,
     findKey maxCap t key n = Some out /\
     spec_walk_stops t i width r /\
     Z.of_nat (length out) =
       Z.min width (Z.of_nat (length (spec_walk t i r))) /\
     (forall h, h ∈ out -> exists b, b ∈ buckets t /\ h ∈ peer_names b) /\
     (forall t', localHashname t' = localHashname t ->
                 map peers (buckets t') = map peers (buckets t) ->
                 findKey maxCap t' key n = Some out) /\
     StronglySorted (nearer key) out /\
     exists rest,
       spec_walk t i r ≡ₚ out ++ rest /\
       (forall x y, x ∈ out -> y ∈ rest -> nearer key x y)).
Proof.
  intros Hn width i.
  assert (Hw : 0 <= width < 2 ^ 63).
  { unfold width, defaultLookupSize. destruct (n =? 0); lia. }
  split.
  { intros Hno. rewrite (findKey_cases maxCap t key n Hn). fold width.
    rewrite (make_refused maxCap width Hw Hno). reflexivity. }
  intros Hint Hcap.
  pose proof (findKey_eq maxCap t key n Hn Hint Hcap) as Heq.
  pose proof (fun t' => findKey_eq maxCap t' key n Hn Hint Hcap) as Heq'.
  pose proof (findKey_gather_from_peers t key width) as Hfrom.
  pose proof (fun t' => findKey_gather_same_peers t t' key width) as Hsame.
  destruct (findKey_gather_spec t key width) as (r & Hstop & Hnames).
  fold i in Hstop, Hnames. rewrite (int_of_uint_small width Hw) in Hstop.
  cbv zeta in Heq, Heq'. fold width in Heq, Heq'.
  pose proof (nearest_taken_length key (findKey_gather t key width)
                (Z.to_nat width)) as Hcount.
  generalize dependent (findKey_gather t key width).
  intros G Heq Hfrom Hsame Hnames Hcount.
  destruct (nearest_taken key G (Z.to_nat width) _ eq_refl)
    as (_ & Hin & Hsorted & rest & Hperm & Hnear & _).
  eexists. exists r. split; [exact Heq|].
  split; [exact Hstop|].
  split.
  { rewrite Hcount, <- Hnames, length_map. lia. }
  split.
  { intros h Hh. destruct (Hin h Hh) as (g & Hg & ->).
    rewrite Forall_forall in Hfrom.
    destruct (Hfrom g Hg) as (b & ap & Hb & Hap & ->).
    exists b. split; [exact Hb|].
    unfold peer_names. apply list_elem_of_fmap.
    exists ap. split; [reflexivity|exact Hap]. }
  split.
  { intros t' Hl Hp. rewrite Heq', (Hsame t' Hl Hp). reflexivity. }
  split; [exact Hsorted|].
  exists rest. split; [rewrite <- Hnames; exact Hperm|exact Hnear].
Qed.

Lemma findKey_correct_witness :
  let maxCap := 2 ^ 32 in
  findKey maxCap sample_table 4 (2 ^ 63 - 1) = None /\
  exists out r,
    findKey maxCap sample_table 4 2 = Some out /\
    spec_walk_stops sample_table 253 2 r /\
    Z.of_nat (length out) =
      Z.min 2 (Z.of_nat (length (spec_walk sample_table 253 r))) /\
    StronglySorted (nearer 4) out.
Proof.
  intros maxCap. split.
  - apply (proj1 (findKey_correct maxCap sample_table 4 (2 ^ 63 - 1)
                    ltac:(lia))).
    left. vm_compute. discriminate.
  - destruct (proj2 (findKey_correct maxCap sample_table 4 2 ltac:(lia)))
      as (out & r & H1 & H2 & H3 & _ & _ & H6 & _).
    + vm_compute. reflexivity.
    + vm_compute. discriminate.
    + exists out, r. split; [exact H1|]. split; [exact H2|].
      split; [exact H3|exact H6].
Defined.

(** The lookup is subject to the walk: with active peers 1, 2 and 5 around
    the local hashname 0, the two peers gathered for key 4 are 5 and 2,
    although peer 1 is nearer to the key than peer 2. *)
Example findKey_sample :
  findKey (2 ^ 32) sample_table 4 2 = Some [5; 2] /\
  keyDistance 1 4 < keyDistance 2 4.
Proof. split; vm_compute; reflexivity. Qed.

(** **** activatePeer and the candidate list *)

Lemma set_bucket_candidates t idx b i :
  candidates b = candidates (bucket_at t idx) ->
  candidates (bucket_at (set_bucket t idx b) i) = candidates (bucket_at t i).
Proof.
  intros Hb. unfold bucket_at, set_bucket. simpl.
  rewrite list_lookup_total_insert.
  destruct (decide _) as [[E _]|_]; [|reflexivity].
  rewrite <- E. exact Hb.
Qed.

(** [activatePeer] never edits a candidate list. *)
Lemma activatePeer_candidates t hn tg i :
  candidates (bucket_at (fst (activatePeer t hn tg)) i) =
  candidates (bucket_at t i).
Proof.
  unfold activatePeer.
  destruct (_ <? 0); [reflexivity|]. simpl.
  destruct (swap_tag _ _ _) as [[ps old]|]; simpl.
  - apply set_bucket_candidates. reflexivity.
  - match goal with |- context [if ?c then _ else _] => destruct c end;
      simpl; apply set_bucket_candidates; reflexivity.
Qed.

(** Two distinct 256-bit hashnames are at a distance that falls in one of
    the 256 buckets. *)
Lemma bucket_index_range local hn :
  0 <= local < 2 ^ 256 -> 0 <= hn < 2 ^ 256 -> local <> hn ->
  0 <= bucketFromDistance (distance local hn) < numBuckets.
Proof.
  intros Hl Hh Hne. unfold bucketFromDistance, distance.
  destruct (Z.eqb_spec (Z.lxor local hn) 0) as [E|_].
  { apply Z.lxor_eq in E. contradiction. }
  assert (Hlog : forall a, 0 <= a < 2 ^ 256 -> Z.log2 a <= 255).
  { intros a Ha. destruct (Z.eq_dec a 0) as [->|Hnz]; [simpl; lia|].
    assert (Z.log2 a < 256) by (apply Z.log2_lt_pow2; lia). lia. }
  pose proof (Z.log2_lxor local hn ltac:(lia) ltac:(lia)) as Hx.
  pose proof (Hlog local Hl). pose proof (Hlog hn Hh).
  pose proof (Z.log2_nonneg (Z.lxor local hn)).
  change numBuckets with 256. lia.
Qed.

Lemma init_length local : length (buckets (init local)) = 256%nat.
Proof. reflexivity. Qed.

Lemma bucket_at_init local idx :
  0 <= idx < numBuckets -> bucket_at (init local) idx = Bucket idx [] [] [].
Proof.
  intros Hi. unfold bucket_at, init. cbn [buckets].
  change (map ?f ?l) with (f <$> l).
  rewrite list_lookup_total_alt, list_lookup_fmap.
  rewrite lookup_seq_lt by (change numBuckets with 256 in *; lia).
  simpl. rewrite Z2Nat.id by lia. reflexivity.
Qed.

Lemma bucket_at_set_bucket t idx b :
  (Z.to_nat idx < length (buckets t))%nat ->
  bucket_at (set_bucket t idx b) idx = b.
Proof.
  intros Hi. unfold bucket_at, set_bucket. cbn [buckets].
  apply list_lookup_total_insert_eq. exact Hi.
Qed.

Lemma set_bucket_length t idx b :
  length (buckets (set_bucket t idx b)) = length (buckets t).
Proof. unfold set_bucket. cbn [buckets]. apply length_insert. Qed.

(** From the empty table, a hashname that is learnt as a candidate and
    then activated is held in both lists of its bucket. *)
Lemma promoted_candidate_stays local hn router tg :
  0 <= local < 2 ^ 256 -> 0 <= hn < 2 ^ 256 -> local <> hn ->
  let t := run_ops (init local) [OpAddCandidate hn router; OpActivatePeer hn tg] in
  let b := bucket_at t (bucketFromDistance (distance local hn)) in
  peer_names b = [hn] /\ candidate_names b = [hn].
Proof.
  intros Hl Hh Hne.
  pose proof (bucket_index_range local hn Hl Hh Hne) as Hi.
  set (idx := bucketFromDistance (distance local hn)) in *.
  assert (Hnat : (Z.to_nat idx < 256)%nat) by (change numBuckets with 256 in Hi; lia).
  unfold run_ops. simpl fold_left. unfold apply_op.
  assert (Ht1 : addCandidate (init local) hn router =
                set_bucket (init local) idx
                  (Bucket idx [] [CandidatePeer (PeerInfo idx (distance local hn) hn) [router]] [])).
  { unfold addCandidate. change (localHashname (init local)) with local. fold idx.
    destruct (Z.ltb_spec idx 0); [lia|].
    rewrite (bucket_at_init local idx Hi). reflexivity. }
  rewrite Ht1. unfold activatePeer.
  change (localHashname (set_bucket (init local) idx ?b)) with local. fold idx.
  destruct (Z.ltb_spec idx 0); [lia|].
  rewrite bucket_at_set_bucket by (rewrite init_length; exact Hnat).
  simpl. rewrite bucket_at_set_bucket
    by (rewrite set_bucket_length, init_length; exact Hnat).
  split; reflexivity.
Qed.

(** C1 (exclusivity).  [activatePeer] leaves the candidate list of every
    bucket as it was, so a hashname that is promoted while it is held in
    [candidates] is in [peers] and in [candidates] afterwards: from the
    empty table of any node, [addCandidate(hn, router)] followed by
    [activatePeer(hn, tag)] leaves [hn] in both lists of its bucket.  For
    node 0 and hashname 1 this is bucket 255, and a following
    [nextCandidate] moves the hashname to [pending] while it is active. *)
Theorem activatePeer_keeps_candidate :
  (forall t hn tg i,
     candidates (bucket_at (fst (activatePeer t hn tg)) i) =
     candidates (bucket_at t i)) /\
  (forall local hn router tg,
     0 <= local < 2 ^ 256 -> 0 <= hn < 2 ^ 256 -> local <> hn ->
     let t := run_ops (init local)
                [OpAddCandidate hn router; OpActivatePeer hn tg] in
     let b := bucket_at t (bucketFromDistance (distance local hn)) in
     peer_names b = [hn] /\ candidate_names b = [hn]) /\
  (let t := run_ops (init 0) [OpAddCandidate 1 2; OpActivatePeer 1 7] in
   peer_names (bucket_at t 255) = [1] /\
   candidate_names (bucket_at t 255) = [1] /\
   pending_names (bucket_at t 255) = []) /\
  (let t := run_ops (init 0)
              [OpAddCandidate 1 2; OpActivatePeer 1 7; OpNextCandidate] in
   peer_names (bucket_at t 255) = [1] /\
   candidate_names (bucket_at t 255) = [] /\
   pending_names (bucket_at t 255) = [1]).
Proof.
  split; [exact activatePeer_candidates|].
  split; [exact promoted_candidate_stays|].
  split; vm_compute; repeat split.
Qed.

Lemma activatePeer_keeps_candidate_witness :
  let t := run_ops (init 4) [OpAddCandidate 6 9; OpActivatePeer 6 1] in
  peer_names (bucket_at t 254) = [6] /\ candidate_names (bucket_at t 254) = [6].
Proof.
  destruct activatePeer_keeps_candidate as (_ & Hgen & _).
  apply (Hgen 4 6 9 1%nat); [lia|lia|discriminate].
Defined.

(** **** The router merge of addCandidate *)

Lemma add_router_loop_eq router range_ rs :
  add_router_loop router range_ rs =
  rs ++ List.filter (fun r => negb (r =? router)) range_.
Proof.
  revert rs. induction range_ as [|r range_ IH]; intros rs; simpl.
  - rewrite app_nil_r. reflexivity.
  - rewrite IH. destruct (negb (r =? router)); [|reflexivity].
    rewrite <- app_assoc. reflexivity.
Qed.

Lemma merge_router_eq router rs :
  merge_router router rs =
  take maxRoutersPerCandidate
    (rs ++ List.filter (fun r => negb (r =? router)) rs).
Proof.
  unfold merge_router. rewrite add_router_loop_eq.
  destruct (Nat.ltb_spec maxRoutersPerCandidate
              (length (rs ++ List.filter (fun r => negb (r =? router)) rs)));
    [reflexivity|].
  rewrite take_ge by lia. reflexivity.
Qed.

(** The merge never lists a router that was not listed before. *)
Lemma merge_router_no_new router rs r :
  r ∈ merge_router router rs -> r ∈ rs.
Proof.
  rewrite merge_router_eq. intros Hr.
  apply (subseteq_take maxRoutersPerCandidate) in Hr.
  apply elem_of_app in Hr as [Hr|Hr]; [exact Hr|].
  apply list_elem_of_In, filter_In in Hr as [Hr _].
  apply list_elem_of_In. exact Hr.
Qed.

(** C3 (router merge).  For a hashname that is already a candidate,
    [addCandidate] replaces the router list [rs] by the first five entries
    of [rs] followed by the entries of [rs] other than the new router: the
    new router is never added.  From the empty table of node 0,
    [addCandidate(1, 2)] followed by [addCandidate(1, 3)] leaves candidate
    1 with the routers [2; 2], where the specification asks for [2; 3]. *)
Theorem addCandidate_router_merge :
  (forall router rs,
     merge_router router rs =
     take maxRoutersPerCandidate
       (rs ++ List.filter (fun r => negb (r =? router)) rs)) /\
  (forall router rs, ~ router ∈ rs -> ~ router ∈ merge_router router rs) /\
  (let t := run_ops (init 0) [OpAddCandidate 1 2; OpAddCandidate 1 3] in
   map routers (candidates (bucket_at t 255)) = [[2; 2]]) /\
  merge_router 3 [2] = [2; 2] /\
  merge_router_intended 3 [2] = [2; 3].
Proof.
  split; [exact merge_router_eq|].
  split; [intros router rs Hn Hr; apply Hn, (merge_router_no_new router rs _ Hr)|].
  repeat split.
Qed.

Lemma addCandidate_router_merge_witness : ~ 3 ∈ merge_router 3 [2].
Proof.
  destruct addCandidate_router_merge as (_ & Hnew & _).
  apply Hnew. intros Hin. apply list_elem_of_In in Hin.
  destruct Hin as [E|[]]. discriminate E.
Defined.

End KademliaFacts.

(** *** The table under sequences of operations *)
Module TableFacts.
Import Kademlia.
Import KademliaFacts.

(** **** The list loops *)

Lemma remove_candidate_names_sublist hn l :
  map cp_hashname (remove_candidate hn l) `sublist_of` map cp_hashname l.
Proof.
  induction l as [|c l IH]; simpl; [constructor|].
  destruct (cp_hashname c =? hn); simpl.
  - apply sublist_cons. reflexivity.
  - apply sublist_skip. exact IH.
Qed.

Lemma remove_candidate_sublist hn l : remove_candidate hn l `sublist_of` l.
Proof.
  induction l as [|c l IH]; simpl; [constructor|].
  destruct (cp_hashname c =? hn).
  - apply sublist_cons. reflexivity.
  - apply sublist_skip. exact IH.
Qed.

Lemma remove_candidate_gone hn l :
  NoDup (map cp_hashname l) -> hn ∉ map cp_hashname (remove_candidate hn l).
Proof.
  induction l as [|c l IH]; simpl; intros Hnd; [apply not_elem_of_nil|].
  apply NoDup_cons in Hnd as [Hc Hnd].
  destruct (Z.eqb_spec (cp_hashname c) hn) as [<-|Hne]; [exact Hc|].
  simpl. apply not_elem_of_cons. split; [congruence|apply IH, Hnd].
Qed.

Lemma remove_candidate_other hn l h :
  h <> hn ->
  h ∈ map cp_hashname (remove_candidate hn l) <-> h ∈ map cp_hashname l.
Proof.
  intros Hne. induction l as [|c l IH]; simpl; [reflexivity|].
  destruct (Z.eqb_spec (cp_hashname c) hn) as [E|_]; simpl.
  - rewrite elem_of_cons. split; [auto|]. intros [->|H]; [congruence|exact H].
  - rewrite !elem_of_cons, IH. reflexivity.
Qed.

Lemma remove_peer_names_sublist hn l :
  map ap_hashname (fst (remove_peer hn l)) `sublist_of` map ap_hashname l.
Proof.
  induction l as [|p l IH]; simpl; [constructor|].
  destruct (ap_hashname p =? hn); simpl.
  - apply sublist_cons. reflexivity.
  - destruct (remove_peer hn l) as [l' rel]. simpl in *.
    apply sublist_skip. exact IH.
Qed.

Lemma remove_peer_gone hn l :
  NoDup (map ap_hashname l) -> hn ∉ map ap_hashname (fst (remove_peer hn l)).
Proof.
  induction l as [|p l IH]; simpl; intros Hnd; [apply not_elem_of_nil|].
  apply NoDup_cons in Hnd as [Hp Hnd].
  destruct (Z.eqb_spec (ap_hashname p) hn) as [<-|Hne]; [exact Hp|].
  specialize (IH Hnd). destruct (remove_peer hn l) as [l' rel]. simpl in *.
  apply not_elem_of_cons. split; [congruence|exact IH].
Qed.

Lemma remove_peer_other hn l h :
  h <> hn ->
  h ∈ map ap_hashname (fst (remove_peer hn l)) <-> h ∈ map ap_hashname l.
Proof.
  intros Hne. induction l as [|p l IH]; simpl; [reflexivity|].
  destruct (Z.eqb_spec (ap_hashname p) hn) as [E|_]; simpl.
  - rewrite elem_of_cons. split; [auto|]. intros [->|H]; [congruence|exact H].
  - destruct (remove_peer hn l) as [l' rel]. simpl in *.
    rewrite !elem_of_cons, IH. reflexivity.
Qed.

(** The tags of the list are those kept and the one released. *)
Lemma remove_peer_tags hn l :
  map tag (fst (remove_peer hn l)) ++ snd (remove_peer hn l) ≡ₚ map tag l.
Proof.
  induction l as [|p l IH]; simpl; [reflexivity|].
  destruct (ap_hashname p =? hn); simpl.
  - rewrite Permutation_app_comm. reflexivity.
  - destruct (remove_peer hn l) as [l' rel]. simpl in *. rewrite IH. reflexivity.
Qed.

Lemma swap_tag_Some hn tg l ps old :
  swap_tag hn tg l = Some (ps, old) ->
  map ap_hashname ps = map ap_hashname l /\
  hn ∈ map ap_hashname l /\
  old :: map tag ps ≡ₚ tg :: map tag l /\
  (forall p, p ∈ ps -> ap_hashname p = hn -> NoDup (map ap_hashname l) -> tag p = tg).
Proof.
  revert ps old. induction l as [|p l IH]; intros ps old; simpl; [discriminate|].
  destruct (Z.eqb_spec (ap_hashname p) hn) as [E|Hne].
  - intros [= <- <-]. simpl. split; [reflexivity|].
    split; [rewrite E; apply list_elem_of_here|].
    split; [apply perm_swap|].
    intros q Hq Hqn Hnd. apply NoDup_cons in Hnd as [Hp _].
    apply elem_of_cons in Hq as [->|Hq]; [reflexivity|].
    exfalso. apply Hp. rewrite E, <- Hqn.
    apply list_elem_of_fmap_2. exact Hq.
  - destruct (swap_tag hn tg l) as [[l' old']|] eqn:Hs; [|discriminate].
    intros [= <- <-]. destruct (IH l' old' eq_refl) as (Hn & Hin & Htags & Htag).
    simpl. split; [rewrite Hn; reflexivity|].
    split; [apply list_elem_of_further; exact Hin|].
    split.
    + rewrite perm_swap, Htags. apply perm_swap.
    + intros q Hq Hqn Hnd. apply NoDup_cons in Hnd as [_ Hnd].
      apply elem_of_cons in Hq as [->|Hq]; [congruence|].
      apply Htag; assumption.
Qed.

Lemma swap_tag_None hn tg l :
  swap_tag hn tg l = None -> hn ∉ map ap_hashname l.
Proof.
  induction l as [|p l IH]; simpl; [intros _; apply not_elem_of_nil|].
  destruct (Z.eqb_spec (ap_hashname p) hn) as [E|Hne]; [discriminate|].
  destruct (swap_tag hn tg l) as [[l' old']|]; [discriminate|].
  intros _. apply not_elem_of_cons. split; [congruence|apply IH; reflexivity].
Qed.

Lemma merge_router_length router rs :
  (length (merge_router router rs) <= maxRoutersPerCandidate)%nat.
Proof.
  unfold merge_router.
  destruct (Nat.ltb_spec maxRoutersPerCandidate
              (length (add_router_loop router rs rs))); [|lia].
  rewrite length_take. lia.
Qed.

Lemma update_candidate_Some hn router l cs :
  update_candidate hn router l = Some cs ->
  map cp_hashname cs = map cp_hashname l /\
  length cs = length l /\
  (Forall (fun c => (length (routers c) <= maxRoutersPerCandidate)%nat) l ->
   Forall (fun c => (length (routers c) <= maxRoutersPerCandidate)%nat) cs).
Proof.
  revert cs. induction l as [|c l IH]; intros cs; simpl; [discriminate|].
  destruct (cp_hashname c =? hn).
  - intros [= <-]. simpl. split; [reflexivity|]. split; [reflexivity|].
    intros Hall. apply Forall_cons in Hall as [_ Hall].
    constructor; [apply merge_router_length|exact Hall].
  - destruct (update_candidate hn router l) as [l'|]; [|discriminate].
    intros [= <-]. destruct (IH l' eq_refl) as (Hn & Hlen & Hall).
    simpl. split; [rewrite Hn; reflexivity|]. split; [rewrite Hlen; reflexivity|].
    intros H. apply Forall_cons in H as [Hc H].
    constructor; [exact Hc|apply Hall, H].
Qed.

Lemma update_candidate_None hn router l :
  update_candidate hn router l = None -> hn ∉ map cp_hashname l.
Proof.
  induction l as [|c l IH]; simpl; [intros _; apply not_elem_of_nil|].
  destruct (Z.eqb_spec (cp_hashname c) hn) as [E|Hne]; [discriminate|].
  destruct (update_candidate hn router l); [discriminate|].
  intros _. apply not_elem_of_cons. split; [congruence|apply IH; reflexivity].
Qed.

Lemma existsb_names {A} (name : A -> hashname) hn (l : list A) :
  existsb (fun x => name x =? hn) l = false -> hn ∉ map name l.
Proof.
  induction l as [|x l IH]; simpl; [intros _; apply not_elem_of_nil|].
  destruct (Z.eqb_spec (name x) hn) as [E|Hne]; [discriminate|].
  simpl. intros H. apply not_elem_of_cons. split; [congruence|apply IH, H].
Qed.

(** **** Buckets *)

Lemma Forall_sublist_of {A} (P : A -> Prop) l1 l2 :
  Forall P l2 -> l1 `sublist_of` l2 -> Forall P l1.
Proof.
  rewrite !Forall_forall. intros H Hs x Hx. apply H.
  exact (elem_of_sublist _ _ _ Hx Hs).
Qed.

Lemma names_sublist {A} (name : A -> hashname) l1 l2 :
  l1 `sublist_of` l2 -> map name l1 `sublist_of` map name l2.
Proof.
  induction 1; simpl; [constructor|apply sublist_skip|apply sublist_cons];
    assumption.
Qed.

(** A bucket whose lists are sublists of those of a good bucket is good. *)
Lemma bucket_ok_sublists local b b' :
  bucket_ok local b ->
  bucket_id b' = bucket_id b ->
  peers b' `sublist_of` peers b ->
  candidates b' `sublist_of` candidates b ->
  pending b' `sublist_of` pending b ->
  bucket_ok local b'.
Proof.
  intros (Hp & Hc & Hr & Hnp & Hnc & Hpl) Hid Sp Sc Spd.
  unfold bucket_ok, stored_names, peer_names, candidate_names, pending_names in *.
  pose proof (names_sublist ap_hashname _ _ Sp) as Np.
  pose proof (names_sublist cp_hashname _ _ Sc) as Nc.
  pose proof (names_sublist cp_hashname _ _ Spd) as Npd.
  split; [pose proof (sublist_length _ _ Sp); lia|].
  split; [pose proof (sublist_length _ _ Sc); lia|].
  split; [exact (Forall_sublist_of _ _ _ Hr (sublist_app _ _ _ _ Sc Spd))|].
  split; [exact (sublist_NoDup _ _ Hnp Np)|].
  split; [exact (sublist_NoDup _ _ Hnc (sublist_app _ _ _ _ Nc Npd))|].
  rewrite Hid.
  exact (Forall_sublist_of _ _ _ Hpl
           (sublist_app _ _ _ _ Np (sublist_app _ _ _ _ Nc Npd))).
Qed.

Lemma remove_peer_sublist hn l : fst (remove_peer hn l) `sublist_of` l.
Proof.
  induction l as [|p l IH]; simpl; [constructor|].
  destruct (ap_hashname p =? hn); simpl.
  - apply sublist_cons. reflexivity.
  - destruct (remove_peer hn l) as [l' rel]. simpl in *.
    apply sublist_skip. exact IH.
Qed.

Lemma bucket_ok_swap local b hn tg ps old :
  bucket_ok local b ->
  swap_tag hn tg (peers b) = Some (ps, old) ->
  bucket_ok local (Bucket (bucket_id b) ps (candidates b) (pending b)).
Proof.
  intros (Hp & Hc & Hr & Hnp & Hnc & Hpl) Hs.
  destruct (swap_tag_Some _ _ _ _ _ Hs) as (Hn & _ & _ & _).
  unfold bucket_ok, stored_names, peer_names, candidate_names, pending_names in *.
  simpl. rewrite Hn.
  assert (length ps = length (peers b))
    by (rewrite <- (length_map ap_hashname ps), Hn; apply length_map).
  repeat split; try assumption. lia.
Qed.

Lemma bucket_ok_add_peer local b hn tg pi :
  bucket_ok local b ->
  hn ∉ peer_names b ->
  (length (peers b) < maxPeers)%nat ->
  pi_hashname pi = hn ->
  bucketFromDistance (distance local hn) = bucket_id b ->
  bucket_ok local
    (Bucket (bucket_id b) (peers b ++ [ActivePeer pi tg]) (candidates b)
       (pending b)).
Proof.
  intros (Hp & Hc & Hr & Hnp & Hnc & Hpl) Hnew Hlen Hpi Hb.
  unfold bucket_ok, stored_names, peer_names, candidate_names, pending_names in *.
  simpl. rewrite map_app. simpl. unfold ap_hashname at 2 4. simpl. rewrite Hpi.
  split; [rewrite length_app; simpl; lia|].
  split; [exact Hc|]. split; [exact Hr|].
  split.
  { apply NoDup_app. split; [exact Hnp|]. split; [|apply NoDup_singleton].
    intros x Hx Hx'. apply list_elem_of_singleton in Hx'. subst x. contradiction. }
  split; [exact Hnc|].
  rewrite <- app_assoc. apply Forall_app in Hpl as [H1 H2].
  apply Forall_app. split; [exact H1|]. constructor; assumption.
Qed.

Lemma bucket_ok_update local b hn router cs :
  bucket_ok local b ->
  update_candidate hn router (candidates b) = Some cs ->
  bucket_ok local (Bucket (bucket_id b) (peers b) cs (pending b)).
Proof.
  intros (Hp & Hc & Hr & Hnp & Hnc & Hpl) Hu.
  destruct (update_candidate_Some _ _ _ _ Hu) as (Hn & Hlen & Hall).
  unfold bucket_ok, stored_names, peer_names, candidate_names, pending_names in *.
  simpl. rewrite Hn, Hlen.
  apply Forall_app in Hr as [Hr1 Hr2].
  repeat split; try assumption.
  apply Forall_app. split; [apply Hall, Hr1|exact Hr2].
Qed.

Lemma bucket_ok_add_candidate local b hn router pi :
  bucket_ok local b ->
  hn ∉ candidate_names b -> hn ∉ pending_names b ->
  (length (candidates b) < maxCandidates)%nat ->
  pi_hashname pi = hn ->
  bucketFromDistance (distance local hn) = bucket_id b ->
  bucket_ok local
    (Bucket (bucket_id b) (peers b)
       (candidates b ++ [CandidatePeer pi [router]]) (pending b)).
Proof.
  intros (Hp & Hc & Hr & Hnp & Hnc & Hpl) Hn1 Hn2 Hlen Hpi Hb.
  unfold bucket_ok, stored_names, peer_names, candidate_names, pending_names in *.
  simpl. rewrite map_app. simpl. unfold cp_hashname at 2 5. simpl. rewrite Hpi.
  split; [exact Hp|]. split; [rewrite length_app; simpl; lia|].
  apply Forall_app in Hr as [Hr1 Hr2].
  split.
  { rewrite <- app_assoc. apply Forall_app. split; [exact Hr1|].
    constructor; [simpl; unfold maxRoutersPerCandidate; lia|exact Hr2]. }
  split; [exact Hnp|].
  apply NoDup_app in Hnc as (Hc1 & Hdis & Hc2).
  split.
  { rewrite <- app_assoc. apply NoDup_app. split; [exact Hc1|]. split.
    - intros x Hx Hx'. apply elem_of_cons in Hx' as [->|Hx'];
        [contradiction|exact (Hdis x Hx Hx')].
    - simpl. apply NoDup_cons. split; assumption. }
  apply Forall_app in Hpl as [H1 H2]. apply Forall_app in H2 as [H2 H3].
  apply Forall_app. split; [exact H1|].
  rewrite <- app_assoc. apply Forall_app. split; [exact H2|].
  constructor; assumption.
Qed.

Lemma bucket_ok_promote local b c cs :
  bucket_ok local b ->
  candidates b = c :: cs ->
  bucket_ok local (Bucket (bucket_id b) (peers b) cs (pending b ++ [c])).
Proof.
  intros (Hp & Hc & Hr & Hnp & Hnc & Hpl) Hcs.
  unfold bucket_ok, stored_names, peer_names, candidate_names, pending_names in *.
  rewrite Hcs in *. simpl in *.
  assert (Hperm : forall {A} (x : A) l1 l2, l1 ++ l2 ++ [x] ≡ₚ x :: l1 ++ l2).
  { intros A x l1 l2. rewrite app_assoc, Permutation_app_comm. reflexivity. }
  split; [exact Hp|]. split; [lia|].
  split; [rewrite Hperm; exact Hr|].
  split; [exact Hnp|].
  split; [rewrite map_app; simpl; rewrite Hperm; exact Hnc|].
  apply Forall_app in Hpl as [H1 H2].
  apply Forall_app. split; [exact H1|].
  rewrite map_app. simpl. rewrite Hperm. exact H2.
Qed.

(** **** Tables *)

Lemma bucketFromDistance_lt d : bucketFromDistance d < numBuckets.
Proof.
  unfold bucketFromDistance. change numBuckets with 256.
  destruct (d =? 0); [lia|]. pose proof (Z.log2_nonneg d). lia.
Qed.

Lemma bucketFromDistance_self local : bucketFromDistance (distance local local) = -1.
Proof. unfold bucketFromDistance, distance. rewrite Z.lxor_nilpotent. reflexivity. Qed.

Lemma bucketFromDistance_stored local hn :
  0 <= bucketFromDistance (distance local hn) -> hn <> local.
Proof. intros H ->. rewrite bucketFromDistance_self in H. lia. Qed.

Lemma table_ok_length t :
  table_ok t -> length (buckets t) = Z.to_nat numBuckets.
Proof.
  intros [Hid _]. apply (f_equal length) in Hid.
  rewrite !length_map, length_seq in Hid. exact Hid.
Qed.

Lemma table_ok_lookup t i b :
  table_ok t -> buckets t !! i = Some b ->
  bucket_id b = Z.of_nat i /\ bucket_ok (localHashname t) b /\
  (i < Z.to_nat numBuckets)%nat.
Proof.
  intros Hok Hb. pose proof (table_ok_length t Hok) as Hlen.
  destruct Hok as [Hid Hall].
  assert (Hi : (i < Z.to_nat numBuckets)%nat)
    by (rewrite <- Hlen; eapply lookup_lt_Some; exact Hb).
  split; [|split; [|exact Hi]].
  - assert (E : map bucket_id (buckets t) !! i = Some (bucket_id b)).
    { change (map bucket_id) with (fmap (M:=list) bucket_id).
      rewrite list_lookup_fmap, Hb. reflexivity. }
    rewrite Hid in E. change (map Z.of_nat) with (fmap (M:=list) Z.of_nat) in E.
    rewrite list_lookup_fmap, lookup_seq_lt in E by exact Hi.
    simpl in E. congruence.
  - rewrite Forall_forall in Hall. apply Hall.
    apply list_elem_of_lookup. eauto.
Qed.

Lemma table_ok_bucket_at t idx :
  table_ok t -> 0 <= idx < numBuckets ->
  buckets t !! Z.to_nat idx = Some (bucket_at t idx) /\
  bucket_id (bucket_at t idx) = idx /\
  bucket_ok (localHashname t) (bucket_at t idx).
Proof.
  intros Hok Hi. pose proof (table_ok_length t Hok) as Hlen.
  destruct (lookup_lt_is_Some_2 (buckets t) (Z.to_nat idx)) as [b Hb]; [lia|].
  assert (E : bucket_at t idx = b)
    by (unfold bucket_at; apply list_lookup_total_correct; exact Hb).
  rewrite E. destruct (table_ok_lookup t _ b Hok Hb) as (Hid & Hbok & _).
  split; [exact Hb|]. split; [lia|exact Hbok].
Qed.

Lemma table_ok_set_bucket t idx b :
  table_ok t -> 0 <= idx < numBuckets ->
  bucket_id b = idx -> bucket_ok (localHashname t) b ->
  table_ok (set_bucket t idx b).
Proof.
  intros Hok Hi Hid Hb. pose proof (table_ok_length t Hok) as Hlen.
  destruct Hok as [Hids Hall]. unfold table_ok, set_bucket. cbn [buckets localHashname].
  split; [|apply Forall_insert; assumption].
  change (map bucket_id) with (fmap (M:=list) bucket_id) in *.
  rewrite list_fmap_insert, Hids. apply list_insert_id.
  change (map Z.of_nat) with (fmap (M:=list) Z.of_nat).
  rewrite list_lookup_fmap, lookup_seq_lt by lia. simpl. f_equal. lia.
Qed.

Lemma table_ok_init local : table_ok (init local).
Proof.
  unfold table_ok, init. cbn [buckets localHashname]. split.
  - rewrite map_map. reflexivity.
  - apply Forall_forall. intros b Hb.
    apply list_elem_of_fmap in Hb as (i & -> & _).
    unfold bucket_ok, stored_names, peer_names, candidate_names, pending_names.
    simpl. repeat split; try constructor; try lia;
      unfold maxPeers, maxCandidates; lia.
Qed.

(** **** The operations keep the table well formed *)

Lemma activatePeer_local t hn tg :
  localHashname (fst (activatePeer t hn tg)) = localHashname t.
Proof.
  unfold activatePeer. destruct (_ <? 0); [reflexivity|].
  cbv zeta. cbn [peers candidates pending bucket_id].
  destruct (swap_tag _ _ _) as [[ps old]|]; [reflexivity|].
  destruct (_ <=? _)%nat; reflexivity.
Qed.

Lemma activatePeer_ok t hn tg :
  table_ok t -> table_ok (fst (activatePeer t hn tg)).
Proof.
  intros Hok. unfold activatePeer.
  set (idx := bucketFromDistance (distance (localHashname t) hn)).
  destruct (Z.ltb_spec idx 0) as [|Hge]; [exact Hok|].
  assert (Hi : 0 <= idx < numBuckets)
    by (split; [exact Hge|apply bucketFromDistance_lt]).
  destruct (table_ok_bucket_at t idx Hok Hi) as (_ & Hid & Hb).
  cbv zeta. cbn [peers candidates pending bucket_id].
  set (b := bucket_at t idx) in *.
  assert (Hb1 : bucket_ok (localHashname t)
                  (Bucket (bucket_id b) (peers b) (candidates b)
                     (remove_candidate hn (pending b)))).
  { apply (bucket_ok_sublists _ b); [exact Hb|reflexivity..|].
    apply remove_candidate_sublist. }
  destruct (swap_tag hn tg (peers b)) as [[ps old]|] eqn:Hs.
  - apply table_ok_set_bucket; [exact Hok|exact Hi|exact Hid|].
    exact (bucket_ok_swap _ _ hn tg ps old Hb1 Hs).
  - destruct (Nat.leb_spec maxPeers (length (peers b))) as [|Hlt].
    + apply table_ok_set_bucket; [exact Hok|exact Hi|exact Hid|exact Hb1].
    + apply table_ok_set_bucket; [exact Hok|exact Hi|exact Hid|].
      apply (bucket_ok_add_peer _ _ hn tg _ Hb1);
        [exact (swap_tag_None _ _ _ Hs)|exact Hlt|reflexivity|].
      simpl. rewrite Hid. reflexivity.
Qed.

Lemma deactivatePeer_local t hn :
  localHashname (fst (deactivatePeer t hn)) = localHashname t.
Proof.
  unfold deactivatePeer. destruct (_ <? 0); [reflexivity|].
  cbv zeta. destruct (remove_peer _ _). reflexivity.
Qed.

Lemma deactivatePeer_ok t hn :
  table_ok t -> table_ok (fst (deactivatePeer t hn)).
Proof.
  intros Hok. unfold deactivatePeer.
  set (idx := bucketFromDistance (distance (localHashname t) hn)).
  destruct (Z.ltb_spec idx 0) as [|Hge]; [exact Hok|].
  assert (Hi : 0 <= idx < numBuckets)
    by (split; [exact Hge|apply bucketFromDistance_lt]).
  destruct (table_ok_bucket_at t idx Hok Hi) as (_ & Hid & Hb).
  cbv zeta. set (b := bucket_at t idx) in *.
  pose proof (remove_peer_sublist hn (peers b)) as Hs.
  destruct (remove_peer hn (peers b)) as [ps rel]. cbn [fst] in *.
  apply table_ok_set_bucket; [exact Hok|exact Hi|exact Hid|].
  apply (bucket_ok_sublists _ b); [exact Hb|reflexivity|exact Hs|..];
    apply remove_candidate_sublist.
Qed.

Lemma addCandidate_local t hn router :
  localHashname (addCandidate t hn router) = localHashname t.
Proof.
  unfold addCandidate. destruct (_ <? 0); [reflexivity|]. cbv zeta.
  destruct (existsb _ _); [reflexivity|].
  destruct (existsb _ _); [reflexivity|].
  destruct (update_candidate _ _ _); [reflexivity|].
  destruct (_ <? _)%nat; reflexivity.
Qed.

Lemma addCandidate_ok t hn router :
  table_ok t -> table_ok (addCandidate t hn router).
Proof.
  intros Hok. unfold addCandidate.
  set (idx := bucketFromDistance (distance (localHashname t) hn)).
  destruct (Z.ltb_spec idx 0) as [|Hge]; [exact Hok|].
  assert (Hi : 0 <= idx < numBuckets)
    by (split; [exact Hge|apply bucketFromDistance_lt]).
  destruct (table_ok_bucket_at t idx Hok Hi) as (_ & Hid & Hb).
  cbv zeta. set (b := bucket_at t idx) in *.
  destruct (existsb _ (peers b)); [exact Hok|].
  destruct (existsb _ (pending b)) eqn:Hpend; [exact Hok|].
  destruct (update_candidate hn router (candidates b)) as [cs|] eqn:Hu.
  - apply table_ok_set_bucket; [exact Hok|exact Hi|exact Hid|].
    exact (bucket_ok_update _ _ _ _ _ Hb Hu).
  - destruct (Nat.ltb_spec (length (candidates b)) maxCandidates) as [Hlt|];
      [|exact Hok].
    apply table_ok_set_bucket; [exact Hok|exact Hi|exact Hid|].
    apply (bucket_ok_add_candidate _ _ hn);
      [exact Hb|exact (update_candidate_None _ _ _ Hu)
      |exact (existsb_names cp_hashname hn _ Hpend)|exact Hlt|reflexivity|].
    rewrite Hid. reflexivity.
Qed.

Lemma nextCandidate_scan_ok local bs :
  Forall (bucket_ok local) bs ->
  Forall (bucket_ok local) (fst (nextCandidate_scan bs)) /\
  map bucket_id (fst (nextCandidate_scan bs)) = map bucket_id bs.
Proof.
  induction 1 as [|b bs Hb Hbs IH]; simpl; [split; [constructor|reflexivity]|].
  destruct IH as [IH1 IH2].
  destruct (_ =? _)%nat.
  - destruct (nextCandidate_scan bs) as [bs' r]. simpl in *.
    split; [constructor; assumption|f_equal; exact IH2].
  - destruct (candidates b) as [|c cs] eqn:Hc.
    + destruct (nextCandidate_scan bs) as [bs' r]. simpl in *.
      split; [constructor; assumption|f_equal; exact IH2].
    + simpl. split; [|reflexivity].
      constructor; [exact (bucket_ok_promote _ _ _ _ Hb Hc)|exact Hbs].
Qed.

Lemma nextCandidate_local t :
  localHashname (fst (nextCandidate t)) = localHashname t.
Proof. unfold nextCandidate. destruct (nextCandidate_scan _). reflexivity. Qed.

Lemma nextCandidate_ok t : table_ok t -> table_ok (fst (nextCandidate t)).
Proof.
  intros [Hid Hall]. unfold nextCandidate.
  destruct (nextCandidate_scan_ok _ _ Hall) as [H1 H2].
  destruct (nextCandidate_scan (buckets t)) as [bs r]. cbn [fst] in *.
  unfold table_ok. cbn [buckets localHashname].
  split; [rewrite H2; exact Hid|exact H1].
Qed.

Lemma apply_op_ok t op :
  table_ok t ->
  table_ok (apply_op t op) /\ localHashname (apply_op t op) = localHashname t.
Proof.
  intros Hok. destruct op; simpl.
  - split; [apply activatePeer_ok, Hok|apply activatePeer_local].
  - split; [apply deactivatePeer_ok, Hok|apply deactivatePeer_local].
  - split; [apply addCandidate_ok, Hok|apply addCandidate_local].
  - split; [apply nextCandidate_ok, Hok|apply nextCandidate_local].
Qed.

Lemma run_ops_ok t ops :
  table_ok t ->
  table_ok (run_ops t ops) /\ localHashname (run_ops t ops) = localHashname t.
Proof.
  revert t. induction ops as [|op ops IH]; intros t Hok; [split; [exact Hok|reflexivity]|].
  unfold run_ops in *. simpl.
  destruct (apply_op_ok t op Hok) as [Hok' Hl].
  destruct (IH _ Hok') as [H1 H2]. split; [exact H1|congruence].
Qed.

(** Every table reached from the empty one is well formed. *)
Lemma reachable_ok local ops :
  table_ok (run_ops (init local) ops) /\
  localHashname (run_ops (init local) ops) = local.
Proof. apply (run_ops_ok (init local) ops), table_ok_init. Qed.

(** **** Invariants of reachable tables *)

(** X1 (capacities).  Whatever sequence of [activatePeer],
    [deactivatePeer], [addCandidate] and [nextCandidate] calls is run on
    an initialised table, the table keeps its [numBuckets] buckets, no
    bucket holds more than [maxPeers] active peers or more than
    [maxCandidates] candidates, and no candidate or pending entry lists
    more than [maxRoutersPerCandidate] routers. *)
Theorem capacity_kept local ops :
  let t := run_ops (init local) ops in
  length (buckets t) = Z.to_nat numBuckets /\
  Forall (fun b =>
            (length (peers b) <= maxPeers)%nat /\
            (length (candidates b) <= maxCandidates)%nat /\
            Forall (fun c => (length (routers c) <= maxRoutersPerCandidate)%nat)
              (candidates b ++ pending b))
    (buckets t).
Proof.
  intros t. destruct (reachable_ok local ops) as [Hok _]. fold t in Hok.
  split; [apply table_ok_length, Hok|].
  destruct Hok as [_ Hall]. eapply Forall_impl; [exact Hall|].
  intros b (H1 & H2 & H3 & _). auto.
Qed.

(** X2 (placement).  In a table reached from [init], bucket [i] has id
    [i] and every hashname stored in one of its three lists is at a
    distance from the local hashname that [bucketFromDistance] maps to
    [i]; in particular the local hashname is never stored.  On any table
    the three operations that take a hashname leave the table as it is
    when given the local hashname, [activatePeer] releasing the tag. *)
Theorem stored_in_own_bucket local ops :
  let t := run_ops (init local) ops in
  map bucket_id (buckets t) = map Z.of_nat (seq 0 (Z.to_nat numBuckets)) /\
  Forall (fun b =>
            Forall (fun hn =>
                      hn <> local /\
                      bucketFromDistance (distance local hn) = bucket_id b)
              (stored_names b))
    (buckets t) /\
  (forall t' tg router,
     activatePeer t' (localHashname t') tg = (t', [tg]) /\
     deactivatePeer t' (localHashname t') = (t', []) /\
     addCandidate t' (localHashname t') router = t').
Proof.
  intros t. destruct (reachable_ok local ops) as [Hok Hl]. fold t in Hok, Hl.
  split; [exact (proj1 Hok)|]. split.
  - apply Forall_lookup. intros i b Hb.
    destruct (table_ok_lookup t i b Hok Hb) as (Hid & Hbok & _).
    destruct Hbok as (_ & _ & _ & _ & _ & Hpl). rewrite Hl in Hpl.
    eapply Forall_impl; [exact Hpl|]. intros hn Hhn. split; [|exact Hhn].
    apply (bucketFromDistance_stored local). rewrite Hhn, Hid. lia.
  - intros t' tg router.
    unfold activatePeer, deactivatePeer, addCandidate.
    rewrite bucketFromDistance_self. repeat split.
Qed.

Lemma elem_of_concat {A} (x : A) (ls : list (list A)) :
  x ∈ concat ls <-> exists l, x ∈ l /\ l ∈ ls.
Proof.
  rewrite list_elem_of_In, in_concat. split; intros (l & H1 & H2); exists l.
  - split; apply list_elem_of_In; assumption.
  - split; apply list_elem_of_In; assumption.
Qed.

Lemma NoDup_concat_by_id {A} (f : hashname -> Z) (names : A -> list hashname)
    (id : A -> Z) (bs : list A) :
  Forall (fun b => NoDup (names b) /\ Forall (fun hn => f hn = id b) (names b)) bs ->
  NoDup (map id bs) ->
  NoDup (concat (map names bs)).
Proof.
  induction 1 as [|b bs [Hnd Hpl] Hall IH]; simpl; intros Hid; [constructor|].
  apply NoDup_cons in Hid as [Hb Hid].
  apply NoDup_app. split; [exact Hnd|]. split; [|apply IH, Hid].
  intros x Hx Hx'. apply Hb.
  apply elem_of_concat in Hx' as (l & Hxl & Hl).
  apply list_elem_of_fmap in Hl as (b' & -> & Hb').
  rewrite Forall_forall in Hpl. rewrite Forall_forall in Hall.
  destruct (Hall b' Hb') as [_ Hpl'].
  rewrite Forall_forall in Hpl'.
  rewrite <- (Hpl x Hx), (Hpl' x Hxl).
  apply list_elem_of_fmap_2. exact Hb'.
Qed.

Lemma ids_NoDup t : table_ok t -> NoDup (map bucket_id (buckets t)).
Proof.
  intros [Hid _]. rewrite Hid.
  apply (NoDup_fmap_2 Z.of_nat), NoDup_seq.
Qed.

(** X3 (no duplicates).  In a table reached from [init] no hashname is
    active twice, in one bucket or in two, and no hashname occurs twice
    among the candidate and pending entries of the whole table. *)
Theorem stored_once local ops :
  let t := run_ops (init local) ops in
  NoDup (concat (map peer_names (buckets t))) /\
  NoDup (concat (map (fun b => candidate_names b ++ pending_names b) (buckets t))).
Proof.
  intros t. destruct (reachable_ok local ops) as [Hok Hl]. fold t in Hok, Hl.
  pose proof (ids_NoDup t Hok) as Hids. destruct Hok as [_ Hall].
  split.
  - apply (NoDup_concat_by_id
             (fun hn => bucketFromDistance (distance (localHashname t) hn))
             peer_names bucket_id); [|exact Hids].
    eapply Forall_impl; [exact Hall|].
    intros b (_ & _ & _ & Hnd & _ & Hpl). split; [exact Hnd|].
    unfold stored_names in Hpl. apply Forall_app in Hpl as [H _]. exact H.
  - apply (NoDup_concat_by_id
             (fun hn => bucketFromDistance (distance (localHashname t) hn))
             (fun b => candidate_names b ++ pending_names b) bucket_id);
      [|exact Hids].
    eapply Forall_impl; [exact Hall|].
    intros b (_ & _ & _ & _ & Hnd & Hpl). split; [exact Hnd|].
    unfold stored_names in Hpl. apply Forall_app in Hpl as [_ H]. exact H.
Qed.

(** **** Tags *)

Lemma table_tags_split t idx b' :
  table_ok t -> 0 <= idx < numBuckets ->
  exists R,
    table_tags t ≡ₚ map tag (peers (bucket_at t idx)) ++ R /\
    table_tags (set_bucket t idx b') ≡ₚ map tag (peers b') ++ R.
Proof.
  intros Hok Hi. destruct (table_ok_bucket_at t idx Hok Hi) as (Hb & _ & _).
  pose proof (table_ok_length t Hok) as Hlen.
  set (f := fun b : bucket => map tag (peers b)).
  exists (concat (map f (take (Z.to_nat idx) (buckets t))) ++
          concat (map f (drop (S (Z.to_nat idx)) (buckets t)))).
  unfold table_tags, set_bucket. cbn [buckets]. fold f. split.
  - rewrite <- (take_drop_middle _ _ _ Hb) at 1.
    rewrite map_app, concat_app. simpl.
    rewrite Permutation_app_swap_app. reflexivity.
  - rewrite insert_take_drop by lia.
    rewrite map_app, concat_app. simpl.
    rewrite Permutation_app_swap_app. reflexivity.
Qed.

Lemma tags_after_set t idx b' rel X :
  table_ok t -> 0 <= idx < numBuckets ->
  map tag (peers b') ++ rel ≡ₚ X ++ map tag (peers (bucket_at t idx)) ->
  table_tags (set_bucket t idx b') ++ rel ≡ₚ X ++ table_tags t.
Proof.
  intros Hok Hi Hp.
  destruct (table_tags_split t idx b' Hok Hi) as (R & H1 & H2).
  rewrite H1, H2.
  rewrite <- app_assoc, (Permutation_app_comm R rel), app_assoc, Hp.
  rewrite <- app_assoc. reflexivity.
Qed.

Lemma activatePeer_tags t hn tg :
  table_ok t ->
  table_tags (fst (activatePeer t hn tg)) ++ snd (activatePeer t hn tg)
  ≡ₚ tg :: table_tags t.
Proof.
  intros Hok. unfold activatePeer.
  set (idx := bucketFromDistance (distance (localHashname t) hn)).
  destruct (Z.ltb_spec idx 0) as [|Hge].
  { simpl. rewrite Permutation_app_comm. reflexivity. }
  assert (Hi : 0 <= idx < numBuckets)
    by (split; [exact Hge|apply bucketFromDistance_lt]).
  cbv zeta. cbn [peers candidates pending bucket_id].
  set (b := bucket_at t idx) in *.
  destruct (swap_tag hn tg (peers b)) as [[ps old]|] eqn:Hs; cbn [fst snd].
  - destruct (swap_tag_Some _ _ _ _ _ Hs) as (_ & _ & Htags & _).
    apply (tags_after_set t idx _ [old] [tg] Hok Hi). cbn [peers].
    rewrite Permutation_app_comm. exact Htags.
  - destruct (Nat.leb_spec maxPeers (length (peers b))); cbn [fst snd].
    + apply (tags_after_set t idx _ [tg] [tg] Hok Hi). cbn [peers].
      apply Permutation_app_comm.
    + apply (tags_after_set t idx _ [] [tg] Hok Hi). cbn [peers].
      rewrite app_nil_r, map_app. simpl. apply Permutation_app_comm.
Qed.

Lemma deactivatePeer_tags t hn :
  table_ok t ->
  table_tags (fst (deactivatePeer t hn)) ++ snd (deactivatePeer t hn)
  ≡ₚ table_tags t.
Proof.
  intros Hok. unfold deactivatePeer.
  set (idx := bucketFromDistance (distance (localHashname t) hn)).
  destruct (Z.ltb_spec idx 0) as [|Hge].
  { simpl. rewrite app_nil_r. reflexivity. }
  assert (Hi : 0 <= idx < numBuckets)
    by (split; [exact Hge|apply bucketFromDistance_lt]).
  cbv zeta. set (b := bucket_at t idx) in *.
  pose proof (remove_peer_tags hn (peers b)) as Ht.
  destruct (remove_peer hn (peers b)) as [ps rel]. cbn [fst snd] in *.
  apply (tags_after_set t idx _ rel [] Hok Hi). exact Ht.
Qed.

Lemma addCandidate_tags t hn router :
  table_ok t -> table_tags (addCandidate t hn router) ≡ₚ table_tags t.
Proof.
  intros Hok. unfold addCandidate.
  set (idx := bucketFromDistance (distance (localHashname t) hn)).
  destruct (Z.ltb_spec idx 0) as [|Hge]; [reflexivity|].
  assert (Hi : 0 <= idx < numBuckets)
    by (split; [exact Hge|apply bucketFromDistance_lt]).
  cbv zeta. set (b := bucket_at t idx) in *.
  destruct (existsb _ (peers b)); [reflexivity|].
  destruct (existsb _ (pending b)); [reflexivity|].
  assert (Hset : forall cs pd,
    table_tags (set_bucket t idx (Bucket (bucket_id b) (peers b) cs pd))
    ≡ₚ table_tags t).
  { intros cs pd.
    assert (Hp : map tag (peers (Bucket (bucket_id b) (peers b) cs pd)) ++ []
                 ≡ₚ [] ++ map tag (peers (bucket_at t idx)))
      by (cbn [peers]; rewrite app_nil_r; reflexivity).
    pose proof (tags_after_set t idx _ [] [] Hok Hi Hp) as H.
    rewrite app_nil_r in H. exact H. }
  destruct (update_candidate hn router (candidates b)); [apply Hset|].
  destruct (_ <? _)%nat; [apply Hset|reflexivity].
Qed.

Lemma nextCandidate_scan_tags bs :
  map (fun b => map tag (peers b)) (fst (nextCandidate_scan bs)) =
  map (fun b => map tag (peers b)) bs.
Proof.
  induction bs as [|b bs IH]; simpl; [reflexivity|].
  destruct (_ =? _)%nat.
  - destruct (nextCandidate_scan bs) as [bs' r]. simpl in *. rewrite IH. reflexivity.
  - destruct (candidates b) as [|c cs].
    + destruct (nextCandidate_scan bs) as [bs' r]. simpl in *. rewrite IH. reflexivity.
    + reflexivity.
Qed.

Lemma nextCandidate_tags t : table_tags (fst (nextCandidate t)) = table_tags t.
Proof.
  unfold nextCandidate, table_tags.
  pose proof (nextCandidate_scan_tags (buckets t)) as H.
  destruct (nextCandidate_scan (buckets t)) as [bs r]. cbn [fst buckets] in *.
  rewrite H. reflexivity.
Qed.

(** X4 (tags).  On a table reached from [init] every tag is accounted
    for: after [activatePeer] the tags held by the table together with
    the released ones are the tags held before plus the new tag; after
    [deactivatePeer] the tags held together with the released ones are
    the tags held before; [addCandidate] and [nextCandidate] hold the
    same tags as before and release none. *)
Theorem tags_conserved local ops hn tg router :
  let t := run_ops (init local) ops in
  table_tags (fst (activatePeer t hn tg)) ++ snd (activatePeer t hn tg)
    ≡ₚ tg :: table_tags t /\
  table_tags (fst (deactivatePeer t hn)) ++ snd (deactivatePeer t hn)
    ≡ₚ table_tags t /\
  table_tags (addCandidate t hn router) ≡ₚ table_tags t /\
  table_tags (fst (nextCandidate t)) = table_tags t.
Proof.
  intros t. destruct (reachable_ok local ops) as [Hok _]. fold t in Hok.
  split; [apply activatePeer_tags, Hok|].
  split; [apply deactivatePeer_tags, Hok|].
  split; [apply addCandidate_tags, Hok|apply nextCandidate_tags].
Qed.

(** **** deactivatePeer forgets the hashname *)

Lemma trimmed_of_sorted key (G : list peerInfo) (n : Z) out (P : hashname -> Prop) :
  Forall (fun g => P (pi_hashname g)) G ->
  match
    (let sorted := sort_peerInfoByDistance (map (with_key_distance key) G) in
     if int_of_uint n <? Z.of_nat (length sorted) then
       if n <=? Z.of_nat (length sorted) then Some (take (Z.to_nat n) sorted)
       else None
     else Some sorted)
  with
  | Some ps => Some (map pi_hashname ps)
  | None => None
  end = Some out ->
  Forall P out.
Proof.
  intros HG. cbv zeta.
  set (s := sort_peerInfoByDistance _).
  assert (Hs : Forall (fun g => P (pi_hashname g)) s).
  { apply Forall_forall. intros p Hp.
    apply (proj1 (elem_of_Permutation_proper p _ _
             (merge_sort_Permutation not_after (map (with_key_distance key) G)))) in Hp.
    apply list_elem_of_fmap in Hp as (g & -> & Hg).
    rewrite Forall_forall in HG. exact (HG g Hg). }
  clearbody s.
  assert (Hmap : forall ps, ps ⊆ s -> Forall P (map pi_hashname ps)).
  { intros ps Hps. apply Forall_forall. intros h Hh.
    apply list_elem_of_fmap in Hh as (p & -> & Hp).
    rewrite Forall_forall in Hs. exact (Hs p (Hps p Hp)). }
  destruct (_ <? _).
  - destruct (_ <=? _); [|discriminate]. intros E. injection E as <-.
    apply Hmap, subseteq_take.
  - intros E. injection E as <-. apply Hmap. intros x Hx. exact Hx.
Qed.

Lemma findKey_out_from_peers maxCap t key n out :
  findKey maxCap t key n = Some out ->
  forall h, h ∈ out -> exists b, b ∈ buckets t /\ h ∈ peer_names b.
Proof.
  intros Hout. unfold findKey in Hout.
  destruct (make_panics _ _); [discriminate|].
  assert (HG : forall w, Forall (fun g => (fun h => exists b, b ∈ buckets t /\ h ∈ peer_names b)
                              (pi_hashname g)) (findKey_gather t key w)).
  { intros w. pose proof (findKey_gather_from_peers t key w) as Hfrom.
    eapply Forall_impl; [exact Hfrom|].
    intros g (b & ap & Hb & Hap & ->). exists b. split; [exact Hb|].
    unfold peer_names. apply list_elem_of_fmap. exists ap. split; [reflexivity|exact Hap]. }
  pose proof (trimmed_of_sorted key _ _ out _ (HG (if n =? 0 then defaultLookupSize else n)) Hout) as H.
  rewrite Forall_forall in H. exact H.
Qed.

Lemma not_stored_elsewhere t i b hn :
  table_ok t -> buckets t !! i = Some b -> hn ∈ stored_names b ->
  bucketFromDistance (distance (localHashname t) hn) = Z.of_nat i.
Proof.
  intros Hok Hb Hhn. destruct (table_ok_lookup t i b Hok Hb) as (Hid & Hbok & _).
  destruct Hbok as (_ & _ & _ & _ & _ & Hpl).
  rewrite Forall_forall in Hpl. rewrite (Hpl hn Hhn). exact Hid.
Qed.

Lemma deactivatePeer_forgets_ok t hn :
  table_ok t ->
  Forall (fun b => hn ∉ stored_names b) (buckets (fst (deactivatePeer t hn))).
Proof.
  intros Hok. unfold deactivatePeer.
  set (idx := bucketFromDistance (distance (localHashname t) hn)).
  destruct (Z.ltb_spec idx 0) as [Hneg|Hge].
  { cbn [fst]. apply Forall_lookup. intros i b Hb Hhn.
    pose proof (not_stored_elsewhere t i b hn Hok Hb Hhn). fold idx in H. lia. }
  assert (Hi : 0 <= idx < numBuckets)
    by (split; [exact Hge|apply bucketFromDistance_lt]).
  destruct (table_ok_bucket_at t idx Hok Hi) as (_ & Hid & Hbok).
  cbv zeta. set (b := bucket_at t idx) in *.
  pose proof (remove_peer_gone hn (peers b)) as Hgone.
  destruct (remove_peer hn (peers b)) as [ps rel]. cbn [fst] in *.
  unfold set_bucket. cbn [buckets].
  apply Forall_lookup. intros i b0 Hb0.
  apply list_lookup_insert_Some in Hb0 as [(<- & <- & _)|(Hne & Hb0)].
  - destruct Hbok as (_ & _ & _ & Hnp & Hnc & _).
    apply NoDup_app in Hnc as (Hnc & _ & Hnpd).
    unfold stored_names, peer_names, candidate_names, pending_names.
    cbn [peers candidates pending].
    rewrite !elem_of_app. intros [H|[H|H]].
    + exact (Hgone Hnp H).
    + exact (remove_candidate_gone hn _ Hnc H).
    + exact (remove_candidate_gone hn _ Hnpd H).
  - intros Hhn.
    pose proof (not_stored_elsewhere t i b0 hn Hok Hb0 Hhn). fold idx in H. lia.
Qed.

Lemma deactivatePeer_keeps_others t hn h i :
  h <> hn ->
  let t' := fst (deactivatePeer t hn) in
  (h ∈ peer_names (bucket_at t' i) <-> h ∈ peer_names (bucket_at t i)) /\
  (h ∈ candidate_names (bucket_at t' i) <-> h ∈ candidate_names (bucket_at t i)) /\
  (h ∈ pending_names (bucket_at t' i) <-> h ∈ pending_names (bucket_at t i)).
Proof.
  intros Hne. unfold deactivatePeer.
  set (idx := bucketFromDistance (distance (localHashname t) hn)).
  destruct (idx <? 0); [cbn [fst]; repeat split; auto|].
  cbv zeta. set (b := bucket_at t idx) in *.
  pose proof (remove_peer_other hn (peers b) h Hne) as Hp.
  destruct (remove_peer hn (peers b)) as [ps rel]. cbn [fst] in *.
  unfold bucket_at at 1 3 5, set_bucket. cbn [buckets].
  rewrite list_lookup_total_insert.
  destruct (decide _) as [[E _]|_]; [|repeat split; auto].
  unfold peer_names, candidate_names, pending_names. cbn [peers candidates pending].
  unfold bucket_at. rewrite <- E. fold (bucket_at t idx). fold b.
  split; [exact Hp|]. split; apply remove_candidate_other; exact Hne.
Qed.

(** X5 (deactivation).  After [deactivatePeer] on a table reached from
    [init], the hashname is in no list of any bucket, membership of every
    other hashname in each list of each bucket is as before, and no
    lookup returns the hashname. *)
Theorem deactivatePeer_forgets local ops hn :
  let t := run_ops (init local) ops in
  let t' := fst (deactivatePeer t hn) in
  Forall (fun b => hn ∉ stored_names b) (buckets t') /\
  (forall h i, h <> hn ->
     (h ∈ peer_names (bucket_at t' i) <-> h ∈ peer_names (bucket_at t i)) /\
     (h ∈ candidate_names (bucket_at t' i) <-> h ∈ candidate_names (bucket_at t i)) /\
     (h ∈ pending_names (bucket_at t' i) <-> h ∈ pending_names (bucket_at t i))) /\
  (forall maxCap key n out, findKey maxCap t' key n = Some out -> hn ∉ out).
Proof.
  intros t t'. destruct (reachable_ok local ops) as [Hok _]. fold t in Hok.
  pose proof (deactivatePeer_forgets_ok t hn Hok) as Hf. fold t' in Hf.
  split; [exact Hf|]. split.
  - intros h i Hne. apply deactivatePeer_keeps_others. exact Hne.
  - intros maxCap key n out Hout Hin.
    destruct (findKey_out_from_peers maxCap t' key n out Hout hn Hin)
      as (b & Hb & Hhn).
    rewrite Forall_forall in Hf. apply (Hf b Hb).
    unfold stored_names. apply elem_of_app. left. exact Hhn.
Qed.

Lemma deactivatePeer_forgets_witness :
  findKey (2 ^ 32) (fst (deactivatePeer sample_table 5)) 4 2 = Some [1; 2] /\
  5 ∉ [1; 2].
Proof.
  assert (E : findKey (2 ^ 32) (fst (deactivatePeer sample_table 5)) 4 2 =
              Some [1; 2])
    by (vm_compute; reflexivity).
  split; [exact E|].
  exact (proj2 (proj2 (deactivatePeer_forgets 0
           [OpActivatePeer 1 11; OpActivatePeer 2 12; OpActivatePeer 5 15] 5))
           (2 ^ 32) 4 2 [1; 2] E).
Defined.

(** **** A lookup of an active hashname *)

Lemma findKey_walk_prefix fuel t bucketIdx n offset acc :
  exists more, findKey_walk fuel t bucketIdx n offset acc = acc ++ more.
Proof.
  revert offset acc. induction fuel as [|fuel IH]; intros offset acc; simpl.
  - exists []. rewrite app_nil_r. reflexivity.
  - destruct (_ && _); [|exists []; rewrite app_nil_r; reflexivity].
    match goal with |- context [findKey_walk fuel t bucketIdx n ?o ?a] =>
      destruct (IH o a) as [more ->] end.
    destruct (_ <? numBuckets); destruct (0 <=? _);
      rewrite <- ?app_assoc; eexists; reflexivity.
Qed.

Lemma head_nearest key (l : list hashname) h :
  StronglySorted (nearer key) l -> h ∈ l ->
  exists x rest, l = x :: rest /\ nearer key x h.
Proof.
  intros Hs Hh. destruct Hs as [|x rest Hs Hhd]; [inversion Hh|].
  exists x, rest. split; [reflexivity|].
  apply elem_of_cons in Hh as [->|Hh]; [unfold nearer; lia|].
  rewrite Forall_forall in Hhd. exact (Hhd h Hh).
Qed.

(** Among gathered peers with non-negative hashnames, the key itself
    sorts first. *)
Lemma nearest_first hn (G : list peerInfo) (k : nat) :
  (1 <= k)%nat -> 0 <= hn ->
  Forall (fun g => 0 <= pi_hashname g) G ->
  hn ∈ map pi_hashname G ->
  exists rest,
    map pi_hashname
      (take k (sort_peerInfoByDistance (map (with_key_distance hn) G))) =
    hn :: rest.
Proof.
  intros Hk Hhn Hnn Hin.
  pose proof (sorted_names_sorted hn G) as Hsorted.
  assert (Hperm : sort_peerInfoByDistance (map (with_key_distance hn) G)
                    ≡ₚ map (with_key_distance hn) G)
    by apply merge_sort_Permutation.
  set (s := sort_peerInfoByDistance _) in *. clearbody s.
  assert (Hnames : map pi_hashname s ≡ₚ map pi_hashname G).
  { rewrite <- (with_key_distance_names hn G). apply Permutation_map. exact Hperm. }
  assert (Hin' : hn ∈ map pi_hashname s).
  { apply (proj2 (elem_of_Permutation_proper hn _ _ Hnames)). exact Hin. }
  assert (Hnn' : Forall (fun h => 0 <= h) (map pi_hashname s)).
  { apply Forall_forall. intros h Hh.
    apply (proj1 (elem_of_Permutation_proper h _ _ Hnames)) in Hh.
    apply list_elem_of_fmap in Hh as (g & -> & Hg).
    rewrite Forall_forall in Hnn. exact (Hnn g Hg). }
  destruct (head_nearest hn _ hn Hsorted Hin') as (x & rest & E & Hx).
  destruct s as [|p s']; [discriminate|]. simpl in E. injection E as Ex Erest.
  destruct k as [|k']; [lia|]. simpl. exists (map pi_hashname (take k' s')).
  f_equal. rewrite Ex.
  apply Forall_cons in Hnn' as [Hp _]. simpl in Hp. rewrite Ex in Hp.
  unfold nearer, keyDistance in Hx. rewrite Z.lxor_nilpotent in Hx.
  assert (Hge : 0 <= Z.lxor x hn) by (apply Z.lxor_nonneg; lia).
  apply Z.lxor_eq. lia.
Qed.

Lemma findKey_gather_seed t key w x :
  0 <= bucketFromDistance (distance (localHashname t) key) ->
  x ∈ bucket_peerInfos
        (bucket_at t (bucketFromDistance (distance (localHashname t) key))) ->
  x ∈ findKey_gather t key w.
Proof.
  intros Hidx Hx. unfold findKey_gather.
  change (keyDistance (localHashname t) key) with (distance (localHashname t) key).
  cbv zeta.
  destruct (Z.ltb_spec (bucketFromDistance (distance (localHashname t) key)) 0);
    [lia|].
  match goal with |- _ ∈ findKey_walk ?f ?t ?i ?n ?o ?a =>
    destruct (findKey_walk_prefix f t i n o a) as [more ->] end.
  apply elem_of_app. left. exact Hx.
Qed.

Lemma peer_names_inv (b : bucket) hn :
  hn ∈ peer_names b -> exists p, hn = ap_hashname p /\ p ∈ peers b.
Proof.
  intros Hin. unfold peer_names in Hin.
  apply list_elem_of_fmap in Hin as (p & E & Hp). eauto.
Qed.

Lemma info_names (G : list peerInfo) p hn :
  hn = ap_hashname p -> ap_info p ∈ G -> hn ∈ map pi_hashname G.
Proof.
  intros E Hseed.
  apply list_elem_of_fmap. exists (ap_info p). split; [exact E|exact Hseed].
Qed.

Lemma bucket_peerInfos_has (b : bucket) p :
  p ∈ peers b -> ap_info p ∈ bucket_peerInfos b.
Proof.
  intros Hp. unfold bucket_peerInfos. apply list_elem_of_fmap. exists p. auto.
Qed.

Lemma findKey_gather_has_seed t hn w :
  0 <= bucketFromDistance (distance (localHashname t) hn) ->
  hn ∈ peer_names (bucket_at t (bucketFromDistance (distance (localHashname t) hn))) ->
  hn ∈ map pi_hashname (findKey_gather t hn w).
Proof.
  intros Hidx Hin.
  destruct (peer_names_inv _ _ Hin) as (p & E & Hp).
  exact (info_names _ p hn E
           (findKey_gather_seed t hn w _ Hidx (bucket_peerInfos_has _ p Hp))).
Qed.

Lemma findKey_gather_nonneg t key w :
  Forall (fun b => Forall (fun h => 0 <= h) (peer_names b)) (buckets t) ->
  Forall (fun g => 0 <= pi_hashname g) (findKey_gather t key w).
Proof.
  intros Hnn.
  pose proof (findKey_gather_from_peers t key w) as Hfrom.
  revert Hfrom. generalize (findKey_gather t key w). intros G Hfrom.
  eapply Forall_impl; [exact Hfrom|].
  intros g (b & ap & Hb & Hap & ->).
  rewrite Forall_forall in Hnn. specialize (Hnn b Hb).
  rewrite Forall_forall in Hnn. apply Hnn.
  unfold peer_names. apply list_elem_of_fmap. exists ap. auto.
Qed.

Lemma findKey_finds_in_seed maxCap t hn n :
  0 <= n < 2 ^ 63 ->
  (if n =? 0 then defaultLookupSize else n) + 96 < 2 ^ 63 ->
  (if n =? 0 then defaultLookupSize else n) + 96 <= maxCap ->
  0 <= hn ->
  Forall (fun b => Forall (fun h => 0 <= h) (peer_names b)) (buckets t) ->
  0 <= bucketFromDistance (distance (localHashname t) hn) ->
  hn ∈ peer_names (bucket_at t (bucketFromDistance (distance (localHashname t) hn))) ->
  exists rest, findKey maxCap t hn n = Some (hn :: rest).
Proof.
  intros Hn Hint Hcap Hhn Hnn Hidx Hin.
  rewrite (findKey_eq maxCap t hn n Hn Hint Hcap). cbv zeta.
  clear Hint Hcap.
  assert (Hw : (1 <= Z.to_nat (if (n =? 0)%Z then defaultLookupSize else n))%nat).
  { unfold defaultLookupSize. destruct (Z.eqb_spec n 0); lia. }
  revert Hw. generalize (if n =? 0 then defaultLookupSize else n). intros w Hw.
  destruct (nearest_first hn _ _ Hw Hhn
              (findKey_gather_nonneg t hn w Hnn)
              (findKey_gather_has_seed t hn w Hidx Hin)) as [rest E].
  exists rest. rewrite E. reflexivity.
Qed.

(** X6 (lookup of an active peer).  On a table reached from [init]
    whose active hashnames are non-negative numbers (as the values of
    byte strings are), a lookup of the hashname of an active peer with a
    width [n] in the [int] range panics when the capacity it asks of
    [make], the width plus 96, does not fit [int] or is more than the
    allocator grants, and otherwise returns that hashname first. *)
Theorem findKey_self_first maxCap local ops hn n :
  let t := run_ops (init local) ops in
  let width := if n =? 0 then defaultLookupSize else n in
  0 <= n < 2 ^ 63 -> 0 <= hn ->
  Forall (fun b => Forall (fun h => 0 <= h) (peer_names b)) (buckets t) ->
  (exists b, b ∈ buckets t /\ hn ∈ peer_names b) ->
  (2 ^ 63 <= width + 96 \/ maxCap < width + 96 ->
   findKey maxCap t hn n = None) /\
  (width + 96 < 2 ^ 63 -> width + 96 <= maxCap ->
   exists rest, findKey maxCap t hn n = Some (hn :: rest)).
Proof.
  intros t width Hn Hhn Hnn (b & Hb & Hin).
  assert (Hw : 0 <= width < 2 ^ 63).
  { unfold width, defaultLookupSize. destruct (n =? 0); lia. }
  split.
  { intros Hno. rewrite (findKey_cases maxCap t hn n Hn). fold width.
    rewrite (make_refused maxCap width Hw Hno). reflexivity. }
  intros Hint Hcap.
  destruct (reachable_ok local ops) as [Hok Hl]. fold t in Hok, Hl.
  apply list_elem_of_lookup in Hb as [i Hb].
  assert (Hst : hn ∈ stored_names b)
    by (unfold stored_names; apply elem_of_app; left; exact Hin).
  pose proof (not_stored_elsewhere t i b hn Hok Hb Hst) as Hidx.
  assert (Hat : bucket_at t (bucketFromDistance (distance (localHashname t) hn)) = b).
  { unfold bucket_at. apply list_lookup_total_correct.
    rewrite Hidx, Nat2Z.id. exact Hb. }
  apply findKey_finds_in_seed; try assumption.
  - rewrite Hidx. lia.
  - rewrite Hat. exact Hin.
Qed.

Lemma findKey_self_first_witness :
  findKey (2 ^ 32) sample_table 5 (2 ^ 32) = None /\
  exists rest, findKey (2 ^ 32) sample_table 5 2 = Some (5 :: rest).
Proof.
  assert (Hnn : Forall (fun b => Forall (fun h => 0 <= h) (peer_names b))
                  (buckets sample_table))
    by (refine (bool_decide_unpack _ _); vm_compute; exact I).
  assert (Hact : exists b, b ∈ buckets sample_table /\ 5 ∈ peer_names b).
  { exists (bucket_at sample_table 253). split.
    - apply list_elem_of_lookup. exists 253%nat. vm_compute. reflexivity.
    - refine (bool_decide_unpack _ _); vm_compute; exact I. }
  split.
  - apply (proj1 (findKey_self_first (2 ^ 32) 0
             [OpActivatePeer 1 11; OpActivatePeer 2 12; OpActivatePeer 5 15]
             5 (2 ^ 32) ltac:(lia) ltac:(lia) Hnn Hact)).
    right. vm_compute. reflexivity.
  - apply (proj2 (findKey_self_first (2 ^ 32) 0
             [OpActivatePeer 1 11; OpActivatePeer 2 12; OpActivatePeer 5 15]
             5 2 ltac:(lia) ltac:(lia) Hnn Hact)).
    + vm_compute. reflexivity.
    + vm_compute. discriminate.
Defined.

(** **** What activatePeer leaves behind *)

(** X7 (activation).  [activatePeer] on a table reached from [init],
    for a hashname other than the local one: the hashname is not pending
    afterwards; the candidate list of its bucket is not touched; if the
    hashname was active, the active hashnames stay as they are, its entry
    carries the new tag and the tag of its old entry is the one released;
    if it was not active and the bucket has room, the new peer is
    appended and nothing is released; if the bucket is full, the active
    list stays and the new tag is released.  No other bucket changes. *)
Theorem activatePeer_result local ops hn tg :
  let t := run_ops (init local) ops in
  let idx := bucketFromDistance (distance local hn) in
  let b := bucket_at t idx in
  let t' := fst (activatePeer t hn tg) in
  let released := snd (activatePeer t hn tg) in
  let b' := bucket_at t' idx in
  0 <= idx ->
  (hn ∉ pending_names b') /\
  candidates b' = candidates b /\
  (hn ∈ peer_names b ->
     peer_names b' = peer_names b /\
     (forall p, p ∈ peers b' -> ap_hashname p = hn -> tag p = tg) /\
     exists old, released = [old] /\
       exists p, p ∈ peers b /\ ap_hashname p = hn /\ tag p = old) /\
  (hn ∉ peer_names b -> (length (peers b) < maxPeers)%nat ->
     peers b' = peers b ++ [ActivePeer (PeerInfo idx (distance local hn) hn) tg] /\
     released = []) /\
  (hn ∉ peer_names b -> (maxPeers <= length (peers b))%nat ->
     peers b' = peers b /\ released = [tg]) /\
  (forall i, Z.to_nat i <> Z.to_nat idx -> bucket_at t' i = bucket_at t i).
Proof.
  intros t idx b t' released b' Hge.
  destruct (reachable_ok local ops) as [Hok Hl]. fold t in Hok, Hl.
  assert (Hi : 0 <= idx < numBuckets)
    by (split; [exact Hge|apply bucketFromDistance_lt]).
  destruct (table_ok_bucket_at t idx Hok Hi) as (_ & Hid & Hbok).
  fold b in Hid, Hbok.
  pose proof (table_ok_length t Hok) as Hlen.
  assert (Hpend : hn ∉ map cp_hashname (remove_candidate hn (pending b))).
  { destruct Hbok as (_ & _ & _ & _ & Hnc & _).
    apply NoDup_app in Hnc as (_ & _ & Hnpd).
    exact (remove_candidate_gone hn _ Hnpd). }
  assert (Hnd : NoDup (map ap_hashname (peers b)))
    by (destruct Hbok as (_ & _ & _ & Hnp & _); exact Hnp).
  assert (Hother : forall x i, Z.to_nat i <> Z.to_nat idx ->
            bucket_at (set_bucket t idx x) i = bucket_at t i).
  { intros x i Hne. unfold bucket_at, set_bucket. cbn [buckets].
    apply list_lookup_total_insert_ne. congruence. }
  assert (Hsame : forall x, bucket_at (set_bucket t idx x) idx = x).
  { intros x. apply bucket_at_set_bucket. lia. }
  unfold b', released, t', activatePeer. rewrite Hl. fold idx.
  destruct (Z.ltb_spec idx 0) as [|_]; [lia|].
  cbv zeta. fold b. cbn [peers candidates pending bucket_id].
  destruct (swap_tag hn tg (peers b)) as [[ps old]|] eqn:Hs.
  - cbn [fst snd]. rewrite Hsame. cbn [peers candidates pending].
    destruct (swap_tag_Some hn tg (peers b) ps old Hs) as (Hn & Hin & _ & Htag).
    split; [exact Hpend|]. split; [reflexivity|]. split; [|split; [|split]].
    + intros _. split; [exact Hn|]. split.
      * intros p Hp Hpn. exact (Htag p Hp Hpn Hnd).
      * exists old. split; [reflexivity|].
        clear -Hs. revert ps old Hs.
        induction (peers b) as [|q l IH]; intros ps old; simpl; [discriminate|].
        destruct (Z.eqb_spec (ap_hashname q) hn) as [E|Hne].
        -- intros [= <- <-]. exists q. split; [apply list_elem_of_here|auto].
        -- destruct (swap_tag hn tg l) as [[l' old']|]; [|discriminate].
           intros [= <- <-]. destruct (IH l' old' eq_refl) as (p & Hp & Hpn & Hpt).
           exists p. split; [apply list_elem_of_further; exact Hp|auto].
    + intros Hnot. contradiction.
    + intros Hnot. contradiction.
    + intros i Hne. apply Hother. exact Hne.
  - pose proof (swap_tag_None hn tg (peers b) Hs) as Hnot.
    destruct (Nat.leb_spec maxPeers (length (peers b))) as [Hfull|Hroom];
      cbn [fst snd]; rewrite Hsame; cbn [peers candidates pending];
      (split; [exact Hpend|]); (split; [reflexivity|]);
      (split; [intros Hin; contradiction|]).
    + split; [intros _ Hlt; lia|]. split; [intros _ _; split; reflexivity|].
      intros i Hne. apply Hother. exact Hne.
    + split; [intros _ _; split; reflexivity|]. split; [intros _ Hle; lia|].
      intros i Hne. apply Hother. exact Hne.
Qed.

Lemma activatePeer_result_witness :
  let b := bucket_at sample_table 253 in
  let b' := bucket_at (fst (activatePeer sample_table 5 99)) 253 in
  5 ∈ peer_names b /\
  peer_names b' = peer_names b /\
  (forall p, p ∈ peers b' -> ap_hashname p = 5 -> tag p = 99%nat) /\
  candidates b' = candidates b.
Proof.
  intros b b'.
  assert (Hin : 5 ∈ peer_names b) by (refine (bool_decide_unpack _ _); vm_compute; exact I).
  destruct (activatePeer_result 0
              [OpActivatePeer 1 11; OpActivatePeer 2 12; OpActivatePeer 5 15] 5 99)
    as (_ & Hc & Hact & _).
  - vm_compute. discriminate.
  - destruct (Hact Hin) as (Hn & Ht & _).
    split; [exact Hin|]. split; [exact Hn|]. split; [exact Ht|exact Hc].
Defined.

(** **** A short lookup result holds every active peer *)

Lemma findKey_walk_length fuel t bucketIdx n offset acc :
  (length acc <= length (findKey_walk fuel t bucketIdx n offset acc))%nat.
Proof.
  destruct (findKey_walk_prefix fuel t bucketIdx n offset acc) as [more ->].
  rewrite length_app. lia.
Qed.

Lemma findKey_walk_keeps fuel t bucketIdx n offset acc x :
  x ∈ acc -> x ∈ findKey_walk fuel t bucketIdx n offset acc.
Proof.
  destruct (findKey_walk_prefix fuel t bucketIdx n offset acc) as [more ->].
  intros Hx. apply elem_of_app. left. exact Hx.
Qed.

Lemma findKey_walk_all fuel t bucketIdx n offset acc :
  0 <= bucketIdx < numBuckets -> 1 <= offset ->
  numBuckets - offset <= Z.of_nat fuel ->
  Z.of_nat (length (findKey_walk fuel t bucketIdx n offset acc)) < int_of_uint n ->
  forall i x, 0 <= i < numBuckets -> offset <= Z.abs (i - bucketIdx) ->
    x ∈ bucket_peerInfos (bucket_at t i) ->
    x ∈ findKey_walk fuel t bucketIdx n offset acc.
Proof.
  intros Hb. revert offset acc.
  induction fuel as [|fuel IH]; intros offset acc Ho Hf Hlen i x Hi Hd Hx.
  { lia. }
  pose proof (findKey_walk_length (S fuel) t bucketIdx n offset acc) as Hl.
  revert Hlen Hl.
  change (findKey_walk (S fuel) t bucketIdx n offset acc) with
    (if (Z.of_nat (length acc) <? int_of_uint n) && (offset <? numBuckets)
     then findKey_walk fuel t bucketIdx n (offset + 1)
            (let a1 := if 0 <=? bucketIdx - offset
                       then acc ++ bucket_peerInfos (bucket_at t (bucketIdx - offset))
                       else acc in
             if bucketIdx + offset <? numBuckets
             then a1 ++ bucket_peerInfos (bucket_at t (bucketIdx + offset))
             else a1)
     else acc).
  destruct (Z.ltb_spec (Z.of_nat (length acc)) (int_of_uint n)) as [Hlt|Hge];
    [|simpl; intros; lia].
  destruct (Z.ltb_spec offset numBuckets) as [Hon|Hoff]; [|lia].
  cbn [andb]. cbv zeta. intros Hlen _.
  destruct (Z.eq_dec (Z.abs (i - bucketIdx)) offset) as [Heq|Hne].
  - apply findKey_walk_keeps.
    assert (Hcase : i = bucketIdx - offset \/ i = bucketIdx + offset) by lia.
    destruct Hcase as [-> | ->].
    + destruct (Z.leb_spec 0 (bucketIdx - offset)); [|lia].
      destruct (Z.ltb_spec (bucketIdx + offset) numBuckets);
        rewrite ?elem_of_app; auto.
    + destruct (Z.ltb_spec (bucketIdx + offset) numBuckets); [|lia].
      apply elem_of_app. right. exact Hx.
  - apply (IH (offset + 1)) with (i := i); try assumption; lia.
Qed.

Lemma findKey_gather_all t key w :
  Z.of_nat (length (findKey_gather t key w)) < int_of_uint w ->
  forall i x, 0 <= i < numBuckets ->
    x ∈ bucket_peerInfos (bucket_at t i) -> x ∈ findKey_gather t key w.
Proof.
  unfold findKey_gather. cbv zeta.
  set (idx := if bucketFromDistance (keyDistance (localHashname t) key) <? 0
              then 0 else bucketFromDistance (keyDistance (localHashname t) key)).
  assert (Hidx : 0 <= idx < numBuckets).
  { unfold idx.
    pose proof (bucketFromDistance_lt (keyDistance (localHashname t) key)).
    destruct (Z.ltb_spec (bucketFromDistance (keyDistance (localHashname t) key)) 0);
      change numBuckets with 256 in *; lia. }
  clearbody idx.
  intros Hlen i x Hi Hx.
  destruct (Z.eq_dec i idx) as [->|Hne].
  - apply findKey_walk_keeps. exact Hx.
  - apply (findKey_walk_all _ t idx w 1 _ Hidx) with (i := i); try assumption.
    + lia.
    + change numBuckets with 256. change (Z.to_nat 256) with 256%nat. lia.
    + lia.
Qed.

(** A sorted list that is not cut keeps every gathered hashname. *)
Lemma untrimmed_all key (G : list peerInfo) (k : nat) h :
  (length (map pi_hashname
     (take k (sort_peerInfoByDistance (map (with_key_distance key) G)))) < k)%nat ->
  ((length G < k)%nat /\
   (h ∈ map pi_hashname G ->
    h ∈ map pi_hashname
      (take k (sort_peerInfoByDistance (map (with_key_distance key) G))))).
Proof.
  assert (Hperm : sort_peerInfoByDistance (map (with_key_distance key) G)
                    ≡ₚ map (with_key_distance key) G)
    by apply merge_sort_Permutation.
  set (s := sort_peerInfoByDistance _) in *. clearbody s.
  assert (Hls : length s = length G).
  { rewrite (Permutation_length Hperm), length_map. reflexivity. }
  rewrite length_map, length_take. intros Hlt.
  split; [lia|]. rewrite take_ge by lia.
  intros Hh.
  assert (Hnames : map pi_hashname s ≡ₚ map pi_hashname G).
  { rewrite <- (with_key_distance_names key G). apply Permutation_map. exact Hperm. }
  apply (proj2 (elem_of_Permutation_proper h _ _ Hnames)). exact Hh.
Qed.

(** X8 (short results are complete).  When a lookup on a table reached
    from [init] returns fewer hashnames than its width ([n], or
    [defaultLookupSize] for [n = 0]), the result holds exactly the active
    hashnames of the whole table: the walk has visited every bucket. *)
Theorem findKey_short_is_all maxCap local ops key n out :
  let t := run_ops (init local) ops in
  0 <= n < 2 ^ 63 ->
  findKey maxCap t key n = Some out ->
  Z.of_nat (length out) < (if n =? 0 then defaultLookupSize else n) ->
  forall h, h ∈ out <-> exists b, b ∈ buckets t /\ h ∈ peer_names b.
Proof.
  intros t Hn Hout Hshort h. split.
  { apply (findKey_out_from_peers maxCap t key n out Hout). }
  intros (b & Hb & Hh).
  destruct (reachable_ok local ops) as [Hok _]. fold t in Hok.
  apply list_elem_of_lookup in Hb as [i Hb].
  destruct (table_ok_lookup t i b Hok Hb) as (_ & _ & Hi).
  assert (Hat : bucket_at t (Z.of_nat i) = b).
  { unfold bucket_at. apply list_lookup_total_correct. rewrite Nat2Z.id. exact Hb. }
  destruct (peer_names_inv b h Hh) as (p & E & Hp).
  apply (findKey_Some maxCap t key n out Hn) in Hout. cbv zeta in Hout.
  assert (Hw : 0 <= (if n =? 0 then defaultLookupSize else n) < 2 ^ 63).
  { unfold defaultLookupSize. destruct (n =? 0); lia. }
  revert Hout Hshort Hw. generalize (if n =? 0 then defaultLookupSize else n).
  intros w Hout Hshort Hw.
  rewrite Hout in Hshort |- *.
  assert (Hk : (length (map pi_hashname
     (take (Z.to_nat w) (sort_peerInfoByDistance
        (map (with_key_distance key) (findKey_gather t key w))))) < Z.to_nat w)%nat)
    by lia.
  destruct (untrimmed_all key _ _ h Hk) as [HlenG Hall].
  apply Hall.
  apply (info_names _ p h E).
  apply (findKey_gather_all t key w) with (i := Z.of_nat i).
  - rewrite (int_of_uint_small w Hw). lia.
  - change numBuckets with 256. change (Z.to_nat numBuckets) with 256%nat in Hi. lia.
  - rewrite Hat. apply bucket_peerInfos_has. exact Hp.
Qed.

Lemma findKey_short_is_all_witness :
  findKey (2 ^ 32) sample_table 4 10 = Some [5; 1; 2] /\
  forall h, h ∈ [5; 1; 2] <->
            exists b, b ∈ buckets sample_table /\ h ∈ peer_names b.
Proof.
  assert (E : findKey (2 ^ 32) sample_table 4 10 = Some [5; 1; 2])
    by (vm_compute; reflexivity).
  split; [exact E|].
  apply (findKey_short_is_all (2 ^ 32) 0
           [OpActivatePeer 1 11; OpActivatePeer 2 12; OpActivatePeer 5 15] 4 10
           [5; 1; 2]).
  - lia.
  - exact E.
  - vm_compute. reflexivity.
Defined.

(** **** Lookups return activated hashnames only *)

Lemma set_bucket_elem t idx b' b0 :
  b0 ∈ buckets (set_bucket t idx b') -> b0 = b' \/ b0 ∈ buckets t.
Proof.
  unfold set_bucket. cbn [buckets]. intros Hb0.
  apply list_elem_of_lookup in Hb0 as [i Hi].
  apply list_lookup_insert_Some in Hi as [(_ & <- & _)|(_ & Hi)]; [left; reflexivity|].
  right. apply list_elem_of_lookup. eauto.
Qed.

Lemma bucket_at_active t idx h :
  h ∈ peer_names (bucket_at t idx) -> active t h.
Proof.
  intros Hh. destruct (peer_names_inv _ _ Hh) as (p & -> & Hp).
  destruct (bucket_at_peers t idx p Hp) as (b & Hb & Hpb).
  exists b. split; [exact Hb|].
  unfold peer_names. apply list_elem_of_fmap. exists p. auto.
Qed.

Lemma set_bucket_active t idx b' h :
  (h ∈ peer_names b' -> active t h) ->
  active (set_bucket t idx b') h -> active t h.
Proof.
  intros Hnew (b0 & Hb0 & Hh).
  apply set_bucket_elem in Hb0 as [->|Hb0]; [auto|].
  exists b0. auto.
Qed.

Lemma activatePeer_active t hn tg h :
  active (fst (activatePeer t hn tg)) h -> active t h \/ h = hn.
Proof.
  unfold activatePeer.
  destruct (_ <? 0); [cbn [fst]; auto|].
  cbv zeta. cbn [peers candidates pending bucket_id].
  set (b := bucket_at t _).
  destruct (swap_tag hn tg (peers b)) as [[ps old]|] eqn:Hs.
  - destruct (swap_tag_Some hn tg (peers b) ps old Hs) as (Hn & _).
    cbn [fst]. intros H. left. revert H. apply set_bucket_active.
    unfold peer_names. cbn [peers]. rewrite Hn. apply bucket_at_active.
  - destruct (_ <=? _)%nat; cbn [fst].
    + intros H. left. revert H. apply set_bucket_active.
      unfold peer_names. cbn [peers]. apply bucket_at_active.
    + intros (b0 & Hb0 & Hh).
      apply set_bucket_elem in Hb0 as [->|Hb0]; [|left; exists b0; auto].
      unfold peer_names in Hh. cbn [peers] in Hh. rewrite map_app in Hh.
      apply elem_of_app in Hh as [Hh|Hh].
      * left. apply (bucket_at_active t _ h Hh).
      * right. simpl in Hh. apply list_elem_of_singleton in Hh. exact Hh.
Qed.

Lemma deactivatePeer_active t hn h :
  active (fst (deactivatePeer t hn)) h -> active t h.
Proof.
  unfold deactivatePeer.
  destruct (_ <? 0); [cbn [fst]; auto|].
  cbv zeta. set (b := bucket_at t _).
  pose proof (remove_peer_names_sublist hn (peers b)) as Hsub.
  destruct (remove_peer hn (peers b)) as [ps rel]. cbn [fst] in *.
  apply set_bucket_active. unfold peer_names. cbn [peers].
  intros Hh.
  apply (bucket_at_active t (bucketFromDistance (distance (localHashname t) hn)) h).
  unfold peer_names. fold b.
  eapply sublist_subseteq; [exact Hsub|exact Hh].
Qed.

Lemma addCandidate_active t hn router h :
  active (addCandidate t hn router) h -> active t h.
Proof.
  unfold addCandidate.
  destruct (_ <? 0); [auto|]. cbv zeta.
  destruct (existsb _ (peers _)); [auto|].
  destruct (existsb _ (pending _)); [auto|].
  destruct (update_candidate _ _ _).
  - apply set_bucket_active. unfold peer_names. cbn [peers]. apply bucket_at_active.
  - destruct (_ <? _)%nat; [|auto].
    apply set_bucket_active. unfold peer_names. cbn [peers]. apply bucket_at_active.
Qed.

Lemma nextCandidate_scan_peers bs :
  map peers (fst (nextCandidate_scan bs)) = map peers bs.
Proof.
  induction bs as [|b bs IH]; simpl; [reflexivity|].
  destruct (_ =? _)%nat.
  - destruct (nextCandidate_scan bs) as [bs' r]. simpl in *. rewrite IH. reflexivity.
  - destruct (candidates b).
    + destruct (nextCandidate_scan bs) as [bs' r]. simpl in *. rewrite IH. reflexivity.
    + reflexivity.
Qed.

Lemma active_by_peers t t' h :
  map peers (buckets t') = map peers (buckets t) -> active t' h -> active t h.
Proof.
  intros E (b & Hb & Hh).
  assert (Hin : peers b ∈ map peers (buckets t)).
  { rewrite <- E. apply list_elem_of_fmap. exists b. auto. }
  apply list_elem_of_fmap in Hin as (b0 & E0 & Hb0).
  exists b0. split; [exact Hb0|]. unfold peer_names in *. rewrite <- E0. exact Hh.
Qed.

Lemma nextCandidate_active t h :
  active (fst (nextCandidate t)) h -> active t h.
Proof.
  apply active_by_peers. unfold nextCandidate.
  pose proof (nextCandidate_scan_peers (buckets t)) as E.
  destruct (nextCandidate_scan (buckets t)) as [bs r]. exact E.
Qed.

Lemma apply_op_active t op h :
  active (apply_op t op) h -> active t h \/ exists tg, op = OpActivatePeer h tg.
Proof.
  destruct op as [hn tg|hn|hn router|]; simpl; intros H.
  - apply activatePeer_active in H as [H| ->]; [auto|eauto].
  - left. exact (deactivatePeer_active t hn h H).
  - left. exact (addCandidate_active t hn router h H).
  - left. exact (nextCandidate_active t h H).
Qed.

Lemma run_ops_active t ops h :
  active (run_ops t ops) h -> active t h \/ exists tg, OpActivatePeer h tg ∈ ops.
Proof.
  revert t. induction ops as [|op ops IH]; intros t; simpl; [auto|].
  intros H. apply IH in H as [H|(tg & H)].
  - apply apply_op_active in H as [H|(tg & ->)]; [auto|].
    right. exists tg. apply list_elem_of_here.
  - right. exists tg. apply list_elem_of_further. exact H.
Qed.

Lemma init_not_active local h : ~ active (init local) h.
Proof.
  intros (b & Hb & Hh). unfold init in Hb. cbn [buckets] in Hb.
  apply list_elem_of_fmap in Hb as (i & -> & _). inversion Hh.
Qed.

Lemma run_ops_app t ops1 ops2 :
  run_ops t (ops1 ++ ops2) = run_ops (run_ops t ops1) ops2.
Proof. unfold run_ops. apply fold_left_app. Qed.

(** X9 (lookups and history).  A hashname returned by a lookup on the
    table reached from [init] by a sequence of calls is not the local
    hashname, was passed to [activatePeer] in that sequence, and after
    each [deactivatePeer] of it in the sequence was passed to
    [activatePeer] again. *)
Theorem findKey_only_activated maxCap local ops key n out :
  findKey maxCap (run_ops (init local) ops) key n = Some out ->
  forall h, h ∈ out ->
    h <> local /\
    (exists tg, OpActivatePeer h tg ∈ ops) /\
    (forall before after, ops = before ++ OpDeactivatePeer h :: after ->
       exists tg, OpActivatePeer h tg ∈ after).
Proof.
  intros Hout h Hh.
  assert (Hact : active (run_ops (init local) ops) h)
    by exact (findKey_out_from_peers maxCap _ key n out Hout h Hh).
  clear Hout Hh. split; [|split].
  - destruct Hact as (b & Hb & Hpb).
    destruct (reachable_ok local ops) as [Hok Hl].
    apply list_elem_of_lookup in Hb as [i Hb].
    assert (Hst : h ∈ stored_names b)
      by (unfold stored_names; apply elem_of_app; left; exact Hpb).
    pose proof (not_stored_elsewhere _ i b h Hok Hb Hst) as Hidx.
    rewrite Hl in Hidx. apply (bucketFromDistance_stored local h). lia.
  - apply run_ops_active in Hact as [H|H]; [|exact H].
    exfalso. exact (init_not_active local h H).
  - intros before after ->.
    rewrite run_ops_app in Hact. simpl in Hact.
    apply run_ops_active in Hact as [H|H]; [|exact H].
    exfalso.
    destruct (reachable_ok local before) as [Hok _].
    pose proof (deactivatePeer_forgets_ok _ h Hok) as Hf.
    destruct H as (b & Hb & Hpb).
    rewrite Forall_forall in Hf. apply (Hf b Hb).
    unfold stored_names. apply elem_of_app. left. exact Hpb.
Qed.

Lemma findKey_only_activated_witness :
  findKey (2 ^ 32) sample_table 4 10 = Some [5; 1; 2] /\
  exists tg,
    OpActivatePeer 5 tg
      ∈ [OpActivatePeer 1 11; OpActivatePeer 2 12; OpActivatePeer 5 15].
Proof.
  assert (E : findKey (2 ^ 32) sample_table 4 10 = Some [5; 1; 2])
    by (vm_compute; reflexivity).
  split; [exact E|].
  apply (findKey_only_activated (2 ^ 32) 0
           [OpActivatePeer 1 11; OpActivatePeer 2 12; OpActivatePeer 5 15] 4 10
           [5; 1; 2] E 5).
  apply list_elem_of_here.
Defined.

(** **** The candidate handed out by nextCandidate *)

Lemma nextCandidate_scan_spec bs :
  match snd (nextCandidate_scan bs) with
  | None => Forall passed_over bs /\ fst (nextCandidate_scan bs) = bs
  | Some c =>
    exists i b cs,
      bs !! i = Some b /\
      Forall passed_over (take i bs) /\
      (length (peers b) + length (pending b))%nat <> maxPeers /\
      candidates b = c :: cs /\
      fst (nextCandidate_scan bs) =
        <[i := Bucket (bucket_id b) (peers b) cs (pending b ++ [c])]> bs
  end.
Proof.
  induction bs as [|b bs IH]; simpl; [split; [constructor|reflexivity]|].
  destruct (Nat.eqb_spec (length (peers b) + length (pending b)) maxPeers)
    as [Hfull|Hroom].
  - destruct (nextCandidate_scan bs) as [bs' [c|]]; simpl in *.
    + destruct IH as (i & b0 & cs & Hb0 & Hpre & Hr & Hc & E).
      exists (S i), b0, cs. simpl. repeat split; try assumption.
      * constructor; [left; exact Hfull|exact Hpre].
      * rewrite E. reflexivity.
    + destruct IH as [Hall E]. split.
      * constructor; [left; exact Hfull|exact Hall].
      * rewrite E. reflexivity.
  - destruct (candidates b) as [|c cs] eqn:Hcs.
    + destruct (nextCandidate_scan bs) as [bs' [c|]]; simpl in *.
      * destruct IH as (i & b0 & cs & Hb0 & Hpre & Hr & Hc & E).
        exists (S i), b0, cs. simpl. repeat split; try assumption.
        -- constructor; [right; exact Hcs|exact Hpre].
        -- rewrite E. reflexivity.
      * destruct IH as [Hall E]. split.
        -- constructor; [right; exact Hcs|exact Hall].
        -- rewrite E. reflexivity.
    + simpl. exists 0%nat, b, cs. simpl.
      repeat split; try assumption; constructor.
Qed.

Lemma nextCandidate_spec t :
  match snd (nextCandidate t) with
  | None => Forall passed_over (buckets t) /\ fst (nextCandidate t) = t
  | Some c =>
    exists i b cs,
      buckets t !! i = Some b /\
      Forall passed_over (take i (buckets t)) /\
      (length (peers b) + length (pending b))%nat <> maxPeers /\
      candidates b = c :: cs /\
      fst (nextCandidate t) =
        Table (localHashname t)
          (<[i := Bucket (bucket_id b) (peers b) cs (pending b ++ [c])]> (buckets t))
  end.
Proof.
  unfold nextCandidate.
  pose proof (nextCandidate_scan_spec (buckets t)) as H.
  destruct (nextCandidate_scan (buckets t)) as [bs [c|]]; simpl in *.
  - destruct H as (i & b & cs & Hb & Hpre & Hr & Hc & ->).
    exists i, b, cs. auto.
  - destruct H as [Hall ->]. split; [exact Hall|]. destruct t; reflexivity.
Qed.

(** X10 (candidate selection).  [nextCandidate] returns nothing exactly
    when every bucket is passed over (active plus pending entries number
    [maxPeers], or no candidate), and then leaves the table as it is;
    otherwise it returns the head of the candidate list of the first
    bucket, in index order, that is not passed over, removes it from that
    list and appends it to the pending list of the same bucket, and
    changes nothing else. *)
Theorem nextCandidate_first_eligible t :
  match snd (nextCandidate t) with
  | None => Forall passed_over (buckets t) /\ fst (nextCandidate t) = t
  | Some c =>
    exists i b cs,
      buckets t !! i = Some b /\
      Forall passed_over (take i (buckets t)) /\
      ~ passed_over b /\
      candidates b = c :: cs /\
      fst (nextCandidate t) =
        Table (localHashname t)
          (<[i := Bucket (bucket_id b) (peers b) cs (pending b ++ [c])]> (buckets t))
  end.
Proof.
  pose proof (nextCandidate_spec t) as H.
  destruct (snd (nextCandidate t)) as [c|]; [|exact H].
  destruct H as (i & b & cs & Hb & Hpre & Hr & Hc & E).
  exists i, b, cs. repeat split; try assumption.
  intros [Hfull|Hnil]; [contradiction|congruence].
Qed.

(** X11 (a candidate is handed out once).  On a table reached from
    [init], the candidate returned by [nextCandidate] is pending
    afterwards and a candidate of no bucket, so that the next call of
    [nextCandidate] returns a candidate with another hashname. *)
Theorem nextCandidate_no_repeat local ops c :
  let t := run_ops (init local) ops in
  let t1 := fst (nextCandidate t) in
  snd (nextCandidate t) = Some c ->
  (exists b, b ∈ buckets t1 /\ cp_hashname c ∈ pending_names b) /\
  Forall (fun b => cp_hashname c ∉ candidate_names b) (buckets t1) /\
  (forall c', snd (nextCandidate t1) = Some c' -> cp_hashname c' <> cp_hashname c).
Proof.
  intros t t1 Hc.
  destruct (reachable_ok local ops) as [Hok _]. fold t in Hok.
  pose proof (nextCandidate_ok t Hok) as Hok1. fold t1 in Hok1.
  pose proof (nextCandidate_spec t) as H. rewrite Hc in H.
  destruct H as (i & b & cs & Hb & _ & _ & Hcs & E). fold t1 in E.
  set (b1 := Bucket (bucket_id b) (peers b) cs (pending b ++ [c])) in *.
  assert (Hb1 : buckets t1 !! i = Some b1).
  { rewrite E. cbn [buckets]. apply list_lookup_insert_eq.
    eapply lookup_lt_Some. exact Hb. }
  assert (Hpend : cp_hashname c ∈ pending_names b1).
  { unfold pending_names, b1. cbn [pending]. rewrite map_app.
    apply elem_of_app. right. apply list_elem_of_here. }
  assert (Hnone : Forall (fun b => cp_hashname c ∉ candidate_names b) (buckets t1)).
  { apply Forall_lookup. intros j b0 Hb0 Hin.
    assert (Hs0 : cp_hashname c ∈ stored_names b0).
    { unfold stored_names. rewrite !elem_of_app. auto. }
    assert (Hs1 : cp_hashname c ∈ stored_names b1).
    { unfold stored_names. rewrite !elem_of_app. auto. }
    pose proof (not_stored_elsewhere t1 j b0 _ Hok1 Hb0 Hs0) as Hj.
    pose proof (not_stored_elsewhere t1 i b1 _ Hok1 Hb1 Hs1) as Hi.
    assert (j = i) by lia. subst j.
    assert (b0 = b1) by congruence. subst b0.
    destruct (table_ok_lookup t1 i b1 Hok1 Hb1) as (_ & Hbok & _).
    destruct Hbok as (_ & _ & _ & _ & Hnd & _).
    apply NoDup_app in Hnd as (_ & Hdisj & _).
    exact (Hdisj _ Hin Hpend). }
  split; [exists b1; split; [apply list_elem_of_lookup; eauto|exact Hpend]|].
  split; [exact Hnone|].
  intros c' Hc' Heq.
  pose proof (nextCandidate_spec t1) as H'. rewrite Hc' in H'.
  destruct H' as (j & b' & cs' & Hb' & _ & _ & Hcs' & _).
  rewrite Forall_forall in Hnone. apply (Hnone b').
  - apply list_elem_of_lookup. eauto.
  - unfold candidate_names. rewrite Hcs'. simpl. rewrite Heq. apply list_elem_of_here.
Qed.

Lemma nextCandidate_no_repeat_witness :
  let t := run_ops (init 0) [OpAddCandidate 1 2; OpAddCandidate 3 2] in
  let c := CandidatePeer (PeerInfo 254 3 3) [2] in
  snd (nextCandidate t) = Some c /\
  forall c', snd (nextCandidate (fst (nextCandidate t))) = Some c' ->
             cp_hashname c' <> 3.
Proof.
  intros t c.
  assert (E : snd (nextCandidate t) = Some c) by (vm_compute; reflexivity).
  split; [exact E|].
  exact (proj2 (proj2 (nextCandidate_no_repeat 0
           [OpAddCandidate 1 2; OpAddCandidate 3 2] c E))).
Defined.

(** **** What addCandidate leaves behind *)

Lemma existsb_true_names {A} (name : A -> hashname) hn (l : list A) :
  existsb (fun x => name x =? hn) l = true -> hn ∈ map name l.
Proof.
  induction l as [|x l IH]; simpl; [discriminate|].
  destruct (Z.eqb_spec (name x) hn) as [E|Hne]; simpl.
  - intros _. rewrite E. apply list_elem_of_here.
  - intros H. apply list_elem_of_further, IH, H.
Qed.

Lemma update_candidate_has hn router l cs :
  update_candidate hn router l = Some cs -> hn ∈ map cp_hashname l.
Proof.
  revert cs. induction l as [|c l IH]; intros cs; simpl; [discriminate|].
  destruct (Z.eqb_spec (cp_hashname c) hn) as [E|Hne].
  - intros _. rewrite E. apply list_elem_of_here.
  - destruct (update_candidate hn router l) as [l'|]; [|discriminate].
    intros _. apply list_elem_of_further. exact (IH l' eq_refl).
Qed.

(** X12 (learning a candidate).  [addCandidate] on a table reached from
    [init], for a hashname other than the local one, never touches the
    active and pending lists; it leaves the table as it is when the
    hashname is active or pending; otherwise it keeps the candidate
    hashnames when the hashname is already a candidate, appends a new
    candidate with the given router as its only router when the bucket
    has fewer than [maxCandidates] candidates, and leaves the table as it
    is when the bucket is full.  No other bucket changes. *)
Theorem addCandidate_result local ops hn router :
  let t := run_ops (init local) ops in
  let idx := bucketFromDistance (distance local hn) in
  let b := bucket_at t idx in
  let t' := addCandidate t hn router in
  let b' := bucket_at t' idx in
  0 <= idx ->
  peers b' = peers b /\ pending b' = pending b /\
  (hn ∈ peer_names b \/ hn ∈ pending_names b -> t' = t) /\
  (hn ∉ peer_names b -> hn ∉ pending_names b ->
     (hn ∈ candidate_names b ->
        candidate_names b' = candidate_names b) /\
     (hn ∉ candidate_names b -> (length (candidates b) < maxCandidates)%nat ->
        candidates b' =
          candidates b ++
            [CandidatePeer (PeerInfo idx (distance local hn) hn) [router]]) /\
     (hn ∉ candidate_names b -> (maxCandidates <= length (candidates b))%nat ->
        t' = t)) /\
  (forall i, Z.to_nat i <> Z.to_nat idx -> bucket_at t' i = bucket_at t i).
Proof.
  intros t idx b t' b' Hge.
  destruct (reachable_ok local ops) as [Hok Hl]. fold t in Hok, Hl.
  pose proof (table_ok_length t Hok) as Hlen.
  assert (Hi : 0 <= idx < numBuckets)
    by (split; [exact Hge|apply bucketFromDistance_lt]).
  assert (Hother : forall x i, Z.to_nat i <> Z.to_nat idx ->
            bucket_at (set_bucket t idx x) i = bucket_at t i).
  { intros x i Hne. unfold bucket_at, set_bucket. cbn [buckets].
    apply list_lookup_total_insert_ne. congruence. }
  assert (Hsame : forall x, bucket_at (set_bucket t idx x) idx = x).
  { intros x. apply bucket_at_set_bucket. lia. }
  unfold b', t', addCandidate. rewrite Hl. fold idx.
  destruct (Z.ltb_spec idx 0) as [|_]; [lia|].
  cbv zeta. fold b.
  destruct (existsb (fun p => ap_hashname p =? hn) (peers b)) eqn:Hep.
  { pose proof (existsb_true_names ap_hashname hn _ Hep) as Hin.
    fold b. split; [reflexivity|]. split; [reflexivity|].
    split; [intros _; reflexivity|]. split; [|intros i _; reflexivity].
    intros Hnp. contradiction. }
  pose proof (existsb_names ap_hashname hn _ Hep) as Hnp.
  destruct (existsb (fun c => cp_hashname c =? hn) (pending b)) eqn:Hepd.
  { pose proof (existsb_true_names cp_hashname hn _ Hepd) as Hin.
    fold b. split; [reflexivity|]. split; [reflexivity|].
    split; [intros _; reflexivity|]. split; [|intros i _; reflexivity].
    intros _ Hnpd. contradiction. }
  pose proof (existsb_names cp_hashname hn _ Hepd) as Hnpd.
  destruct (update_candidate hn router (candidates b)) as [cs|] eqn:Hu.
  - destruct (update_candidate_Some hn router _ cs Hu) as (Hn & Hlc & _).
    rewrite Hsame. cbn [peers candidates pending].
    split; [reflexivity|]. split; [reflexivity|].
    split; [intros [Hin|Hin]; contradiction|]. split.
    + intros _ _. split; [intros _; exact Hn|].
      pose proof (update_candidate_has hn router _ cs Hu) as Hin.
      split; intros Hnin; contradiction.
    + intros i Hne. apply Hother. exact Hne.
  - pose proof (update_candidate_None hn router _ Hu) as Hnc.
    destruct (Nat.ltb_spec (length (candidates b)) maxCandidates) as [Hroom|Hfull].
    + rewrite Hsame. cbn [peers candidates pending].
      split; [reflexivity|]. split; [reflexivity|].
      split; [intros [Hin|Hin]; contradiction|]. split.
      * intros _ _. split; [intros Hin; contradiction|].
        split; [intros _ _; reflexivity|intros _ Hle; lia].
      * intros i Hne. apply Hother. exact Hne.
    + fold b. split; [reflexivity|]. split; [reflexivity|].
      split; [intros [Hin|Hin]; contradiction|]. split.
      * intros _ _. split; [intros Hin; contradiction|].
        split; [intros _ Hlt; lia|intros _ _; reflexivity].
      * intros i Hne. reflexivity.
Qed.

Lemma addCandidate_result_witness :
  let b := bucket_at sample_table 252 in
  let b' := bucket_at (addCandidate sample_table 9 7) 252 in
  peers b' = peers b /\ pending b' = pending b /\
  candidates b' = candidates b ++ [CandidatePeer (PeerInfo 252 9 9) [7]].
Proof.
  intros b b'.
  destruct (addCandidate_result 0
              [OpActivatePeer 1 11; OpActivatePeer 2 12; OpActivatePeer 5 15] 9 7)
    as (Hp & Hpd & _ & Hnew & _).
  - vm_compute. discriminate.
  - split; [exact Hp|]. split; [exact Hpd|].
    destruct Hnew as (_ & Hadd & _).
    + refine (bool_decide_unpack _ _); vm_compute; exact I.
    + refine (bool_decide_unpack _ _); vm_compute; exact I.
    + apply Hadd.
      * refine (bool_decide_unpack _ _); vm_compute; exact I.
      * vm_compute. lia.
Defined.

End TableFacts.

(** *** The plain codec reads back what it writes *)
Module CodecFacts.
Import Telehash.
Import Stdlib.Init.Byte.

Lemma plain_not_quote b : plain_byte b = true -> Byte.eqb b x22 = false.
Proof.
  intros Hb. destruct b; try reflexivity. vm_compute in Hb. discriminate Hb.
Qed.

Lemma read_plain_app bs rest :
  forallb plain_byte bs = true ->
  read_plain (bs ++ x22 :: rest) = Some (bs, rest).
Proof.
  induction bs as [|b bs IH]; simpl; [reflexivity|].
  intros Hb. apply andb_true_iff in Hb as [Hb Hbs].
  rewrite (plain_not_quote b Hb), Hb, (IH Hbs). reflexivity.
Qed.

Lemma parse_string_enc s vb rest :
  enc_string s = Some vb -> parse_string (vb ++ rest) = Some (s, rest).
Proof.
  unfold enc_string.
  destruct (forallb plain_byte (String.list_byte_of_string s)) eqn:Hp;
    [|discriminate].
  intros [= <-]. simpl. rewrite <- app_assoc. simpl.
  rewrite (read_plain_app _ _ Hp), String.string_of_list_byte_of_string.
  reflexivity.
Qed.

Lemma enc_string_starts s vb : enc_string s = Some vb -> starts_value vb = true.
Proof.
  unfold enc_string. destruct (forallb _ _); [|discriminate].
  intros [= <-]. reflexivity.
Qed.

(** Digits *)
Lemma read_digits_no_digit rest :
  no_digit rest -> read_digits rest = (Decimal.Nil, rest).
Proof. destruct rest as [|b r]; simpl; [reflexivity|]. intros ->. reflexivity. Qed.

Lemma read_digits_app u rest :
  no_digit rest -> read_digits (bytes_of_uint u ++ rest) = (u, rest).
Proof.
  intros Hr. induction u; simpl; try (rewrite IHu; reflexivity).
  apply read_digits_no_digit, Hr.
Qed.

Lemma delim_no_digit rest : delim rest -> no_digit rest /\ integral rest = true.
Proof. intros [[r ->]|[[r ->]|[r ->]]]; split; reflexivity. Qed.

Lemma to_uint_canonical p : canonical (Pos.to_uint p) = true.
Proof.
  pose proof (DecimalPos.Unsigned.to_uint_nonnil p) as Hnil.
  pose proof (DecimalPos.Unsigned.to_uint_nonzero p) as Hz.
  assert (Hn : Decimal.unorm (Pos.to_uint p) = Pos.to_uint p).
  { rewrite <- (DecimalPos.Unsigned.to_of (Pos.to_uint p)).
    rewrite DecimalPos.Unsigned.of_to. reflexivity. }
  destruct (Pos.to_uint p) as [|u| | | | | | | | | ] eqn:E; try reflexivity.
  - contradiction.
  - destruct u; try reflexivity; exfalso.
    all: unfold Decimal.unorm in Hn; rewrite DecimalFacts.nzhead_D0 in Hn.
    all: match type of Hn with
         | match ?x with _ => _ end = _ => destruct x eqn:Ex
         end; try discriminate Hn;
         try (rewrite <- Ex in Hn; exact (DecimalFacts.nzhead_nonzero _ _ Hn)).
Qed.

Lemma bytes_of_uint_starts u rest :
  u <> Decimal.Nil -> starts_value (bytes_of_uint u ++ rest) = true.
Proof. destruct u; [contradiction|..]; reflexivity. Qed.

Lemma parse_int_unsigned u rest :
  u <> Decimal.Nil ->
  parse_int (bytes_of_uint u ++ rest) = finish_int false (bytes_of_uint u ++ rest).
Proof. destruct u; [contradiction|..]; reflexivity. Qed.

Lemma parse_int_signed bs : parse_int (x2d :: bs) = finish_int true bs.
Proof. reflexivity. Qed.

Lemma finish_int_digits (sgn : bool) u rest :
  canonical u = true -> delim rest ->
  in_int64 (Z.of_int (if sgn then Decimal.Neg u else Decimal.Pos u)) = true ->
  finish_int sgn (bytes_of_uint u ++ rest)
  = Some (Z.of_int (if sgn then Decimal.Neg u else Decimal.Pos u), rest).
Proof.
  intros Hc Hd Hr. destruct (delim_no_digit rest Hd) as [Hn Hi].
  unfold finish_int. rewrite (read_digits_app u rest Hn).
  rewrite Hc, Hi, Hr. reflexivity.
Qed.

Lemma parse_int_enc z vb rest :
  enc_int z = Some vb -> delim rest -> parse_int (vb ++ rest) = Some (z, rest).
Proof.
  unfold enc_int. destruct (in_int64 z) eqn:Hr; [|discriminate].
  intros [= <-] Hd. rewrite <- (DecimalZ.of_to z) in Hr.
  rewrite <- (DecimalZ.of_to z) at 2.
  destruct z as [|p|p]; simpl Z.to_int in *; cbv iota beta.
  - rewrite (parse_int_unsigned Decimal.zero rest) by discriminate.
    exact (finish_int_digits false Decimal.zero rest eq_refl Hd Hr).
  - rewrite parse_int_unsigned by apply DecimalPos.Unsigned.to_uint_nonnil.
    exact (finish_int_digits false _ rest (to_uint_canonical p) Hd Hr).
  - change ((x2d :: bytes_of_uint (Pos.to_uint p)) ++ rest)
      with (x2d :: (bytes_of_uint (Pos.to_uint p) ++ rest)).
    rewrite parse_int_signed.
    exact (finish_int_digits true _ rest (to_uint_canonical p) Hd Hr).
Qed.

Lemma enc_int_starts z vb : enc_int z = Some vb -> starts_value vb = true.
Proof.
  unfold enc_int. destruct (in_int64 z); [|discriminate]. intros [= <-].
  destruct z as [|p|p]; simpl Z.to_int; cbv iota beta; try reflexivity.
  pose proof (bytes_of_uint_starts (Pos.to_uint p) []
                (DecimalPos.Unsigned.to_uint_nonnil p)) as Hs.
  rewrite app_nil_r in Hs. exact Hs.
Qed.

(** Arrays *)
Lemma skip_ws_starts bs rest :
  starts_value bs = true -> skip_ws (bs ++ rest) = bs ++ rest.
Proof.
  destruct bs as [|b bs]; [discriminate|]. simpl.
  intros Hb. apply andb_true_iff in Hb as [Hb _].
  destruct (is_ws b); [discriminate|reflexivity].
Qed.

Lemma starts_not_close bs rest :
  starts_value bs = true -> closes_array (bs ++ rest) = None.
Proof.
  destruct bs as [|b bs]; [discriminate|]. simpl.
  intros Hb. apply andb_true_iff in Hb as [_ Hb].
  destruct b; try reflexivity. discriminate Hb.
Qed.

Lemma traverse_length {A B} (f : A -> option B) l parts :
  traverse f l = Some parts -> length parts = length l.
Proof.
  revert parts. induction l as [|x l IH]; intros parts; simpl.
  - intros [= <-]. reflexivity.
  - destruct (f x); [|discriminate].
    destruct (traverse f l); [|discriminate].
    intros [= <-]. simpl. rewrite (IH _ eq_refl). reflexivity.
Qed.

Lemma join_length sep parts :
  Forall (fun bs => starts_value bs = true) parts ->
  (length parts <= length (join sep parts))%nat.
Proof.
  induction 1 as [|bs parts Hbs Hall IH]; simpl; [lia|].
  destruct bs as [|b bs]; [discriminate|].
  destruct parts as [|bs' parts]; simpl in *; [lia|].
  rewrite !length_app. simpl in IH. lia.
Qed.

Lemma traverse_starts {A} (f : A -> option (list byte)) l parts :
  (forall x vb, f x = Some vb -> starts_value vb = true) ->
  traverse f l = Some parts ->
  Forall (fun bs => starts_value bs = true) parts.
Proof.
  intros Hst. revert parts. induction l as [|x l IH]; intros parts; simpl.
  - intros [= <-]. constructor.
  - destruct (f x) eqn:Hx; [|discriminate].
    destruct (traverse f l); [|discriminate].
    intros [= <-]. constructor; [exact (Hst x _ Hx)|apply IH; reflexivity].
Qed.

Section Arrays.
Context {A : Type} (f : A -> option (list byte))
  (p : list byte -> option (A * list byte)).
Hypothesis p_f : forall x vb rest,
  f x = Some vb -> delim rest -> p (vb ++ rest) = Some (x, rest).
Hypothesis f_starts : forall x vb, f x = Some vb -> starts_value vb = true.

Lemma parse_elems_enc l parts fuel rest :
  traverse f l = Some parts -> l <> [] -> (length l <= fuel)%nat ->
  parse_elems p fuel (join [x2c] parts ++ x5d :: rest) = Some (l, rest).
Proof.
  revert parts fuel. induction l as [|x l IH]; intros parts fuel Ht Hne Hf;
    [contradiction|].
  simpl in Ht. destruct (f x) as [vb|] eqn:Hx; [|discriminate].
  destruct (traverse f l) as [parts'|] eqn:Hl; [|discriminate].
  injection Ht as <-.
  destruct fuel as [|fuel]; [simpl in Hf; lia|].
  destruct l as [|y l].
  - injection Hl as <-. simpl.
    rewrite (skip_ws_starts _ _ (f_starts x vb Hx)).
    rewrite (p_f x vb (x5d :: rest) Hx) by (right; left; eauto).
    reflexivity.
  - assert (Hj : join [x2c] (vb :: parts') ++ x5d :: rest =
                 vb ++ x2c :: (join [x2c] parts' ++ x5d :: rest)).
    { simpl in Hl. destruct (f y); [|discriminate].
      destruct (traverse f l); [|discriminate]. injection Hl as <-.
      simpl. rewrite <- !app_assoc. reflexivity. }
    rewrite Hj. simpl parse_elems.
    rewrite (skip_ws_starts _ _ (f_starts x vb Hx)).
    rewrite (p_f x vb _ Hx) by (left; eauto).
    simpl skip_ws. cbv iota beta.
    rewrite (IH parts' fuel eq_refl) by (simpl in *; (discriminate || lia)).
    reflexivity.
Qed.

Lemma parse_array_enc l vb rest :
  enc_array f l = Some vb -> parse_array p (vb ++ rest) = Some (l, rest).
Proof.
  unfold enc_array. destruct (traverse f l) as [parts|] eqn:Ht; [|discriminate].
  intros [= <-]. simpl. rewrite <- app_assoc. simpl.
  destruct l as [|x l].
  - injection Ht as <-. reflexivity.
  - pose proof (traverse_starts f _ _ f_starts Ht) as Hall.
    pose proof (traverse_length f _ _ Ht) as Hlen.
    pose proof (join_length [x2c] parts Hall) as Hjl.
    assert (Hs : starts_value (join [x2c] parts) = true).
    { destruct parts as [|b0 parts]; [discriminate|].
      apply Forall_cons in Hall as [Hb0 _].
      destruct b0 as [|b b0]; [discriminate|].
      destruct parts; exact Hb0. }
    cbv zeta. rewrite (skip_ws_starts _ _ Hs).
    rewrite (starts_not_close _ _ Hs).
    apply parse_elems_enc; [exact Ht|discriminate|].
    rewrite length_app. lia.
Qed.

End Arrays.

Lemma enc_array_starts {A} (f : A -> option (list byte)) l vb :
  enc_array f l = Some vb -> starts_value vb = true.
Proof.
  unfold enc_array. destruct (traverse f l); [|discriminate].
  intros [= <-]. reflexivity.
Qed.

(** Members *)
Lemma field_of_key_name key f : field_of_key key = Some f -> key = json_name f.
Proof.
  unfold field_of_key.
  repeat match goal with
         | |- context [String.eqb key ?name] =>
           destruct (String.eqb_spec key name) as [->|_];
             [intros [= <-]; reflexivity|]
         end.
  discriminate.
Qed.

Lemma json_name_plain f :
  forallb plain_byte (String.list_byte_of_string (json_name f)) = true.
Proof. destruct f; vm_compute; reflexivity. Qed.

Lemma enc_value_starts v vb : enc_value v = Some vb -> starts_value vb = true.
Proof.
  destruct v; simpl.
  - apply enc_string_starts.
  - apply enc_int_starts.
  - intros [= <-]. reflexivity.
  - apply enc_array_starts.
  - apply enc_array_starts.
Qed.

Lemma decode_assign f v vb rest h h' :
  enc_value v = Some vb -> assign_value f v h = Some h' -> delim rest ->
  decode_value f (vb ++ rest) h = Some (h', rest).
Proof.
  intros Hv Ha Hd.
  destruct f, v; try discriminate Ha; injection Ha as <-;
    cbn [enc_value] in Hv; unfold decode_value, store.
  all: first
    [ rewrite (parse_string_enc _ _ rest Hv); reflexivity
    | rewrite (parse_int_enc _ _ rest Hv Hd); reflexivity
    | rewrite (parse_array_enc enc_int parse_int parse_int_enc enc_int_starts
                 _ _ rest Hv); reflexivity
    | rewrite (parse_array_enc enc_string parse_string
                 (fun x vb r H _ => parse_string_enc x vb r H) enc_string_starts
                 _ _ rest Hv); reflexivity
    | injection Hv as <-; reflexivity ].
Qed.

(** One member, followed by a comma or the closing brace. *)
Lemma member_step m mb rest h h' :
  enc_member m = Some mb -> assign m h = Some h' -> delim rest ->
  exists r1,
    parse_string (skip_ws (mb ++ rest)) = Some (fst m, x3a :: r1) /\
    skip_ws r1 = r1 /\
    decode_field (fst m) r1 h = Some (h', rest).
Proof.
  destruct m as [key v]. unfold enc_member, assign, decode_field. simpl fst. simpl snd.
  destruct (enc_value v) as [vb|] eqn:Hv; [|discriminate].
  intros [= <-].
  destruct (field_of_key key) as [f|] eqn:Hf; [|discriminate].
  intros Ha Hd. exists (vb ++ rest).
  apply field_of_key_name in Hf. subst key.
  split; [|split].
  - change (parse_string
              (x22 :: (String.list_byte_of_string (json_name f) ++ [x22; x3a] ++ vb) ++ rest)
            = Some (json_name f, x3a :: vb ++ rest)).
    unfold parse_string. rewrite <- !app_assoc. simpl app.
    rewrite (read_plain_app _ _ (json_name_plain f)).
    rewrite String.string_of_list_byte_of_string. reflexivity.
  - apply skip_ws_starts, (enc_value_starts v). exact Hv.
  - apply (decode_assign f v); assumption.
Qed.

Lemma enc_member_starts m mb : enc_member m = Some mb -> starts_value mb = true.
Proof.
  unfold enc_member. destruct (enc_value (snd m)); [|discriminate].
  intros [= <-]. reflexivity.
Qed.

Lemma parse_members_enc ms parts fuel rest h h' :
  traverse enc_member ms = Some parts -> ms <> [] ->
  assign_all ms h = Some h' -> (length ms <= fuel)%nat ->
  parse_members fuel (join [x2c] parts ++ x7d :: rest) h = Some h'.
Proof.
  revert parts fuel h. induction ms as [|m ms IH]; intros parts fuel h Ht Hne Ha Hf;
    [contradiction|].
  simpl in Ht. destruct (enc_member m) as [mb|] eqn:Hm; [|discriminate].
  destruct (traverse enc_member ms) as [parts'|] eqn:Hms; [|discriminate].
  injection Ht as <-.
  simpl in Ha. destruct (assign m h) as [h1|] eqn:Hh1; [|discriminate].
  destruct fuel as [|fuel]; [simpl in Hf; lia|].
  destruct ms as [|m2 ms].
  - injection Hms as <-. simpl in Ha. injection Ha as <-.
    destruct (member_step m mb (x7d :: rest) h h1 Hm Hh1) as (r1 & Hk & Hs & Hd);
      [right; right; eauto|].
    simpl join. simpl parse_members. rewrite Hk. simpl skip_ws. cbv iota beta.
    rewrite Hs, Hd. reflexivity.
  - assert (Hj : join [x2c] (mb :: parts') ++ x7d :: rest =
                 mb ++ x2c :: (join [x2c] parts' ++ x7d :: rest)).
    { simpl in Hms. destruct (enc_member m2); [|discriminate].
      destruct (traverse enc_member ms); [|discriminate]. injection Hms as <-.
      simpl. rewrite <- !app_assoc. reflexivity. }
    rewrite Hj.
    destruct (member_step m mb (x2c :: (join [x2c] parts' ++ x7d :: rest)) h h1 Hm Hh1)
      as (r1 & Hk & Hs & Hd); [left; eauto|].
    simpl parse_members. rewrite Hk. simpl skip_ws. cbv iota beta.
    rewrite Hs, Hd. simpl skip_ws. cbv iota beta.
    apply IH; [reflexivity|discriminate|exact Ha|simpl in *; lia].
Qed.

(** The members of a header, decoded one after the other from the zero
    header, rebuild the header. *)
Lemma assign_all_app ms1 ms2 h :
  assign_all (ms1 ++ ms2) h =
  match assign_all ms1 h with
  | Some h' => assign_all ms2 h'
  | None => None
  end.
Proof.
  revert h. induction ms1 as [|m ms1 IH]; intros h; simpl; [reflexivity|].
  destruct (assign m h); [apply IH|reflexivity].
Qed.

Lemma str_piece k s h0 f (set : string -> pkt_hdr_t -> pkt_hdr_t) :
  field_of_key k = Some f ->
  (forall s, assign_value f (JString s) h0 = Some (set s h0)) ->
  set "" h0 = h0 ->
  assign_all (str_member k s) h0 = Some (set s h0).
Proof.
  intros Hf Hset H0. unfold str_member.
  destruct (String.eqb_spec s "") as [->|_]; simpl; [congruence|].
  unfold assign. simpl fst. simpl snd. rewrite Hf, Hset. reflexivity.
Qed.

Lemma int_piece k z h0 f (set : Z -> pkt_hdr_t -> pkt_hdr_t) :
  field_of_key k = Some f ->
  (forall z, assign_value f (JInt z) h0 = Some (set z h0)) ->
  set 0 h0 = h0 ->
  assign_all (int_member k z) h0 = Some (set z h0).
Proof.
  intros Hf Hset H0. unfold int_member.
  destruct (Z.eqb_spec z 0) as [->|_]; simpl; [congruence|].
  unfold assign. simpl fst. simpl snd. rewrite Hf, Hset. reflexivity.
Qed.

Lemma ack_piece a h0 :
  set_Ack None h0 = h0 ->
  assign_all (match a with Some a => [("ack", JInt a)] | None => [] end) h0
  = Some (set_Ack a h0).
Proof. intros H0. destruct a; simpl; [reflexivity|congruence]. Qed.

Lemma miss_piece m h0 :
  set_Miss None h0 = h0 ->
  assign_all (if (len m =? 0)%nat then [] else [("miss", JInts (elems m))]) h0
  = Some (set_Miss (norm_slice m) h0).
Proof. intros H0. destruct m as [[|x l]|]; simpl; congruence. Qed.

Lemma see_piece m h0 :
  set_See None h0 = h0 ->
  assign_all (if (len m =? 0)%nat then [] else [("see", JStrings (elems m))]) h0
  = Some (set_See (norm_slice m) h0).
Proof. intros H0. destruct m as [[|x l]|]; simpl; congruence. Qed.

Lemma end_piece (e : bool) h0 :
  set_End false h0 = h0 ->
  assign_all (if e then [("end", JTrue)] else []) h0 = Some (set_End e h0).
Proof. intros H0. destruct e; simpl; [reflexivity|congruence]. Qed.

Ltac piece :=
  match goal with
  | |- context [assign_all (str_member ?k ?s) ?h0] =>
    match eval vm_compute in (field_of_key k) with
    | Some ?f =>
      erewrite (str_piece k s h0 f _ eq_refl (fun _ => eq_refl) eq_refl)
    end
  | |- context [assign_all (int_member ?k ?z) ?h0] =>
    match eval vm_compute in (field_of_key k) with
    | Some ?f =>
      erewrite (int_piece k z h0 f _ eq_refl (fun _ => eq_refl) eq_refl)
    end
  | |- context [assign_all (match ?a with Some _ => _ | None => [] end) ?h0] =>
    rewrite (ack_piece a h0 eq_refl)
  | |- context [assign_all (if (len ?m =? 0)%nat then [] else [("miss", _)]) ?h0] =>
    rewrite (miss_piece m h0 eq_refl)
  | |- context [assign_all (if (len ?m =? 0)%nat then [] else [("see", _)]) ?h0] =>
    rewrite (see_piece m h0 eq_refl)
  | |- context [assign_all (if ?e then [("end", JTrue)] else []) ?h0] =>
    rewrite (end_piece e h0 eq_refl)
  end.

Lemma assign_hdr_members h :
  len (Custom h) = O ->
  assign_all (hdr_members h) zero_hdr = Some (omit_empty h).
Proof.
  intros Hc. unfold hdr_members.
  do 18 (rewrite assign_all_app; piece).
  piece.
  destruct h as [? ? ? ? ? ? ? ? ? ? ? ? ? ? ? ? ? ? ? cu]. simpl in Hc.
  unfold omit_empty. simpl.
  destruct cu as [[|x l]|]; simpl in Hc; [reflexivity|lia|reflexivity].
Qed.

Lemma members_not_closing ms parts rest :
  traverse enc_member ms = Some parts -> ms <> [] ->
  starts_value (join [x2c] parts) = true /\
  closes_object (join [x2c] parts ++ rest) = false.
Proof.
  destruct ms as [|m ms]; [contradiction|]. intros Ht _. simpl in Ht.
  unfold enc_member in Ht at 1.
  destruct (enc_value (snd m)) as [vb|]; [|discriminate].
  destruct (traverse enc_member ms) as [parts'|]; [|discriminate].
  injection Ht as <-. destruct parts'; split; reflexivity.
Qed.

(** The plain codec reads back what it writes, up to omitted fields. *)
Lemma plain_Decode_Encode h j :
  plain_Encode h = Ok j -> plain_Decode j zero_hdr = Ok (omit_empty h).
Proof.
  unfold plain_Encode.
  destruct (Nat.ltb_spec 0 (len (Custom h))) as [|Hc]; [discriminate|].
  destruct (traverse enc_member (hdr_members h)) as [parts|] eqn:Ht; [|discriminate].
  intros [= <-].
  assert (Hall : assign_all (hdr_members h) zero_hdr = Some (omit_empty h))
    by (apply assign_hdr_members; lia).
  unfold plain_Decode. simpl skip_ws. cbv iota beta zeta.
  revert Ht Hall. generalize (hdr_members h). intros [|m ms] Ht Hall.
  - injection Ht as <-. simpl in Hall. apply (inj Some) in Hall.
    rewrite <- Hall. reflexivity.
  - destruct (members_not_closing (m :: ms) parts [x7d; x0a] Ht) as [Hs Hcl];
      [discriminate|].
    rewrite (skip_ws_starts _ _ Hs), Hcl.
    rewrite (parse_members_enc (m :: ms) parts _ [x0a] zero_hdr (omit_empty h) Ht);
      [reflexivity|discriminate|exact Hall|].
    pose proof (traverse_length enc_member _ _ Ht) as Hlen.
    pose proof (join_length [x2c] parts
                  (traverse_starts enc_member _ _ enc_member_starts Ht)) as Hjl.
    rewrite length_app. lia.
Qed.

Lemma plain_Encode_length h j : plain_Encode h = Ok j -> (2 <= length j)%nat.
Proof.
  unfold plain_Encode. destruct (_ <? _)%nat; [discriminate|].
  destruct (traverse _ _); [|discriminate]. intros [= <-].
  simpl. rewrite length_app. simpl. lia.
Qed.

End CodecFacts.

(** *** Packet framing *)
Module PktFacts.
Import Telehash.
Import Stdlib.Init.Byte.

Lemma Z_of_byte_range b : 0 <= Z_of_byte b < 256.
Proof.
  unfold Z_of_byte. pose proof (Byte.to_N_bounded b). lia.
Qed.

Lemma Z_of_byte_of_Z v : Z_of_byte (byte_of_Z v) = v mod 256.
Proof.
  unfold Z_of_byte, byte_of_Z.
  assert (Hr : 0 <= v mod 256 < 256) by (apply Z.mod_pos_bound; lia).
  destruct (Byte.of_N (Z.to_N (v mod 256))) as [b|] eqn:E.
  - apply Byte.to_of_N in E. rewrite E. lia.
  - apply Byte.of_N_None_iff in E. lia.
Qed.

(** Two bytes written by [PutUint16] and read by [Uint16] give the value
    back. *)
Lemma Uint16_bytes v rest :
  0 <= v < 2 ^ 16 ->
  Uint16 (byte_of_Z (Z.shiftr v 8) :: byte_of_Z v :: rest) = v.
Proof.
  intros Hv. unfold Uint16. rewrite !Z_of_byte_of_Z.
  change 256 with (2 ^ 8).
  apply Z.bits_inj'. intros n Hn.
  rewrite Z.lor_spec.
  destruct (Z.ltb_spec n 8) as [Hlt|Hge].
  - rewrite Z.mod_pow2_bits_low by lia.
    rewrite Z.shiftl_spec_low by lia. apply orb_false_r.
  - rewrite Z.mod_pow2_bits_high by lia.
    rewrite Z.shiftl_spec by lia. simpl.
    destruct (Z.ltb_spec (n - 8) 8) as [Hlt'|Hge'].
    + rewrite Z.mod_pow2_bits_low by lia.
      rewrite Z.shiftr_spec by lia. f_equal. lia.
    + rewrite Z.mod_pow2_bits_high by lia.
      symmetry. rewrite <- (Z.mod_small v (2 ^ 16)) by lia.
      apply Z.mod_pow2_bits_high. lia.
Qed.

Lemma succeeded_written (r : result (list byte)) :
  succeeded r = true -> r = Ok (written r).
Proof. destruct r; [reflexivity|discriminate]. Qed.

Lemma uint16_range l : 0 <= uint16 l < 2 ^ 16.
Proof. unfold uint16. apply Z.mod_pos_bound. lia. Qed.

Lemma uint16_small l : 0 <= l <= 65535 -> uint16 l = l.
Proof. intros. unfold uint16. apply Z.mod_small. lia. Qed.

Section Framing.
Context `{JsonCodec}.

(** The frame [format_pkt] builds, byte for byte. *)
Lemma format_pkt_frame p j :
  json_Encode (hdr p) = Ok j ->
  format_pkt p =
    Ok (byte_of_Z (Z.shiftr (uint16 (Z.of_nat (length j))) 8)
          :: byte_of_Z (uint16 (Z.of_nat (length j)))
          :: j ++ elems (body p)).
Proof.
  intros Hj. unfold format_pkt. rewrite Hj.
  replace (Z.of_nat (length ([x00; x00] ++ j)) - 2) with (Z.of_nat (length j))
    by (rewrite length_app; simpl; lia).
  destruct (body p) as [b|]; simpl.
  - destruct b; simpl; [rewrite app_nil_r|]; reflexivity.
  - rewrite app_nil_r. reflexivity.
Qed.

Lemma format_pkt_fail p e :
  json_Encode (hdr p) = Fail e -> format_pkt p = Fail e.
Proof. intros Hj. unfold format_pkt. rewrite Hj. reflexivity. Qed.

(** [parse_pkt] on a frame whose declared header length [l] fits: the
    decoder is handed the [l] bytes that follow the prefix, the body is
    what remains. *)
Lemma parse_pkt_frame l text rest a :
  0 <= l < 2 ^ 16 ->
  Z.of_nat (length text) = l ->
  (2 <= length (text ++ rest))%nat ->
  parse_pkt (byte_of_Z (Z.shiftr l 8) :: byte_of_Z l :: text ++ rest) a =
    match json_Decode text zero_hdr with
    | Fail e => Fail e
    | Ok h =>
      Ok (Pkt a h (match rest with [] => None | _ => Some rest end)
            ZeroHashname)
    end.
Proof.
  intros Hl Hlen H2. unfold parse_pkt.
  set (in_ := byte_of_Z (Z.shiftr l 8) :: byte_of_Z l :: text ++ rest).
  assert (Hin : length in_ = S (S (length text + length rest))).
  { unfold in_. simpl. rewrite length_app. reflexivity. }
  rewrite length_app in H2.
  assert (E1 : (length in_ <? 4)%nat = false) by (apply Nat.ltb_ge; lia).
  assert (E2 : Uint16 (take 2 in_) = l)
    by exact (Uint16_bytes l (take 0 (text ++ rest)) Hl).
  assert (E3 : Z.of_nat (length in_) - (l + 2) = Z.of_nat (length rest)) by lia.
  assert (E4 : drop 2 (take (Z.to_nat (l + 2)) in_) = text).
  { replace (Z.to_nat (l + 2)) with (S (S (length text))) by lia.
    unfold in_. change (drop 0 (take (length text) (text ++ rest)) = text).
    rewrite drop_0, take_app_length. reflexivity. }
  assert (E5 : drop (Z.to_nat (l + 2)) in_ = rest).
  { replace (Z.to_nat (l + 2)) with (S (S (length text))) by lia.
    unfold in_. change (drop (length text) (text ++ rest) = rest).
    apply drop_app_length. }
  rewrite E1, E2, E3, E4, E5.
  change (hdr (Pkt a zero_hdr None ZeroHashname)) with zero_hdr.
  destruct (Z.ltb_spec (Z.of_nat (length rest)) 0) as [Hneg|_]; [lia|].
  destruct (json_Decode text zero_hdr) as [h|e]; [|reflexivity].
  destruct rest as [|b rest]; [reflexivity|].
  destruct (Z.eqb_spec (Z.of_nat (length (b :: rest))) 0) as [E0|_];
    [simpl in E0; lia|].
  rewrite Nat2Z.id, take_ge by lia. reflexivity.
Qed.

End Framing.

(** The frame of a packet whose header text fits the prefix parses back. *)
Lemma parse_format_frame `{JsonCodec} p j a :
  json_Encode (hdr p) = Ok j ->
  2 <= Z.of_nat (length j) <= 65535 ->
  exists buf,
    format_pkt p = Ok buf /\
    parse_pkt buf a =
      match json_Decode j zero_hdr with
      | Fail e => Fail e
      | Ok h => Ok (Pkt a h (norm_slice (body p)) ZeroHashname)
      end.
Proof.
  intros Hj Hlen. eexists. split; [apply format_pkt_frame; exact Hj|].
  rewrite uint16_small by lia.
  rewrite parse_pkt_frame; [|lia|reflexivity|rewrite length_app; lia].
  destruct (json_Decode j zero_hdr); [|reflexivity].
  destruct (body p) as [[|b l]|]; reflexivity.
Qed.

(** C6 (codec roundtrip).  For a packet whose header the JSON library
    encodes into a text of 2 to 65535 bytes and decodes back to the same
    header up to omitted optional fields, [parse_pkt] succeeds on the
    frame [format_pkt] builds and returns that header and the body of the
    packet, a zero-length body coming back as an absent one.  The plain
    codec decodes every header it encodes, so with it the roundtrip holds
    for every packet whose header text has at most 65535 bytes. *)
Theorem parse_format_roundtrip :
  (forall (codec : JsonCodec) (p : pkt_t) (j : list byte) (a : option UDPAddr),
     json_Encode (hdr p) = Ok j ->
     2 <= Z.of_nat (length j) <= 65535 ->
     json_Decode j zero_hdr = Ok (omit_empty (hdr p)) ->
     exists buf q,
       format_pkt p = Ok buf /\ parse_pkt buf a = Ok q /\
       hdr q = omit_empty (hdr p) /\ body q = norm_slice (body p) /\
       elems (body q) = elems (body p)) /\
  (forall (p : pkt_t) (j : list byte) (a : option UDPAddr),
     plain_Encode (hdr p) = Ok j ->
     Z.of_nat (length j) <= 65535 ->
     exists buf q,
       @format_pkt plain_json p = Ok buf /\
       @parse_pkt plain_json buf a = Ok q /\
       hdr q = omit_empty (hdr p) /\ body q = norm_slice (body p) /\
       elems (body q) = elems (body p)).
Proof.
  assert (Hgen : forall (codec : JsonCodec) p j a,
    json_Encode (hdr p) = Ok j ->
    2 <= Z.of_nat (length j) <= 65535 ->
    json_Decode j zero_hdr = Ok (omit_empty (hdr p)) ->
    exists buf q,
      format_pkt p = Ok buf /\ parse_pkt buf a = Ok q /\
      hdr q = omit_empty (hdr p) /\ body q = norm_slice (body p) /\
      elems (body q) = elems (body p)).
  { intros codec p j a Hj Hlen Hd.
    destruct (parse_format_frame p j a Hj Hlen) as (buf & Hf & Hp).
    rewrite Hd in Hp. exists buf. eexists. split; [exact Hf|].
    split; [exact Hp|]. simpl. split; [reflexivity|]. split; [reflexivity|].
    destruct (body p) as [[|b l]|]; reflexivity. }
  split; [exact Hgen|].
  intros p j a Hj Hlen. apply (Hgen plain_json p j a Hj).
  - pose proof (CodecFacts.plain_Encode_length _ _ Hj). lia.
  - exact (CodecFacts.plain_Decode_Encode _ _ Hj).
Qed.

Lemma parse_format_roundtrip_witness :
  exists buf q,
    @format_pkt plain_json sample_pkt = Ok buf /\
    @parse_pkt plain_json buf None = Ok q /\
    hdr q = omit_empty (hdr sample_pkt) /\
    body q = norm_slice (body sample_pkt) /\
    elems (body q) = elems (body sample_pkt).
Proof.
  apply (proj1 parse_format_roundtrip plain_json sample_pkt
           (written (plain_Encode (hdr sample_pkt)))).
  - apply (succeeded_written (plain_Encode (hdr sample_pkt))).
    vm_compute. reflexivity.
  - vm_compute. split; discriminate.
  - vm_compute. reflexivity.
Defined.

(** C7 (malformed frames).  [parse_pkt] fails with the error "pkt is too
    short" on every input of fewer than 4 bytes and on every input whose
    declared header length plus 2 exceeds the input length; on the four
    bytes [00 02 7b 7d] it returns the header the JSON decoder produces
    for the text [{}], which leaves the zero header unchanged, and no
    body. *)
Theorem parse_pkt_malformed `{JsonCodec} :
  (forall in_ a, (length in_ < 4)%nat -> parse_pkt in_ a = Fail ErrPktTooShort) /\
  (forall in_ a, Z.of_nat (length in_) < Uint16 (take 2 in_) + 2 ->
     parse_pkt in_ a = Fail ErrPktTooShort) /\
  (json_Decode [x7b; x7d] zero_hdr = Ok zero_hdr ->
   forall a, parse_pkt [x00; x02; x7b; x7d] a =
             Ok (Pkt a zero_hdr None ZeroHashname)).
Proof.
  split; [|split].
  - intros in_ a Hlen. unfold parse_pkt.
    destruct (Nat.ltb_spec (length in_) 4); [reflexivity|lia].
  - intros in_ a Hlen. unfold parse_pkt.
    destruct (length in_ <? 4)%nat; [reflexivity|].
    destruct (Z.ltb_spec (Z.of_nat (length in_) - (Uint16 (take 2 in_) + 2)) 0);
      [reflexivity|lia].
  - intros Hd a. unfold parse_pkt. simpl. rewrite Hd. reflexivity.
Qed.

Lemma parse_pkt_malformed_witness :
  @parse_pkt plain_json [x00; x02; x7b] None = Fail ErrPktTooShort /\
  @parse_pkt plain_json [x00; x09; x7b; x7d; x0a] None = Fail ErrPktTooShort /\
  @parse_pkt plain_json [x00; x02; x7b; x7d] None =
    Ok (Pkt None zero_hdr None ZeroHashname).
Proof.
  destruct (@parse_pkt_malformed plain_json) as (Hshort & Hneg & Hempty).
  split; [|split].
  - apply Hshort. simpl. lia.
  - apply Hneg. vm_compute. reflexivity.
  - apply Hempty. vm_compute. reflexivity.
Defined.

(** C9 (encoder contract), amended.  Whenever the JSON encoder accepts
    the header of [p], [format_pkt p] is a buffer whose first two bytes are
    the big-endian value of the byte length of the encoding reduced modulo
    2^16, followed by the encoding and then by the body of [p] verbatim;
    the prefix is the exact length whenever the encoding has at most 65535
    bytes. *)
Theorem format_pkt_layout `{JsonCodec} (p : pkt_t) (j : list byte) :
  json_Encode (hdr p) = Ok j ->
  exists buf,
    format_pkt p = Ok buf /\
    Uint16 (take 2 buf) = Z.of_nat (length j) mod 2 ^ 16 /\
    drop 2 buf = j ++ elems (body p) /\
    (Z.of_nat (length j) <= 65535 -> Uint16 (take 2 buf) = Z.of_nat (length j)).
Proof.
  intros Hj. eexists. split; [apply format_pkt_frame; exact Hj|].
  assert (Hu : forall rest,
    Uint16 (take 2 (byte_of_Z (Z.shiftr (uint16 (Z.of_nat (length j))) 8)
                      :: byte_of_Z (uint16 (Z.of_nat (length j))) :: rest))
    = Z.of_nat (length j) mod 2 ^ 16).
  { intros rest.
    exact (Uint16_bytes _ (take 0 rest) (uint16_range (Z.of_nat (length j)))). }
  split; [apply Hu|]. split; [reflexivity|].
  intros Hle. rewrite Hu. apply Z.mod_small. lia.
Qed.

Lemma format_pkt_layout_witness :
  exists buf,
    @format_pkt plain_json sample_pkt = Ok buf /\
    Uint16 (take 2 buf) = 56 /\
    drop 2 buf = written (plain_Encode (hdr sample_pkt)) ++ [x68; x69].
Proof.
  destruct (@format_pkt_layout plain_json sample_pkt
              (written (plain_Encode (hdr sample_pkt))))
    as (buf & Hf & Hu & Hd & _).
  - apply (succeeded_written (plain_Encode (hdr sample_pkt))).
    vm_compute. reflexivity.
  - exists buf. split; [exact Hf|]. split.
    + rewrite Hu. vm_compute. reflexivity.
    + exact Hd.
Defined.

(** C9 as the specification states it fails on a packet whose header text
    has 65547 bytes: the prefix of its frame reads 11. *)
Lemma format_pkt_prefix_not_exact :
  ~ @frame_as_specified plain_json long_err_pkt.
Proof.
  intros (j & buf & Hj & Hf & Hu & _).
  assert (Hlen : Z.of_nat (length (written (plain_Encode (hdr long_err_pkt))))
                 = 65547) by (vm_compute; reflexivity).
  change (plain_Encode (hdr long_err_pkt) = Ok j) in Hj.
  rewrite Hj in Hlen. simpl in Hlen.
  rewrite (@format_pkt_frame plain_json _ _ Hj) in Hf. injection Hf as <-.
  change (take 2 (?x :: ?y :: ?r)) with (x :: y :: take 0 r) in Hu.
  rewrite (Uint16_bytes _ _ (uint16_range _)) in Hu.
  unfold uint16 in Hu. rewrite Hlen in Hu. vm_compute in Hu. discriminate.
Qed.

(** C10 (header length overflow).  When the JSON text of the header is
    longer than 65535 bytes, [format_pkt] still succeeds; the prefix holds
    the length reduced modulo 2^16, which differs from the length; and
    [parse_pkt] hands the decoder only the first bytes of the text and
    takes the remaining ones for the beginning of the body, so that no
    packet it returns has the body of [p]. *)
Theorem format_pkt_long_header `{JsonCodec} (p : pkt_t) (j : list byte)
    (a : option UDPAddr) :
  json_Encode (hdr p) = Ok j ->
  65535 < Z.of_nat (length j) ->
  exists buf,
    format_pkt p = Ok buf /\
    Uint16 (take 2 buf) = Z.of_nat (length j) mod 2 ^ 16 /\
    Uint16 (take 2 buf) <> Z.of_nat (length j) /\
    (let l := Z.to_nat (Z.of_nat (length j) mod 2 ^ 16) in
     parse_pkt buf a =
       match json_Decode (take l j) zero_hdr with
       | Fail e => Fail e
       | Ok h => Ok (Pkt a h (Some (drop l j ++ elems (body p))) ZeroHashname)
       end) /\
    (forall q, parse_pkt buf a = Ok q -> elems (body q) <> elems (body p)).
Proof.
  intros Hj Hlong.
  pose proof (uint16_range (Z.of_nat (length j))) as Hr. unfold uint16 in Hr.
  set (l := Z.to_nat (Z.of_nat (length j) mod 2 ^ 16)).
  assert (Hl : (l < length j)%nat) by (unfold l; lia).
  assert (Hparse :
    parse_pkt (byte_of_Z (Z.shiftr (uint16 (Z.of_nat (length j))) 8)
                 :: byte_of_Z (uint16 (Z.of_nat (length j)))
                 :: j ++ elems (body p)) a =
    match json_Decode (take l j) zero_hdr with
    | Fail e => Fail e
    | Ok h => Ok (Pkt a h (Some (drop l j ++ elems (body p))) ZeroHashname)
    end).
  { rewrite <- (take_drop l j) at 3. rewrite <- app_assoc.
    rewrite parse_pkt_frame.
    - destruct (json_Decode (take l j) zero_hdr); [|reflexivity].
      destruct (drop l j ++ elems (body p)) eqn:E; [|reflexivity].
      apply (f_equal length) in E. rewrite length_app, length_drop in E.
      simpl in E. lia.
    - apply uint16_range.
    - rewrite length_take. unfold uint16, l. lia.
    - rewrite app_assoc, take_drop, length_app. lia. }
  eexists. split; [apply format_pkt_frame; exact Hj|].
  assert (Hu : Uint16 (take 2
      (byte_of_Z (Z.shiftr (uint16 (Z.of_nat (length j))) 8)
         :: byte_of_Z (uint16 (Z.of_nat (length j)))
         :: j ++ elems (body p))) = Z.of_nat (length j) mod 2 ^ 16)
    by exact (Uint16_bytes _ (take 0 (j ++ elems (body p)))
                (uint16_range (Z.of_nat (length j)))).
  split; [exact Hu|]. split; [rewrite Hu; lia|]. split; [exact Hparse|].
  intros q Hq. rewrite Hparse in Hq.
  destruct (json_Decode (take l j) zero_hdr); [|discriminate].
  injection Hq as <-. simpl. intros E.
  apply (f_equal length) in E. rewrite length_app, length_drop in E. lia.
Qed.

Lemma format_pkt_long_header_witness :
  exists buf,
    @format_pkt plain_json long_err_pkt = Ok buf /\
    Uint16 (take 2 buf) = 11 /\
    (forall q, @parse_pkt plain_json buf None = Ok q ->
               elems (body q) <> elems (body long_err_pkt)).
Proof.
  destruct (@format_pkt_long_header plain_json long_err_pkt
              (written (plain_Encode (hdr long_err_pkt))) None)
    as (buf & Hf & Hu & _ & _ & Hq).
  - apply (succeeded_written (plain_Encode (hdr long_err_pkt))).
    vm_compute. reflexivity.
  - vm_compute. reflexivity.
  - exists buf. split; [exact Hf|]. split; [|exact Hq].
    rewrite Hu. vm_compute. reflexivity.
Defined.

End PktFacts.

(** *** Frames, read back *)
Module PktMoreFacts.
Import Telehash.
Import Stdlib.Init.Byte.
Import PktFacts.

Lemma byte_of_Z_of_byte b : byte_of_Z (Z_of_byte b) = b.
Proof.
  unfold byte_of_Z. pose proof (Z_of_byte_range b) as Hr.
  rewrite Z.mod_small by lia. unfold Z_of_byte. rewrite N2Z.id.
  rewrite Byte.of_to_N. reflexivity.
Qed.

Lemma byte_of_Z_mod v : byte_of_Z (v mod 256) = byte_of_Z v.
Proof. unfold byte_of_Z. rewrite Z.mod_mod by lia. reflexivity. Qed.

(** The two bytes of a prefix are recovered from its value. *)
Lemma Uint16_inv b0 b1 rest :
  let l := Uint16 (b0 :: b1 :: rest) in
  0 <= l < 2 ^ 16 /\ byte_of_Z (Z.shiftr l 8) = b0 /\ byte_of_Z l = b1.
Proof.
  intros l. unfold l, Uint16.
  pose proof (Z_of_byte_range b0) as H0. pose proof (Z_of_byte_range b1) as H1.
  set (x := Z_of_byte b0) in *. set (y := Z_of_byte b1) in *.
  assert (Hhi : Z.shiftr (Z.lor y (Z.shiftl x 8)) 8 = x).
  { rewrite Z.shiftr_lor, Z.shiftr_shiftl_l by lia.
    rewrite Z.shiftr_div_pow2 by lia. rewrite Z.div_small by (simpl; lia).
    simpl. reflexivity. }
  assert (Hlo : Z.lor y (Z.shiftl x 8) mod 2 ^ 8 = y).
  { rewrite <- Z.land_ones by lia. rewrite Z.land_lor_distr_l.
    rewrite !Z.land_ones by lia. rewrite Z.shiftl_mul_pow2 by lia.
    rewrite Z_mod_mult. rewrite Z.mod_small by (simpl; lia).
    apply Z.lor_0_r. }
  split; [|split].
  - pose proof (Z.div_mod (Z.lor y (Z.shiftl x 8)) (2 ^ 8) ltac:(lia)) as Hdm.
    rewrite <- Z.shiftr_div_pow2 in Hdm by lia. rewrite Hhi, Hlo in Hdm.
    rewrite Hdm. simpl. lia.
  - rewrite Hhi. apply byte_of_Z_of_byte.
  - rewrite <- byte_of_Z_mod. change 256 with (2 ^ 8). rewrite Hlo.
    apply byte_of_Z_of_byte.
Qed.

(** X22 (what a parsed frame consists of).  When [parse_pkt] accepts
    an input, the input is exactly: the two-byte big-endian length of a
    header text, the header text, and the body of the returned packet;
    the header of the packet is what the JSON decoder makes of that text
    starting from the zero header; the body is absent or non-empty, never
    present and empty; the address is the one given and the peer is not
    set.  If the JSON encoder writes that same text for the header,
    [format_pkt] on the returned packet gives back the input. *)
Theorem parse_pkt_split `{JsonCodec} in_ a p :
  parse_pkt in_ a = Ok p ->
  exists text,
    in_ = byte_of_Z (Z.shiftr (Z.of_nat (length text)) 8)
            :: byte_of_Z (Z.of_nat (length text))
            :: text ++ elems (body p) /\
    Z.of_nat (length text) <= 65535 /\
    json_Decode text zero_hdr = Ok (hdr p) /\
    body p <> Some [] /\ addr p = a /\ peer p = ZeroHashname /\
    (json_Encode (hdr p) = Ok text -> format_pkt p = Ok in_).
Proof.
  unfold parse_pkt.
  destruct (Nat.ltb_spec (length in_) 4) as [|Hlen]; [discriminate|].
  destruct in_ as [|b0 [|b1 rest]]; [simpl in Hlen; lia..|].
  change (take 2 (b0 :: b1 :: rest)) with (b0 :: b1 :: take 0 rest).
  destruct (Uint16_inv b0 b1 (take 0 rest)) as (Hr & Hb0 & Hb1).
  set (l := Uint16 (b0 :: b1 :: take 0 rest)) in *.
  cbv zeta.
  destruct (Z.ltb_spec (Z.of_nat (length (b0 :: b1 :: rest)) - (l + 2)) 0)
    as [|Hfit]; [discriminate|].
  simpl length in Hfit.
  assert (Hl : (Z.to_nat l <= length rest)%nat) by lia.
  replace (Z.to_nat (l + 2)) with (S (S (Z.to_nat l))) by lia.
  change (drop 2 (take (S (S (Z.to_nat l))) (b0 :: b1 :: rest)))
    with (drop 0 (take (Z.to_nat l) rest)).
  change (drop (S (S (Z.to_nat l))) (b0 :: b1 :: rest))
    with (drop (Z.to_nat l) rest).
  rewrite drop_0.
  change (hdr (Pkt a zero_hdr None ZeroHashname)) with zero_hdr.
  set (text := take (Z.to_nat l) rest).
  assert (Htl : Z.of_nat (length text) = l).
  { unfold text. rewrite length_take. lia. }
  destruct (json_Decode text zero_hdr) as [h|e] eqn:Hd; [|discriminate].
  assert (Hframe : forall q, hdr q = h ->
            rest = text ++ elems (body q) ->
            json_Encode (hdr q) = Ok text ->
            format_pkt q = Ok (b0 :: b1 :: rest)).
  { intros q Hq Hrest Hj. rewrite (format_pkt_frame q text Hj).
    rewrite uint16_small by lia. rewrite Htl, Hb0, Hb1, <- Hrest. reflexivity. }
  change (length (b0 :: b1 :: rest)) with (S (S (length rest))).
  destruct (Z.eqb_spec (Z.of_nat (S (S (length rest))) - (l + 2)) 0) as [Hz|Hnz].
  - intros E. injection E as E. subst p. exists text. cbn [body hdr addr peer elems].
    assert (Hrest : rest = text ++ []).
    { rewrite app_nil_r. unfold text. rewrite take_ge by lia. reflexivity. }
    rewrite Htl, Hb0, Hb1.
    split; [rewrite <- Hrest; reflexivity|]. split; [lia|].
    split; [exact Hd|]. split; [discriminate|].
    split; [reflexivity|]. split; [reflexivity|].
    intros Hj. apply (Hframe (Pkt a h None ZeroHashname)); [reflexivity|exact Hrest|exact Hj].
  - intros E. injection E as E. subst p. exists text. cbn [body hdr addr peer elems].
    assert (Hbody : take (Z.to_nat (Z.of_nat (S (S (length rest))) - (l + 2)))
                      (drop (Z.to_nat l) rest) = drop (Z.to_nat l) rest).
    { apply take_ge. rewrite length_drop. lia. }
    rewrite Hbody.
    assert (Hrest : rest = text ++ drop (Z.to_nat l) rest).
    { unfold text. rewrite take_drop. reflexivity. }
    rewrite Htl, Hb0, Hb1.
    split; [rewrite <- Hrest; reflexivity|]. split; [lia|].
    split; [exact Hd|]. split.
    { intros [= E]. apply (f_equal length) in E. rewrite length_drop in E.
      simpl in E. lia. }
    split; [reflexivity|]. split; [reflexivity|].
    intros Hj.
    apply (Hframe (Pkt a h (Some (drop (Z.to_nat l) rest)) ZeroHashname));
      [reflexivity|exact Hrest|exact Hj].
Qed.

Lemma parse_pkt_split_witness :
  let in_ := [x00; x03; x7b; x7d; x0a; x68; x69] in
  @parse_pkt plain_json in_ None =
    Ok (Pkt None zero_hdr (Some [x68; x69]) ZeroHashname) /\
  @format_pkt plain_json (Pkt None zero_hdr (Some [x68; x69]) ZeroHashname) =
    Ok in_.
Proof.
  intros in_.
  assert (E : @parse_pkt plain_json in_ None =
              Ok (Pkt None zero_hdr (Some [x68; x69]) ZeroHashname))
    by (vm_compute; reflexivity).
  split; [exact E|].
  destruct (@parse_pkt_split plain_json in_ None _ E)
    as (text & Hin & _ & _ & _ & _ & _ & Hfmt).
  assert (Ht : text = [x7b; x7d; x0a]).
  { assert (Hl : length text = 3%nat).
    { apply (f_equal length) in Hin. cbn [body elems] in Hin. unfold in_ in Hin.
      cbn [length] in Hin. rewrite length_app in Hin. cbn [length] in Hin. lia. }
    unfold in_ in Hin. injection Hin as _ _ Hin. cbn [body elems] in Hin.
    apply (f_equal (take 3)) in Hin.
    rewrite (take_app_length' text _ 3 (eq_sym Hl)) in Hin. simpl in Hin.
    symmetry. exact Hin. }
  apply Hfmt. rewrite Ht. vm_compute. reflexivity.
Defined.

(** X23 (pure acks on the wire).  With the plain codec, a packet whose
    header text has at most 65535 bytes is framed by [format_pkt] and
    parsed back by [parse_pkt]; if the packet was a pure ack (JustAck),
    so is the parsed packet; and the parsed packet is a pure ack only if
    the packet was one or its [see] field was an empty, non-nil slice,
    which the encoder omits. *)
Theorem JustAck_through_framing p j a :
  plain_Encode (hdr p) = Ok j ->
  Z.of_nat (length j) <= 65535 ->
  exists buf q,
    @format_pkt plain_json p = Ok buf /\
    @parse_pkt plain_json buf a = Ok q /\
    (JustAck p = true -> JustAck q = true) /\
    (JustAck q = true -> JustAck p = true \/ See (hdr p) = Some []).
Proof.
  intros Hj Hlen.
  pose proof (CodecFacts.plain_Encode_length _ _ Hj) as H2.
  destruct (@parse_format_frame plain_json p j a Hj ltac:(lia)) as (buf & Hf & Hp).
  change (@json_Decode plain_json j zero_hdr) with (plain_Decode j zero_hdr) in Hp.
  rewrite (CodecFacts.plain_Decode_Encode _ _ Hj) in Hp.
  exists buf, (Pkt a (omit_empty (hdr p)) (norm_slice (body p)) ZeroHashname).
  split; [exact Hf|]. split; [exact Hp|].
  destruct (decide (See (hdr p) = Some [])) as [Hsee|Hsee].
  - split; [|intros _; right; exact Hsee].
    unfold JustAck at 1. unfold hdr_JustAck. rewrite Hsee.
    rewrite !andb_true_iff. intros Hja. decompose [and] Hja. discriminate.
  - assert (E : JustAck (Pkt a (omit_empty (hdr p)) (norm_slice (body p))
                           ZeroHashname) = JustAck p).
    { unfold JustAck, hdr_JustAck, omit_empty.
      destruct p as [ad [ty li iv op sg cc to at_ fa sq ak ms en er sk see pr
                           ip po cu] bd pe].
      cbn in Hsee |- *.
      destruct bd as [[|x bd]|]; destruct see as [[|y see]|];
        destruct cu as [[|z cu]|]; try reflexivity; congruence. }
    rewrite E. split; [auto|intros Hja; left; exact Hja].
Qed.

Lemma JustAck_through_framing_witness :
  exists buf q,
    @format_pkt plain_json ack_pkt = Ok buf /\
    @parse_pkt plain_json buf None = Ok q /\
    JustAck q = true.
Proof.
  destruct (JustAck_through_framing ack_pkt
              (written (plain_Encode (hdr ack_pkt))) None)
    as (buf & q & Hf & Hp & Hja & _).
  - apply (succeeded_written (plain_Encode (hdr ack_pkt))). vm_compute. reflexivity.
  - vm_compute. discriminate.
  - exists buf, q. split; [exact Hf|]. split; [exact Hp|].
    apply Hja. vm_compute. reflexivity.
Defined.

End PktMoreFacts.

(** *** Channels *)
Module ChannelFacts.
Import Telehash.
Import Stdlib.Init.Byte.

Lemma obj_with_obj h c o c' :
  obj (with_obj h c o) c' = if decide (c = c') then o else obj h c'.
Proof.
  unfold obj, with_obj. simpl. rewrite lookup_insert.
  destruct (decide (c = c')); reflexivity.
Qed.

Lemma obj_insert m n r w hs c o c' :
  obj (Controller (<[c := o]> m) n r w hs) c' =
    if decide (c = c') then o
    else match m !! c' with Some o' => o' | None => zero_channel end.
Proof.
  unfold obj. simpl. rewrite lookup_insert.
  destruct (decide (c = c')); reflexivity.
Qed.

Lemma JustAck_no_type p : JustAck p = true -> Type_ (hdr p) = "".
Proof.
  unfold JustAck, hdr_JustAck. rewrite !andb_true_iff.
  intros H. decompose [and] H. apply String.eqb_eq. assumption.
Qed.

Lemma send_channels h c p : channels (fst (send h c p)) = channels h.
Proof.
  unfold send. destruct (snd_put _ _) as [[s p']|e]; [|reflexivity].
  destruct (add_ack_info _ _) as [a p'']. reflexivity.
Qed.

Lemma send_handlers h c p :
  handlers (fst (send h c p)) = handlers h /\
  next_obj (fst (send h c p)) = next_obj h.
Proof.
  unfold send. destruct (snd_put _ _) as [[s p']|e]; [|split; reflexivity].
  destruct (add_ack_info _ _) as [a p'']. split; reflexivity.
Qed.

(** Closing a channel does not touch the registry. *)
Lemma close_with_error_channels h c msg :
  channels (fst (close_with_error h c msg)) = channels h.
Proof.
  unfold close_with_error.
  pose proof (send_channels h c
    (Pkt None (set_Err msg (set_End true zero_hdr)) None ZeroHashname)) as Hs.
  destruct (send h c _) as [h1 err]. simpl in *. exact Hs.
Qed.

(** A packet for a registered channel never starts a channel; one for an
    unregistered id that carries a type does. *)
Lemma rcv_channel_pkt_known h p c :
  channels h !! C (hdr p) = Some c ->
  channels (rcv_channel_pkt h p) = channels h /\
  handlers (rcv_channel_pkt h p) = handlers h /\
  next_obj (rcv_channel_pkt h p) = next_obj h.
Proof.
  intros Hc. unfold rcv_channel_pkt.
  destruct (String.eqb (C (hdr p)) ""); [repeat split|].
  rewrite Hc.
  destruct (handle_ack_info _ _ _) as [[a s] resend]. repeat split.
Qed.

Lemma rcv_channel_pkt_unknown h p :
  C (hdr p) <> "" -> Type_ (hdr p) <> "" ->
  channels h !! C (hdr p) = None ->
  channels (rcv_channel_pkt h p) !! C (hdr p) = Some (next_obj h) /\
  handlers (rcv_channel_pkt h p) = handlers h ++ [next_obj h].
Proof.
  intros HC HT Hc. unfold rcv_channel_pkt.
  destruct (String.eqb_spec (C (hdr p)) ""); [contradiction|].
  rewrite Hc. destruct (String.eqb_spec (Type_ (hdr p)) ""); [contradiction|].
  simpl. unfold rcv_new_channel_pkt, make_channel, add_channel. simpl.
  rewrite !obj_with_obj. unfold obj at 1. simpl.
  rewrite lookup_insert_eq. simpl.
  destruct (decide (next_obj h = next_obj h)); [|contradiction].
  simpl. rewrite lookup_insert_eq. split; reflexivity.
Qed.

Lemma drop_channel_unregisters h c :
  channels (drop_channel h c) !! ch_id (obj h c) = None.
Proof. unfold drop_channel. simpl. apply lookup_delete_eq. Qed.

(** C4 (remote error).  When the receive buffer hands out a packet whose
    header has a non-empty [err], [channel_t.receive] returns the packet
    together with the error, but [Channel.Receive] returns the error
    alone: no body, and the custom header is not unmarshalled. *)
Theorem Channel_Receive_drops_err_packet
    (unmarshal : list byte -> option error) h c p r :
  rcv_get (ch_rcv (obj h c)) = (Ok p, r) ->
  Err (hdr p) <> "" ->
  snd (receive h c) = (Some p, Some (ErrorString (Err (hdr p)))) /\
  snd (Channel_Receive unmarshal h c) =
    Received None (Some (ErrorString (Err (hdr p)))) None.
Proof.
  intros Hget Herr. unfold Channel_Receive, receive. rewrite Hget.
  destruct (String.eqb_spec (Err (hdr p)) ""); [contradiction|].
  split; reflexivity.
Qed.

Lemma Channel_Receive_drops_err_packet_witness :
  let h := rcv_channel_pkt empty_controller boom_pkt in
  snd (receive h 0) = (Some boom_pkt, Some (ErrorString "boom")) /\
  snd (Channel_Receive (fun _ => None) h 0) =
    Received None (Some (ErrorString "boom")) None.
Proof.
  intros h.
  refine (Channel_Receive_drops_err_packet (fun _ => None) h 0%nat boom_pkt
            (snd (rcv_get (ch_rcv (obj h 0%nat)))) _ _).
  - vm_compute. reflexivity.
  - vm_compute. discriminate.
Defined.

(** C5 (close).  [close_with_error] leaves the registry as it was: the id
    of a closed channel still maps to the channel, and a later packet with
    that id is handled as a packet of a known channel; no channel is
    created for it even when it carries a type. *)
Theorem close_keeps_channel_registered h c msg p :
  channels h !! C (hdr p) = Some c ->
  let h' := fst (close_with_error h c msg) in
  channels h' = channels h /\
  channels h' !! C (hdr p) = Some c /\
  handlers (rcv_channel_pkt h' p) = handlers h' /\
  next_obj (rcv_channel_pkt h' p) = next_obj h'.
Proof.
  intros Hc h'.
  assert (Hreg : channels h' = channels h) by apply close_with_error_channels.
  assert (Hc' : channels h' !! C (hdr p) = Some c) by (rewrite Hreg; exact Hc).
  split; [exact Hreg|]. split; [exact Hc'|].
  destruct (rcv_channel_pkt_known h' p c Hc') as (_ & Hh & Hn).
  split; assumption.
Qed.

Lemma close_keeps_channel_registered_witness :
  let h := rcv_channel_pkt empty_controller reopen_pkt in
  let h' := fst (close_with_error h 0 "") in
  channels h' = channels h /\
  channels h' !! "c1" = Some 0%nat /\
  handlers (rcv_channel_pkt h' reopen_pkt) = handlers h' /\
  next_obj (rcv_channel_pkt h' reopen_pkt) = next_obj h'.
Proof.
  intros h.
  refine (close_keeps_channel_registered h 0%nat "" reopen_pkt _).
  vm_compute. reflexivity.
Defined.

(** C8 (pure acks).  [JustAck] holds exactly when the body is empty, [ack]
    is present and every header field other than [ack], [miss] and [c] is
    unset; and a packet for which it holds changes no receive buffer and
    starts no channel when it goes through [rcv_channel_pkt]: only the ack
    handler and the send buffer of its channel, and the wire, may change. *)
Theorem JustAck_spec :
  (forall p,
     JustAck p = true <->
     len (body p) = O /\ Ack (hdr p) <> None /\
     Type_ (hdr p) = "" /\ Line (hdr p) = "" /\ Iv (hdr p) = "" /\
     Open (hdr p) = "" /\ Sig (hdr p) = "" /\ To (hdr p) = "" /\
     At (hdr p) = 0 /\ Family (hdr p) = "" /\ Seq (hdr p) = 0 /\
     End_ (hdr p) = false /\ Err (hdr p) = "" /\ Seek (hdr p) = "" /\
     See (hdr p) = None /\ Peer (hdr p) = "" /\ IP (hdr p) = "" /\
     Port (hdr p) = 0 /\ len (Custom (hdr p)) = O) /\
  (forall h p,
     JustAck p = true ->
     let h' := rcv_channel_pkt h p in
     channels h' = channels h /\ handlers h' = handlers h /\
     next_obj h' = next_obj h /\
     forall c,
       ch_rcv (obj h' c) = ch_rcv (obj h c) /\
       ch_id (obj h' c) = ch_id (obj h c) /\
       ch_peer (obj h' c) = ch_peer (obj h c) /\
       channel_type (obj h' c) = channel_type (obj h c)).
Proof.
  split.
  - intros p. unfold JustAck, hdr_JustAck.
    rewrite !andb_true_iff, !String.eqb_eq, !Z.eqb_eq, !Nat.eqb_eq,
      Bool.eqb_true_iff.
    destruct (Ack (hdr p)), (See (hdr p)); intuition congruence.
  - intros h p Hja h'. subst h'. unfold rcv_channel_pkt.
    destruct (String.eqb (C (hdr p)) ""); [repeat split|].
    destruct (channels h !! C (hdr p)) as [c|] eqn:Hc.
    + rewrite Hja. simpl.
      destruct (handle_ack_info _ _ _) as [[a s] resend].
      split; [reflexivity|]. split; [reflexivity|]. split; [reflexivity|].
      intros c'. simpl. rewrite !obj_insert.
      destruct (decide (c = c')) as [->|Hne]; repeat split.
    + rewrite (JustAck_no_type p Hja). simpl. repeat split.
Qed.

Lemma JustAck_spec_witness :
  JustAck ack_pkt = true /\
  let h := rcv_channel_pkt empty_controller reopen_pkt in
  ch_rcv (obj (rcv_channel_pkt h ack_pkt) 0) = ch_rcv (obj h 0) /\
  handlers (rcv_channel_pkt h ack_pkt) = handlers h.
Proof.
  destruct JustAck_spec as (Hiff & Hrcv).
  assert (Hja : JustAck ack_pkt = true).
  { apply Hiff. vm_compute. repeat split; discriminate. }
  split; [exact Hja|]. intros h.
  destruct (Hrcv h ack_pkt Hja) as (_ & Hh & _ & Hc).
  split; [apply Hc|exact Hh].
Defined.

End ChannelFacts.

(** *** The channel interface *)
Module ChannelMoreFacts.
Import Telehash.
Import Stdlib.Init.Byte.
Import PktFacts ChannelFacts.

Lemma stamped_refl p : stamped p p.
Proof.
  exists (Seq (hdr p)), (Ack (hdr p)), (Miss (hdr p)).
  destruct p as [a [] b pe]. reflexivity.
Qed.

Lemma stamped_trans p q r : stamped p q -> stamped q r -> stamped p r.
Proof.
  intros (s & a & m & ->) (s' & a' & m' & ->).
  exists s', a', m'. destruct p as [ad [] b pe]. reflexivity.
Qed.

Lemma snd_put_stamped b p s q : snd_put b p = Ok (s, q) -> stamped p q.
Proof.
  unfold snd_put. destruct (JustAck p).
  - intros [= <- <-]. apply stamped_refl.
  - destruct (_ <=? _)%nat; [discriminate|]. intros [= <- <-].
    exists (next_seq b), (Ack (hdr p)), (Miss (hdr p)).
    destruct p as [ad [] bd pe]. reflexivity.
Qed.

Lemma add_ack_info_stamped a p :
  stamped p (snd (add_ack_info a p)) /\
  ack_closed (fst (add_ack_info a p)) = ack_closed a.
Proof.
  unfold add_ack_info. destruct (_ =? _)%nat; [split; [apply stamped_refl|reflexivity]|].
  destruct (_ && _); [split; [apply stamped_refl|reflexivity]|].
  simpl. split; [|reflexivity].
  exists (Seq (hdr p)), (Some (last_rcv_seq a)), (Some (missing a)).
  destruct p as [ad [] bd pe]. reflexivity.
Qed.

Lemma obj_objs h h' c : objs h' = objs h -> obj h' c = obj h c.
Proof. unfold obj. intros ->. reflexivity. Qed.

(** [send], step by step. *)
Lemma send_eq h c p :
  let o := obj h c in
  let p' := pkt_with_hdr p (set_C (ch_id o) (hdr p)) in
  send h c p =
    match snd_put (ch_snd o) p' with
    | Fail err => (h, Some err)
    | Ok (s, q) =>
      (Controller
         (<[c := Channel (ch_id o) (ch_peer o) (channel_type o) s (ch_rcv o)
                   (fst (add_ack_info (ch_ack o) q))]> (objs h))
         (next_obj h) (channels h)
         (wire h ++ [(ch_peer o, snd (add_ack_info (ch_ack o) q))])
         (handlers h), None)
    end.
Proof.
  intros o p'. unfold send. fold o. fold p'.
  destruct (snd_put (ch_snd o) p') as [[s q]|e]; [|reflexivity].
  destruct (add_ack_info (ch_ack o) q) as [a q']. reflexivity.
Qed.

(** X13 (send).  [channel_t.send] stamps the channel id on the packet
    and offers it to the send buffer.  When the buffer refuses it, the
    error is returned and nothing else happens.  When the buffer takes
    it, one packet is handed to the line layer for the peer of the
    channel (the given packet with the channel id and whatever [seq],
    [ack] and [miss] the buffers stamped), no error is returned (the line
    layer is taken to accept every packet), and the registry, the started
    handlers, the receive buffer of the channel and every other channel
    are as before. *)
Theorem send_outcome h c p :
  let o := obj h c in
  let p' := pkt_with_hdr p (set_C (ch_id o) (hdr p)) in
  let h' := fst (send h c p) in
  (forall err, snd_put (ch_snd o) p' = Fail err ->
     send h c p = (h, Some err)) /\
  (forall s q, snd_put (ch_snd o) p' = Ok (s, q) ->
     snd (send h c p) = None /\
     (exists q', wire h' = wire h ++ [(ch_peer o, q')] /\ stamped p' q') /\
     channels h' = channels h /\ handlers h' = handlers h /\
     next_obj h' = next_obj h /\
     ch_id (obj h' c) = ch_id o /\ ch_peer (obj h' c) = ch_peer o /\
     channel_type (obj h' c) = channel_type o /\
     ch_rcv (obj h' c) = ch_rcv o /\ ch_snd (obj h' c) = s /\
     (forall c', c' <> c -> obj h' c' = obj h c')).
Proof.
  intros o p' h'. unfold h'. rewrite (send_eq h c p). fold o. fold p'.
  split.
  - intros err ->. reflexivity.
  - intros s q Hput. rewrite Hput. cbn [fst snd wire channels handlers next_obj].
    split; [reflexivity|]. split.
    { eexists. split; [reflexivity|].
      eapply stamped_trans; [exact (snd_put_stamped _ _ _ _ Hput)|].
      apply add_ack_info_stamped. }
    rewrite !obj_insert. destruct (decide (c = c)) as [_|]; [|contradiction].
    repeat split.
    intros c' Hne. rewrite obj_insert.
    destruct (decide (c = c')) as [->|_]; [contradiction|reflexivity].
Qed.

Lemma send_outcome_witness :
  let h := rcv_channel_pkt empty_controller reopen_pkt in
  let p := Pkt None zero_hdr (Some [x68; x69]) ZeroHashname in
  snd (send h 0 p) = None /\
  exists q, wire (fst (send h 0 p)) = wire h ++ [("peer1", q)] /\
            stamped (pkt_with_hdr p (set_C "c1" (hdr p))) q.
Proof.
  intros h p.
  assert (E : exists s q,
            snd_put (ch_snd (obj h 0%nat))
              (pkt_with_hdr p (set_C (ch_id (obj h 0%nat)) (hdr p))) = Ok (s, q))
    by (eexists; eexists; vm_compute; reflexivity).
  destruct E as (s & q & E).
  destruct (proj2 (send_outcome h 0%nat p) s q E) as (Hnone & Hwire & _).
  split; [exact Hnone|exact Hwire].
Defined.

(** What [send] keeps, whatever its outcome. *)
Lemma send_keeps h c p :
  let o := obj h c in
  let h1 := fst (send h c p) in
  channels h1 = channels h /\ handlers h1 = handlers h /\
  next_obj h1 = next_obj h /\
  (forall c0, ch_id (obj h1 c0) = ch_id (obj h c0) /\
              ch_peer (obj h1 c0) = ch_peer (obj h c0) /\
              channel_type (obj h1 c0) = channel_type (obj h c0) /\
              ch_rcv (obj h1 c0) = ch_rcv (obj h c0) /\
              ack_closed (ch_ack (obj h1 c0)) = ack_closed (ch_ack (obj h c0))) /\
  (forall c', c' <> c -> obj h1 c' = obj h c') /\
  ((snd (send h c p) <> None /\ h1 = h) \/
   (snd (send h c p) = None /\
    exists q, wire h1 = wire h ++ [(ch_peer o, q)] /\
              stamped (pkt_with_hdr p (set_C (ch_id o) (hdr p))) q)).
Proof.
  intros o h1. unfold h1. rewrite (send_eq h c p). fold o.
  destruct (snd_put (ch_snd o) _) as [[s q]|e] eqn:Hput.
  - cbn [fst snd wire channels handlers next_obj].
    split; [reflexivity|]. split; [reflexivity|]. split; [reflexivity|].
    split; [|split].
    + intros c0. rewrite obj_insert.
      destruct (decide (c = c0)) as [<-|_]; [|repeat split].
      cbn [ch_id ch_peer channel_type ch_rcv ch_ack]. repeat split.
      apply add_ack_info_stamped.
    + intros c' Hne. rewrite obj_insert.
      destruct (decide (c = c')) as [->|_]; [contradiction|reflexivity].
    + right. split; [reflexivity|]. eexists. split; [reflexivity|].
      eapply stamped_trans; [exact (snd_put_stamped _ _ _ _ Hput)|].
      apply add_ack_info_stamped.
  - cbn [fst snd]. repeat split. left. split; [discriminate|reflexivity].
Qed.

Lemma close_with_error_eq h c msg :
  let r := send h c (Pkt None (set_Err msg (set_End true zero_hdr)) None
                       ZeroHashname) in
  let o := obj (fst r) c in
  close_with_error h c msg =
    (Controller
       (<[c := Channel (ch_id o) (ch_peer o) (channel_type o) (ch_snd o)
                 (rcv_close (ch_rcv o)) (ack_close (ch_ack o))]>
          (<[c := Channel (ch_id o) (ch_peer o) (channel_type o) (ch_snd o)
                    (ch_rcv o) (ack_close (ch_ack o))]> (objs (fst r))))
       (next_obj (fst r)) (channels (fst r)) (wire (fst r)) (handlers (fst r)),
     snd r).
Proof.
  intros r o. unfold close_with_error. fold r.
  destruct r as [h1 err] eqn:Hr. cbn [fst snd] in *.
  unfold with_obj. cbn [objs next_obj channels wire handlers].
  rewrite obj_insert. destruct (decide (c = c)); [|contradiction].
  reflexivity.
Qed.

(** What [close_with_error] does to the controller. *)
Lemma close_with_error_frame h c msg :
  let h' := fst (close_with_error h c msg) in
  let err := snd (close_with_error h c msg) in
  channels h' = channels h /\ handlers h' = handlers h /\
  next_obj h' = next_obj h /\
  (forall c0, ch_id (obj h' c0) = ch_id (obj h c0) /\
              ch_peer (obj h' c0) = ch_peer (obj h c0) /\
              channel_type (obj h' c0) = channel_type (obj h c0)) /\
  closed h' c /\
  (forall c0, closed h c0 -> closed h' c0) /\
  (forall c', c' <> c -> obj h' c' = obj h c') /\
  ((err <> None /\ wire h' = wire h) \/
   (err = None /\
    exists q, wire h' = wire h ++ [(ch_peer (obj h c), q)] /\
              end_pkt_of (obj h c) msg q)).
Proof.
  intros h' err. unfold h', err. rewrite (close_with_error_eq h c msg).
  cbn [fst snd].
  destruct (send_keeps h c
              (Pkt None (set_Err msg (set_End true zero_hdr)) None ZeroHashname))
    as (Hch & Hh & Hn & Hobj & Hoth & Hw).
  set (h1 := fst (send h c _)) in *.
  set (e := snd (send h c _)) in *.
  assert (Hc : forall c0,
    obj (Controller
       (<[c := Channel (ch_id (obj h1 c)) (ch_peer (obj h1 c))
                 (channel_type (obj h1 c)) (ch_snd (obj h1 c))
                 (rcv_close (ch_rcv (obj h1 c))) (ack_close (ch_ack (obj h1 c)))]>
          (<[c := Channel (ch_id (obj h1 c)) (ch_peer (obj h1 c))
                    (channel_type (obj h1 c)) (ch_snd (obj h1 c))
                    (ch_rcv (obj h1 c)) (ack_close (ch_ack (obj h1 c)))]> (objs h1)))
       (next_obj h1) (channels h1) (wire h1) (handlers h1)) c0 =
    if decide (c = c0)
    then Channel (ch_id (obj h1 c)) (ch_peer (obj h1 c))
           (channel_type (obj h1 c)) (ch_snd (obj h1 c))
           (rcv_close (ch_rcv (obj h1 c))) (ack_close (ch_ack (obj h1 c)))
    else obj h1 c0).
  { intros c0. rewrite obj_insert.
    destruct (decide (c = c0)); [reflexivity|].
    rewrite lookup_insert_ne by assumption. reflexivity. }
  cbn [channels handlers next_obj wire].
  split; [exact Hch|]. split; [exact Hh|]. split; [exact Hn|].
  split; [|split; [|split; [|split]]].
  - intros c0. rewrite Hc. destruct (Hobj c0) as (H1 & H2 & H3 & _).
    destruct (decide (c = c0)) as [<-|_]; [|auto].
    cbn [ch_id ch_peer channel_type]. auto.
  - unfold closed. rewrite Hc. destruct (decide (c = c)); [|contradiction].
    split; reflexivity.
  - intros c0 [Hr Ha]. unfold closed. rewrite Hc.
    destruct (decide (c = c0)) as [<-|_]; [split; reflexivity|].
    destruct (Hobj c0) as (_ & _ & _ & H4 & H5). rewrite H4, H5. auto.
  - intros c' Hne. rewrite Hc.
    destruct (decide (c = c')) as [->|_]; [contradiction|]. apply Hoth, Hne.
  - destruct Hw as [[He Heq]|[He (q & Hq & Hst)]].
    + left. split; [exact He|]. rewrite Heq. reflexivity.
    + right. split; [exact He|]. exists q. split; [exact Hq|exact Hst].
Qed.

(** X14 (close).  [close_with_error] always leaves the channel closed
    for receiving and acking, also when its end packet could not be sent;
    it keeps the registry, the started handlers, the identity of every
    channel and every other channel; when the send buffer refused the
    end packet nothing was handed to the line layer, and otherwise
    exactly one packet was, for the peer of the channel, with the channel
    id, [end] set, the given error text and no body (the line layer is
    taken to accept every packet).  [close], and with it
    [Channel.Close], is [close_with_error] with the empty text. *)
Theorem close_with_error_outcome h c msg :
  let h' := fst (close_with_error h c msg) in
  let err := snd (close_with_error h c msg) in
  closed h' c /\
  channels h' = channels h /\ handlers h' = handlers h /\
  (forall c0, ch_id (obj h' c0) = ch_id (obj h c0) /\
              ch_peer (obj h' c0) = ch_peer (obj h c0) /\
              channel_type (obj h' c0) = channel_type (obj h c0)) /\
  (forall c', c' <> c -> obj h' c' = obj h c') /\
  (err <> None -> wire h' = wire h) /\
  (err = None ->
     exists q, wire h' = wire h ++ [(ch_peer (obj h c), q)] /\
               end_pkt_of (obj h c) msg q /\
               C (hdr q) = ch_id (obj h c) /\ End_ (hdr q) = true /\
               Err (hdr q) = msg /\ body q = None) /\
  close h c = close_with_error h c "" /\ Channel_Close h c = close h c.
Proof.
  intros h' err.
  destruct (close_with_error_frame h c msg)
    as (Hch & Hh & _ & Hobj & Hcl & _ & Hoth & Hw).
  fold h' in Hch, Hh, Hobj, Hcl, Hoth, Hw. fold err in Hw.
  split; [exact Hcl|]. split; [exact Hch|]. split; [exact Hh|].
  split; [exact Hobj|]. split; [exact Hoth|].
  split; [|split; [|split; reflexivity]].
  - intros He. destruct Hw as [[_ Hw]|[Hn _]]; [exact Hw|contradiction].
  - intros He. destruct Hw as [[Hn _]|[_ (q & Hq & Hend)]]; [contradiction|].
    exists q. split; [exact Hq|]. split; [exact Hend|].
    destruct Hend as (s & a & m & ->). repeat split.
Qed.

Lemma close_with_error_outcome_witness :
  let h := rcv_channel_pkt empty_controller reopen_pkt in
  let h' := fst (close_with_error h 0 "bye") in
  closed h' 0 /\
  exists q, wire h' = wire h ++ [("peer1", q)] /\
            End_ (hdr q) = true /\ Err (hdr q) = "bye".
Proof.
  intros h h'.
  destruct (close_with_error_outcome h 0%nat "bye")
    as (Hcl & _ & _ & _ & _ & _ & Hsent & _).
  split; [exact Hcl|].
  destruct Hsent as (q & Hw & _ & _ & He & Hr & _).
  - vm_compute. reflexivity.
  - exists q. split; [exact Hw|]. split; [exact He|exact Hr].
Defined.

Lemma close_channels_in_frame order : forall h,
  let h' := close_channels_in order h in
  channels h' = channels h /\ handlers h' = handlers h /\
  next_obj h' = next_obj h /\
  (forall c0, ch_id (obj h' c0) = ch_id (obj h c0) /\
              ch_peer (obj h' c0) = ch_peer (obj h c0) /\
              channel_type (obj h' c0) = channel_type (obj h c0)) /\
  (forall c0, closed h c0 -> closed h' c0) /\
  (forall c, c ∈ order -> closed h' c) /\
  (forall c0, c0 ∉ order -> obj h' c0 = obj h c0) /\
  exists sent,
    wire h' = wire h ++ sent /\
    (length sent <= length order)%nat /\
    Forall (fun tq => exists c, c ∈ order /\ fst tq = ch_peer (obj h c) /\
                      end_pkt_of (obj h c) "switch was terminated" (snd tq))
      sent.
Proof.
  induction order as [|c order IH]; intros h h'; unfold h';
    cbn [close_channels_in fold_left].
  - split; [reflexivity|]. split; [reflexivity|]. split; [reflexivity|].
    split; [intros c0; repeat split|]. split; [intros c0 H0; exact H0|].
    split; [intros c Hc; inversion Hc|]. split; [intros c0 _; reflexivity|].
    exists []. rewrite app_nil_r. split; [reflexivity|].
    split; [simpl; lia|constructor].
  - fold (close_channels_in order (fst (close_with_error h c "switch was terminated"))).
    destruct (close_with_error_frame h c "switch was terminated")
      as (Hch & Hh & Hn & Hobj & Hcl & Hmono & Hoth & Hw).
    set (h1 := fst (close_with_error h c "switch was terminated")) in *.
    destruct (IH h1) as (Hch' & Hh' & Hn' & Hobj' & Hmono' & Hall' & Hoth' & sent & Hs & Hlen & Hsent).
    split; [congruence|]. split; [congruence|]. split; [congruence|].
    split; [|split; [|split; [|split]]].
    + intros c0. destruct (Hobj c0) as (A1 & A2 & A3).
      destruct (Hobj' c0) as (B1 & B2 & B3). repeat split; congruence.
    + intros c0 H0. apply Hmono', Hmono, H0.
    + intros c0 Hc0. apply elem_of_cons in Hc0 as [->|Hc0].
      * apply Hmono', Hcl.
      * apply Hall', Hc0.
    + intros c0 Hc0. apply not_elem_of_cons in Hc0 as [Hne Hc0].
      rewrite (Hoth' c0 Hc0). apply Hoth, Hne.
    + assert (Hsent' : Forall (fun tq => exists c1, c1 ∈ c :: order /\
                 fst tq = ch_peer (obj h c1) /\
                 end_pkt_of (obj h c1) "switch was terminated" (snd tq)) sent).
      { eapply Forall_impl; [exact Hsent|].
        intros tq (c1 & Hc1 & Hp & He). exists c1.
        split; [apply list_elem_of_further; exact Hc1|].
        destruct (Hobj c1) as (A1 & A2 & A3).
        unfold end_pkt_of in *. rewrite <- A1, <- A2. auto. }
      destruct Hw as [[_ Hw]|[_ (q & Hq & Hend)]].
      * exists sent. rewrite Hs, Hw. split; [reflexivity|].
        split; [simpl; lia|exact Hsent'].
      * exists ((ch_peer (obj h c), q) :: sent). rewrite Hs, Hq, <- app_assoc.
        split; [reflexivity|]. split; [simpl; lia|].
        constructor; [|exact Hsent'].
        exists c. split; [apply list_elem_of_here|]. split; [reflexivity|exact Hend].
Qed.

Lemma registered_lookup h id c :
  channels h !! id = Some c -> c ∈ registered h.
Proof.
  intros Hc. unfold registered. apply list_elem_of_fmap.
  exists (id, c). split; [reflexivity|]. apply elem_of_map_to_list. exact Hc.
Qed.

(** X15 (closing all channels).  In whatever order the loop of
    [_close_channels] meets the registered channels, afterwards every
    registered channel is closed for receiving and acking and keeps its
    id, peer and type; the registry and the started handlers are as
    before; channels that are not registered are not touched; and the
    line layer was handed at most one packet per registry entry, each of
    them the end packet with the text "switch was terminated" of a
    registered channel, addressed to the peer of that channel. *)
Theorem close_channels_outcome h order :
  order ≡ₚ registered h ->
  let h' := close_channels_in order h in
  channels h' = channels h /\ handlers h' = handlers h /\
  (forall id c, channels h !! id = Some c ->
     closed h' c /\ ch_id (obj h' c) = ch_id (obj h c) /\
     ch_peer (obj h' c) = ch_peer (obj h c) /\
     channel_type (obj h' c) = channel_type (obj h c)) /\
  (forall c0, c0 ∉ registered h -> obj h' c0 = obj h c0) /\
  exists sent,
    wire h' = wire h ++ sent /\
    (length sent <= size (channels h))%nat /\
    Forall (fun tq => exists id c, channels h !! id = Some c /\
                      fst tq = ch_peer (obj h c) /\
                      end_pkt_of (obj h c) "switch was terminated" (snd tq))
      sent.
Proof.
  intros Hperm h'.
  destruct (close_channels_in_frame order h)
    as (Hch & Hh & _ & Hobj & _ & Hall & Hoth & sent & Hs & Hlen & Hsent).
  fold h' in Hch, Hh, Hobj, Hall, Hoth, Hs.
  split; [exact Hch|]. split; [exact Hh|]. split; [|split].
  - intros id c Hc. split.
    + apply Hall. apply (proj2 (elem_of_Permutation_proper c _ _ Hperm)).
      exact (registered_lookup h id c Hc).
    + apply Hobj.
  - intros c0 Hc0. apply Hoth. intros Hin. apply Hc0.
    apply (proj1 (elem_of_Permutation_proper c0 _ _ Hperm)). exact Hin.
  - exists sent. split; [exact Hs|]. split.
    + rewrite (Permutation_length Hperm) in Hlen. unfold registered in Hlen.
      rewrite length_map in Hlen. rewrite length_map_to_list in Hlen. exact Hlen.
    + eapply Forall_impl; [exact Hsent|].
      intros tq (c & Hc & Hp & He).
      apply (proj1 (elem_of_Permutation_proper c _ _ Hperm)) in Hc.
      unfold registered in Hc. apply list_elem_of_fmap in Hc as ([id c'] & -> & Hin).
      apply elem_of_map_to_list in Hin. exists id, c'. auto.
Qed.

Lemma close_channels_outcome_witness :
  let h := rcv_channel_pkt empty_controller reopen_pkt in
  channels (_close_channels h) = channels h /\ closed (_close_channels h) 0.
Proof.
  intros h.
  destruct (close_channels_outcome h (registered h)) as (Hch & _ & Hreg & _).
  - reflexivity.
  - split; [exact Hch|].
    apply (Hreg "c1" 0%nat). vm_compute. reflexivity.
Defined.

(** X16 (handler exit).  Whatever the user handler does to the
    controller, and whether it returns or panics, [run_user_handler]
    leaves the channel closed for receiving and acking; it leaves the
    registry, the started handlers and the other channels as the handler
    left them; and it hands the line layer at most one more packet, the
    end packet of the channel, whose error text is "internal server
    error" after a panic and empty after a return. *)
Theorem run_user_handler_closes
    (serve : channel_controller -> nat -> channel_controller * bool) h c :
  let h1 := fst (serve h c) in
  let panicked := snd (serve h c) in
  let h' := run_user_handler serve h c in
  closed h' c /\
  channels h' = channels h1 /\ handlers h' = handlers h1 /\
  (forall c', c' <> c -> obj h' c' = obj h1 c') /\
  (wire h' = wire h1 \/
   exists q, wire h' = wire h1 ++ [(ch_peer (obj h1 c), q)] /\
     end_pkt_of (obj h1 c)
       (if panicked then "internal server error" else "") q).
Proof.
  intros h1 panicked h'. unfold h', run_user_handler, h1, panicked.
  destruct (serve h c) as [h2 [|]]; cbn [fst snd]; unfold close.
  - destruct (close_with_error_frame h2 c "internal server error")
      as (Hch & Hh & _ & _ & Hcl & _ & Hoth & Hw).
    split; [exact Hcl|]. split; [exact Hch|]. split; [exact Hh|].
    split; [exact Hoth|].
    destruct Hw as [[_ Hw]|[_ Hw]]; [left; exact Hw|right; exact Hw].
  - destruct (close_with_error_frame h2 c "")
      as (Hch & Hh & _ & _ & Hcl & _ & Hoth & Hw).
    split; [exact Hcl|]. split; [exact Hch|]. split; [exact Hh|].
    split; [exact Hoth|].
    destruct Hw as [[_ Hw]|[_ Hw]]; [left; exact Hw|right; exact Hw].
Qed.

Lemma run_user_handler_closes_witness :
  let h := rcv_channel_pkt empty_controller reopen_pkt in
  closed (run_user_handler (fun h c => (h, true)) h 0) 0.
Proof.
  intros h.
  exact (proj1 (run_user_handler_closes (fun h c => (h, true)) h 0%nat)).
Defined.

(** **** Packets that reach the controller *)

Lemma rcv_new_channel_pkt_eq h p :
  rcv_new_channel_pkt h p =
    Controller
      (<[next_obj h :=
           Channel (C (hdr p)) (peer p) (Type_ (hdr p)) make_channel_snd_buffer
             (rcv_put make_channel_rcv_buffer p)
             (ack_received_packet make_channel_ack_handler)]>
         (<[next_obj h :=
              Channel (C (hdr p)) (peer p) (Type_ (hdr p)) make_channel_snd_buffer
                make_channel_rcv_buffer make_channel_ack_handler]>
            (<[next_obj h :=
                 Channel "" (peer p) "" make_channel_snd_buffer
                   make_channel_rcv_buffer make_channel_ack_handler]> (objs h))))
      (S (next_obj h)) (<[C (hdr p) := next_obj h]> (channels h)) (wire h)
      (handlers h ++ [next_obj h]).
Proof.
  unfold rcv_new_channel_pkt, make_channel, add_channel, with_obj.
  cbn [objs next_obj channels wire handlers].
  rewrite !obj_insert.
  destruct (decide (next_obj h = next_obj h)); [|contradiction].
  cbn [ch_id ch_peer channel_type ch_snd ch_rcv ch_ack]. reflexivity.
Qed.

(** X17 (incoming packets).  [rcv_channel_pkt] on a packet with a
    channel id that is not registered and with a type creates one new
    channel with that id, the peer of the packet and that type, registers
    it, starts one handler for it, puts the packet into its receive
    buffer, sends nothing and leaves every other channel alone; the same
    packet arriving again changes neither the registry nor the started
    handlers.  A packet without channel id, or with an unregistered id
    and no type, changes nothing at all.  A packet for a registered
    channel changes neither the registry nor the started handlers, keeps
    id, peer and type of that channel and leaves every other channel
    alone. *)
Theorem rcv_channel_pkt_demux h p :
  let h' := rcv_channel_pkt h p in
  let id := C (hdr p) in
  let n := next_obj h in
  (id <> "" -> channels h !! id = None -> Type_ (hdr p) <> "" ->
     channels h' = <[id := n]> (channels h) /\
     handlers h' = handlers h ++ [n] /\ next_obj h' = S n /\
     wire h' = wire h /\
     obj h' n =
       Channel id (peer p) (Type_ (hdr p)) make_channel_snd_buffer
         (rcv_put make_channel_rcv_buffer p)
         (ack_received_packet make_channel_ack_handler) /\
     (forall c', c' <> n -> obj h' c' = obj h c') /\
     channels (rcv_channel_pkt h' p) = channels h' /\
     handlers (rcv_channel_pkt h' p) = handlers h') /\
  (id = "" \/ (channels h !! id = None /\ Type_ (hdr p) = "") -> h' = h) /\
  (forall c, id <> "" -> channels h !! id = Some c ->
     channels h' = channels h /\ handlers h' = handlers h /\
     next_obj h' = next_obj h /\
     ch_id (obj h' c) = ch_id (obj h c) /\
     ch_peer (obj h' c) = ch_peer (obj h c) /\
     channel_type (obj h' c) = channel_type (obj h c) /\
     (forall c', c' <> c -> obj h' c' = obj h c')).
Proof.
  intros h' id n. split; [|split].
  - intros Hid Hnew Hty.
    assert (E : h' = rcv_new_channel_pkt h p).
    { unfold h', rcv_channel_pkt. fold id.
      destruct (String.eqb_spec id ""); [contradiction|]. rewrite Hnew.
      destruct (String.eqb_spec (Type_ (hdr p)) ""); [contradiction|]. reflexivity. }
    rewrite rcv_new_channel_pkt_eq in E. fold id n in E.
    clearbody h'.
    assert (Hreg : channels h' !! C (hdr p) = Some n).
    { rewrite E. cbn [channels]. apply lookup_insert_eq. }
    destruct (rcv_channel_pkt_known h' p n Hreg) as (Hk1 & Hk2 & _).
    split; [rewrite E; reflexivity|]. split; [rewrite E; reflexivity|].
    split; [rewrite E; reflexivity|]. split; [rewrite E; reflexivity|].
    split; [|split; [|split; [exact Hk1|exact Hk2]]]; rewrite E.
    + rewrite obj_insert. destruct (decide (n = n)); [reflexivity|contradiction].
    + intros c' Hne. rewrite obj_insert.
      destruct (decide (n = c')) as [->|_]; [contradiction|].
      rewrite !lookup_insert_ne by congruence. reflexivity.
  - unfold h', rcv_channel_pkt. fold id. intros [->|[Hnew Hty]]; [reflexivity|].
    destruct (String.eqb id ""); [reflexivity|]. rewrite Hnew, Hty. reflexivity.
  - intros c Hid Hc.
    destruct (rcv_channel_pkt_known h p c Hc) as (H1 & H2 & H3).
    fold h' in H1, H2, H3.
    split; [exact H1|]. split; [exact H2|]. split; [exact H3|].
    unfold h', rcv_channel_pkt. fold id.
    destruct (String.eqb_spec id ""); [contradiction|]. fold id in Hc. rewrite Hc.
    destruct (handle_ack_info _ _ _) as [[a s] resend].
    cbn [with_obj objs]. rewrite !obj_insert.
    destruct (decide (c = c)); [|contradiction].
    cbn [ch_id ch_peer channel_type].
    split; [|split; [|split]].
    + destruct (negb (JustAck p)); reflexivity.
    + destruct (negb (JustAck p)); reflexivity.
    + destruct (negb (JustAck p)); reflexivity.
    + intros c' Hne. rewrite obj_insert.
      destruct (decide (c = c')) as [->|_]; [contradiction|reflexivity].
Qed.

Lemma rcv_channel_pkt_demux_witness :
  let h' := rcv_channel_pkt empty_controller reopen_pkt in
  channels h' = <["c1" := 0%nat]> ∅ /\ handlers h' = [0%nat] /\
  handlers (rcv_channel_pkt h' reopen_pkt) = handlers h'.
Proof.
  intros h'.
  destruct (proj1 (rcv_channel_pkt_demux empty_controller reopen_pkt))
    as (Hch & Hh & _ & _ & _ & _ & _ & Hagain).
  - discriminate.
  - reflexivity.
  - discriminate.
  - split; [exact Hch|]. split; [exact Hh|exact Hagain].
Defined.

(** **** Opening a channel *)

Lemma fresh_snd_put p :
  snd_put make_channel_snd_buffer p =
    Ok (if JustAck p then (make_channel_snd_buffer, p)
        else (SndBuffer (<[1 := pkt_with_hdr p (set_Seq 1 (hdr p))]> ∅) 2,
              pkt_with_hdr p (set_Seq 1 (hdr p)))).
Proof.
  unfold snd_put, make_channel_snd_buffer. destruct (JustAck p); [reflexivity|].
  cbn [snd_pkts next_seq]. rewrite map_size_empty. reflexivity.
Qed.

Lemma open_channel_eq h id hashname p :
  let o := Channel id hashname "" make_channel_snd_buffer
             make_channel_rcv_buffer make_channel_ack_handler in
  let h0 :=
    Controller
      (<[next_obj h := o]>
         (<[next_obj h := Channel "" hashname "" make_channel_snd_buffer
                            make_channel_rcv_buffer make_channel_ack_handler]>
            (objs h)))
      (S (next_obj h)) (<[id := next_obj h]> (channels h)) (wire h)
      (handlers h) in
  obj h0 (next_obj h) = o /\
  open_channel h id hashname p =
    match send h0 (next_obj h) p with
    | (h', Some err) => (fst (close h' (next_obj h)), Fail err)
    | (h', None) => (h', Ok (next_obj h))
    end.
Proof.
  intros o h0.
  assert (Ho : obj h0 (next_obj h) = o).
  { unfold h0. rewrite obj_insert.
    destruct (decide (next_obj h = next_obj h)); [reflexivity|contradiction]. }
  split; [exact Ho|].
  unfold open_channel, make_channel, add_channel, with_obj.
  cbn [objs next_obj channels wire handlers].
  rewrite !obj_insert.
  destruct (decide (next_obj h = next_obj h)); [|contradiction].
  cbn [ch_id ch_peer channel_type ch_snd ch_rcv ch_ack]. reflexivity.
Qed.

(** X18 (opening).  When [open_channel] returns a channel, the channel
    is a new object registered under the given id, its peer is the given
    hashname, its type is empty ([open_channel] does not record the type
    of the packet), its receive buffer is empty, no handler was started,
    the line layer was handed one packet for that hashname (the given
    packet with the channel id and the stamps of the buffers), and every
    other channel is as before.  [Switch.Open] is [open_channel] on a
    packet that carries only the type. *)
Theorem open_channel_outcome h id hashname p h' c :
  open_channel h id hashname p = (h', Ok c) ->
  c = next_obj h /\
  channels h' = <[id := c]> (channels h) /\
  handlers h' = handlers h /\ next_obj h' = S (next_obj h) /\
  ch_id (obj h' c) = id /\ ch_peer (obj h' c) = hashname /\
  channel_type (obj h' c) = "" /\
  ch_rcv (obj h' c) = make_channel_rcv_buffer /\
  (exists q, wire h' = wire h ++ [(hashname, q)] /\
             stamped (pkt_with_hdr p (set_C id (hdr p))) q) /\
  (forall c', c' <> c -> obj h' c' = obj h c') /\
  (forall typ, fst (Switch_Open h id hashname typ) =
               fst (open_channel h id hashname
                      (Pkt None (set_Type typ zero_hdr) None ZeroHashname))).
Proof.
  destruct (open_channel_eq h id hashname p) as [Ho ->].
  set (h0 := Controller _ _ _ _ _) in *.
  destruct (send_keeps h0 (next_obj h) p)
    as (Hch & Hh & Hn & Hobj & Hoth & Hw).
  destruct (send h0 (next_obj h) p) as [h1 [err|]]; [discriminate|].
  cbn [fst snd] in *. intros [= <- <-].
  destruct (Hobj (next_obj h)) as (H1 & H2 & H3 & H4 & _).
  rewrite Ho in H1, H2, H3, H4, Hw. cbn in H1, H2, H3, H4, Hw.
  split; [reflexivity|]. split; [exact Hch|]. split; [exact Hh|].
  split; [exact Hn|]. split; [exact H1|]. split; [exact H2|].
  split; [exact H3|]. split; [exact H4|].
  split; [|split; [|reflexivity]].
  - destruct Hw as [[Hc _]|[_ Hq]]; [contradiction|exact Hq].
  - intros c' Hne. rewrite (Hoth c' Hne). unfold h0. rewrite obj_insert.
    destruct (decide (next_obj h = c')) as [E|_]; [congruence|].
    rewrite lookup_insert_ne by congruence. reflexivity.
Qed.

Lemma open_channel_outcome_witness :
  let r := Switch_Open empty_controller "ab" "peer2" "chat" in
  snd r = Ok 0%nat /\
  channels (fst r) = <["ab" := 0%nat]> ∅ /\
  channel_type (obj (fst r) 0) = "" /\ handlers (fst r) = [].
Proof.
  intros r.
  assert (E : open_channel empty_controller "ab" "peer2"
                (Pkt None (set_Type "chat" zero_hdr) None ZeroHashname) =
              (fst r, Ok 0%nat)) by (vm_compute; reflexivity).
  destruct (open_channel_outcome _ _ _ _ _ _ E)
    as (_ & Hch & Hh & _ & _ & _ & Hty & _).
  split; [vm_compute; reflexivity|]. split; [exact Hch|].
  split; [exact Hty|exact Hh].
Defined.

(** **** The registry *)

(** X20 (registry).  [add_channel] registers the channel under its
    id and changes no other entry; [drop_channel] removes the entry of
    the id of the channel it is given, whichever channel is registered
    under that id, so that dropping any channel with the same id
    unregisters the one just added; adding and then dropping a channel
    whose id was not registered gives back the registry; neither touches
    the channels themselves, the packets sent or the started handlers. *)
Theorem add_drop_channel h c :
  let id := ch_id (obj h c) in
  let h1 := add_channel h c in
  channels h1 !! id = Some c /\
  (forall id', id' <> id -> channels h1 !! id' = channels h !! id') /\
  (forall c2, ch_id (obj h c2) = id ->
     channels (drop_channel h1 c2) = delete id (channels h)) /\
  (channels h !! id = None -> channels (drop_channel h1 c) = channels h) /\
  objs h1 = objs h /\ objs (drop_channel h1 c) = objs h /\
  wire (drop_channel h1 c) = wire h /\ handlers (drop_channel h1 c) = handlers h.
Proof.
  intros id h1. unfold h1, add_channel, drop_channel. cbn [channels objs wire handlers].
  fold id.
  assert (Hobj : forall c0, obj (Controller (objs h) (next_obj h)
                     (<[id := c]> (channels h)) (wire h) (handlers h)) c0 = obj h c0)
    by reflexivity.
  split; [apply lookup_insert_eq|]. split.
  { intros id' Hne. apply lookup_insert_ne. congruence. }
  split.
  { intros c2 Hid. rewrite Hobj, Hid. apply delete_insert_eq. }
  split.
  { intros Hnone. rewrite Hobj. fold id. rewrite delete_insert_eq.
    apply delete_id. exact Hnone. }
  repeat split.
Qed.

Lemma add_drop_channel_witness :
  let h := rcv_channel_pkt empty_controller reopen_pkt in
  let h2 := fst (make_channel h "peer2") in
  channels (drop_channel (add_channel h2 1) 1) = channels h2.
Proof.
  intros h h2.
  destruct (add_drop_channel h2 1%nat) as (_ & _ & _ & Hback & _).
  apply Hback. vm_compute. reflexivity.
Defined.

(** **** Random bytes *)

Lemma make_rand_loop_length reads : forall filled w b,
  make_rand_loop reads filled w = Some (Ok b) ->
  length b = (length filled + w)%nat /\ exists more, b = filled ++ more.
Proof.
  induction reads as [|r reads IH]; intros filled w b.
  - destruct w; simpl; [|discriminate]. intros [= <-].
    split; [lia|]. exists []. rewrite app_nil_r. reflexivity.
  - destruct w as [|w']; [simpl; intros [= <-]; split; [lia|];
                          exists []; rewrite app_nil_r; reflexivity|].
    cbn [make_rand_loop]. destruct r as [chunk|e]; [|discriminate].
    intros H. apply IH in H as [Hlen (more & Hb)].
    rewrite length_app, length_take in Hlen.
    split; [lia|]. exists (take (S w') chunk ++ more).
    rewrite app_assoc. exact Hb.
Qed.

Lemma make_rand_loop_fail reads : forall filled w e,
  make_rand_loop reads filled w = Some (Fail e) ->
  exists chunks rest, reads = map Ok chunks ++ Fail e :: rest.
Proof.
  induction reads as [|r reads IH]; intros filled w e.
  - destruct w; discriminate.
  - destruct w as [|w']; [discriminate|]. cbn [make_rand_loop].
    destruct r as [chunk|e'].
    + intros H. apply IH in H as (chunks & rest & ->).
      exists (chunk :: chunks), rest. reflexivity.
    + intros [= ->]. exists [], reads. reflexivity.
Qed.

Lemma make_rand_loop_progress chunks : forall rest filled w,
  Forall (fun ch => ch <> []) chunks ->
  (w <= length chunks)%nat ->
  exists b, make_rand_loop (map Ok chunks ++ rest) filled w = Some (Ok b).
Proof.
  induction chunks as [|ch chunks IH]; intros rest filled w Hne Hw.
  - simpl in Hw. assert (w = O) by lia. subst w. destruct rest; simpl; eauto.
  - destruct w as [|w']; [simpl; eauto|].
    apply Forall_cons in Hne as [Hch Hne]. cbn [map app make_rand_loop].
    apply IH; [exact Hne|].
    rewrite length_take. simpl in Hw.
    destruct ch as [|x ch]; [contradiction|]. simpl. lia.
Qed.

(** X21 (random bytes).  [make_rand n] returns either [n] bytes or an
    error, never a shorter buffer; the error is that of the first failing
    read, all reads before it having succeeded; and when each of the
    first [n] reads succeeds and delivers at least one byte, the loop
    ends and returns bytes. *)
Theorem make_rand_outcome reads n :
  (forall b, make_rand reads n = Some (Ok b) -> length b = n) /\
  (forall e, make_rand reads n = Some (Fail e) ->
     exists chunks rest, reads = map Ok chunks ++ Fail e :: rest) /\
  (forall chunks rest, reads = map Ok chunks ++ rest ->
     Forall (fun ch => ch <> []) chunks -> (n <= length chunks)%nat ->
     exists b, make_rand reads n = Some (Ok b)).
Proof.
  unfold make_rand. split; [|split].
  - intros b H. apply make_rand_loop_length in H as [H _]. simpl in H. exact H.
  - intros e H. exact (make_rand_loop_fail _ _ _ _ H).
  - intros chunks rest -> Hne Hn. apply make_rand_loop_progress; assumption.
Qed.

Lemma make_rand_outcome_witness :
  exists b, make_rand [Ok [x01]; Ok [x02; x03]] 2 = Some (Ok b) /\
            length b = 2%nat.
Proof.
  destruct (make_rand_outcome [Ok [x01]; Ok [x02; x03]] 2) as (Hlen & _ & Hgo).
  destruct (Hgo [[x01]; [x02; x03]] [] eq_refl) as [b Hb].
  - repeat constructor; discriminate.
  - simpl. lia.
  - exists b. split; [exact Hb|exact (Hlen b Hb)].
Defined.

(** **** From Send to Receive *)

Lemma JustAck_needs_ack p : Ack (hdr p) = None -> JustAck p = false.
Proof.
  intros Ha. unfold JustAck, hdr_JustAck. rewrite Ha. cbv iota.
  rewrite !andb_false_r. cbn [andb]. rewrite ?andb_false_r. reflexivity.
Qed.

(** [send] on a channel that has received nothing yet and whose window
    has room, for a packet without [ack]. *)
Lemma send_plain h c p id pr ty m k rcv a :
  obj h c = Channel id pr ty (SndBuffer m k) rcv a ->
  notified a = O -> (size m < snd_window)%nat -> Ack (hdr p) = None ->
  let q := pkt_with_hdr p (set_Seq k (set_C id (hdr p))) in
  send h c p =
    (Controller
       (<[c := Channel id pr ty (SndBuffer (<[k := q]> m) (k + 1)) rcv a]> (objs h))
       (next_obj h) (channels h) (wire h ++ [(pr, q)]) (handlers h), None).
Proof.
  intros Ho Hn Hsz Hack q. rewrite (send_eq h c p). rewrite Ho.
  cbn [ch_id ch_peer channel_type ch_snd ch_rcv ch_ack].
  unfold snd_put. rewrite JustAck_needs_ack by (destruct p as [? [] ? ?]; exact Hack).
  cbn [snd_pkts next_seq].
  destruct (Nat.leb_spec snd_window (size m)) as [|_]; [lia|].
  unfold add_ack_info. rewrite Hn. cbn [Nat.eqb fst snd].
  destruct p as [ad hd bd pe]. reflexivity.
Qed.

(** [rcv_channel_pkt] for a packet of a known channel that is not a pure
    ack and carries no [ack]. *)
Lemma rcv_known_plain h p c o :
  C (hdr p) <> "" -> channels h !! C (hdr p) = Some c -> obj h c = o ->
  Ack (hdr p) = None ->
  rcv_channel_pkt h p =
    Controller
      (<[c := Channel (ch_id o) (ch_peer o) (channel_type o) (ch_snd o)
                (rcv_put (ch_rcv o) p) (ack_received_packet (ch_ack o))]> (objs h))
      (next_obj h) (channels h) (wire h) (handlers h).
Proof.
  intros Hid Hc Ho Hack. unfold rcv_channel_pkt.
  destruct (String.eqb_spec (C (hdr p)) ""); [contradiction|].
  rewrite Hc, Ho, (JustAck_needs_ack p Hack). cbn [negb].
  unfold handle_ack_info. rewrite Hack.
  cbn [ch_id ch_peer channel_type ch_snd ch_rcv ch_ack with_obj objs next_obj
       channels wire handlers map].
  rewrite app_nil_r. reflexivity.
Qed.

(** [Channel.Receive] when the packet next in order is there and carries
    no error. *)
Lemma Channel_Receive_next unmarshal h c p :
  rcv_pkts (ch_rcv (obj h c)) !! next_in_order (ch_rcv (obj h c)) = Some p ->
  Err (hdr p) = "" ->
  let o := obj h c in
  let r := ch_rcv o in
  Channel_Receive unmarshal h c =
    (with_obj h c
       (Channel (ch_id o) (ch_peer o) (channel_type o) (ch_snd o)
          (RcvBuffer (delete (next_in_order r) (rcv_pkts r)) (next_in_order r + 1)
             (terminal_seq r) (rcv_closed r))
          (ch_ack o)),
     if (0 <? len (Custom (hdr p)))%nat then
       match unmarshal (elems (Custom (hdr p))) with
       | Some e => Received None (Some e) None
       | None => Received (body p) None (Some (elems (Custom (hdr p))))
       end
     else Received (body p) None None).
Proof.
  intros Hp Herr o r. unfold o, r, Channel_Receive, receive, rcv_get.
  cbv zeta. rewrite Hp. cbv beta iota. rewrite Herr. cbn [String.eqb negb].
  destruct (0 <? len (Custom (hdr p)))%nat; [|reflexivity].
  destruct (unmarshal _); reflexivity.
Qed.

(** X19 (from Send to Receive).  One switch opens a channel to a peer
    with [Switch.Open] and then sends a custom header and a body on it
    with [Channel.Send]; the two packets handed to the line layer reach
    [rcv_channel_pkt] of the peer in that order, on a controller that
    does not know the channel id.  Then the peer has registered one
    channel for the id, with the sender as its peer and the type of the
    open packet, and has started one handler; its first [Channel.Receive]
    returns the open packet (no body, no custom header) and its second
    returns the body that was sent and unmarshals the custom header that
    was sent.  The buffers are those of sections 4.4 and 4.5 of the
    specification. *)
Theorem channel_delivers hA hB id hnA hnB typ custom data
    (unmarshal : list byte -> option error) :
  id <> "" -> typ <> "" -> channels hB !! id = None ->
  custom <> [] -> unmarshal custom = None ->
  let cA := next_obj hA in
  let cB := next_obj hB in
  let hA1 := fst (Switch_Open hA id hnB typ) in
  let hA2 := fst (Channel_Send (Some (Ok custom)) hA1 cA data) in
  exists q1 q2,
    wire hA2 = wire hA ++ [(hnB, q1); (hnB, q2)] /\
    let hB1 := rcv_channel_pkt hB (from_peer hnA q1) in
    let hB2 := rcv_channel_pkt hB1 (from_peer hnA q2) in
    let r1 := Channel_Receive unmarshal hB2 cB in
    let r2 := Channel_Receive unmarshal (fst r1) cB in
    channels hB2 !! id = Some cB /\
    handlers hB2 = handlers hB ++ [cB] /\
    ch_peer (obj hB2 cB) = hnA /\ channel_type (obj hB2 cB) = typ /\
    snd r1 = Received None None None /\
    snd r2 = Received data None (Some custom).
Proof.
  intros Hid Hty Hnew Hcus Hun cA cB hA1 hA2.
  set (q1 := Pkt None (set_Seq 1 (set_C id (set_Type typ zero_hdr))) None
               ZeroHashname).
  set (q2 := Pkt None (set_Seq 2 (set_C id (set_Custom (Some custom) zero_hdr)))
               data ZeroHashname).
  exists q1, q2.
  (* the opening side *)
  destruct (open_channel_eq hA id hnB
              (Pkt None (set_Type typ zero_hdr) None ZeroHashname)) as [Ho Hopen].
  set (hA0 := Controller _ _ _ _ _) in Ho, Hopen. fold cA in Ho, Hopen.
  assert (Hsend1 := send_plain hA0 cA
            (Pkt None (set_Type typ zero_hdr) None ZeroHashname)
            id hnB "" ∅ 1 make_channel_rcv_buffer make_channel_ack_handler Ho
            eq_refl).
  rewrite map_size_empty in Hsend1.
  specialize (Hsend1 ltac:(unfold snd_window; lia) eq_refl).
  cbv zeta in Hsend1.
  change (pkt_with_hdr _ _) with q1 in Hsend1.
  assert (EA1 : hA1 =
    Controller
      (<[cA := Channel id hnB "" (SndBuffer (<[1 := q1]> ∅) (1 + 1))
                 make_channel_rcv_buffer make_channel_ack_handler]> (objs hA0))
      (next_obj hA0) (channels hA0) (wire hA0 ++ [(hnB, q1)]) (handlers hA0)).
  { unfold hA1, Switch_Open. rewrite Hopen, Hsend1. reflexivity. }
  clearbody hA1.
  assert (HoA1 : obj hA1 cA =
            Channel id hnB "" (SndBuffer (<[1 := q1]> ∅) (1 + 1))
              make_channel_rcv_buffer make_channel_ack_handler).
  { rewrite EA1, obj_insert. destruct (decide (cA = cA)); [reflexivity|contradiction]. }
  assert (Hsend2 := send_plain hA1 cA
            (Pkt None (set_Custom (Some custom) zero_hdr) data ZeroHashname)
            id hnB "" (<[1 := q1]> ∅) (1 + 1) make_channel_rcv_buffer
            make_channel_ack_handler HoA1 eq_refl).
  rewrite map_size_insert_None, map_size_empty in Hsend2 by apply lookup_empty.
  specialize (Hsend2 ltac:(unfold snd_window; lia) eq_refl).
  cbv zeta in Hsend2.
  change (pkt_with_hdr _ _) with q2 in Hsend2.
  split.
  { unfold hA2, Channel_Send. rewrite Hsend2. cbn [fst wire].
    rewrite EA1. cbn [wire]. unfold hA0. cbn [wire].
    rewrite <- app_assoc. reflexivity. }
  (* the receiving side *)
  cbv zeta.
  assert (EB1 : rcv_channel_pkt hB (from_peer hnA q1) =
                rcv_new_channel_pkt hB (from_peer hnA q1)).
  { unfold rcv_channel_pkt. cbn [from_peer hdr q1 C set_Seq set_C Type_ set_Type].
    destruct (String.eqb_spec id ""); [contradiction|]. rewrite Hnew.
    destruct (String.eqb_spec typ ""); [contradiction|]. reflexivity. }
  rewrite rcv_new_channel_pkt_eq in EB1. fold cB in EB1.
  set (hB1 := rcv_channel_pkt hB (from_peer hnA q1)) in *. clearbody hB1.
  cbn [from_peer hdr q1 C set_Seq set_C Type_ set_Type peer] in EB1.
  assert (Hrcv1 : rcv_put make_channel_rcv_buffer (from_peer hnA q1) =
                  RcvBuffer (<[1 := from_peer hnA q1]> ∅) 1 None false)
    by reflexivity.
  rewrite Hrcv1 in EB1.
  assert (HoB1 : obj hB1 cB =
            Channel id hnA typ make_channel_snd_buffer
              (RcvBuffer (<[1 := from_peer hnA q1]> ∅) 1 None false)
              (ack_received_packet make_channel_ack_handler)).
  { rewrite EB1, obj_insert. destruct (decide (cB = cB)); [reflexivity|contradiction]. }
  assert (HcB1 : channels hB1 !! C (hdr (from_peer hnA q2)) = Some cB).
  { rewrite EB1. cbn [channels from_peer hdr q2 C set_Seq set_C].
    apply lookup_insert_eq. }
  assert (EB2 := rcv_known_plain hB1 (from_peer hnA q2) cB _ Hid HcB1 HoB1 eq_refl).
  cbn [ch_id ch_peer channel_type ch_snd ch_rcv ch_ack] in EB2.
  assert (Hrcv2 : rcv_put (RcvBuffer (<[1 := from_peer hnA q1]> ∅) 1 None false)
                    (from_peer hnA q2) =
                  RcvBuffer (<[2 := from_peer hnA q2]> (<[1 := from_peer hnA q1]> ∅))
                    1 None false).
  { unfold rcv_put. cbn [from_peer hdr q2 Seq set_Seq rcv_closed next_in_order
                         rcv_pkts End_ set_C set_Custom zero_hdr terminal_seq].
    rewrite lookup_insert_ne by lia. rewrite lookup_empty.
    rewrite bool_decide_eq_false_2 by (intros [x Hx]; discriminate).
    reflexivity. }
  rewrite Hrcv2 in EB2.
  set (hB2 := rcv_channel_pkt hB1 (from_peer hnA q2)) in *. clearbody hB2.
  assert (HoB2 : obj hB2 cB =
            Channel id hnA typ make_channel_snd_buffer
              (RcvBuffer (<[2 := from_peer hnA q2]> (<[1 := from_peer hnA q1]> ∅))
                 1 None false)
              (ack_received_packet (ack_received_packet make_channel_ack_handler))).
  { rewrite EB2, obj_insert. destruct (decide (cB = cB)); [reflexivity|contradiction]. }
  split; [rewrite EB2, EB1; cbn [channels]; apply lookup_insert_eq|].
  split; [rewrite EB2, EB1; reflexivity|].
  split; [rewrite HoB2; reflexivity|]. split; [rewrite HoB2; reflexivity|].
  (* the two receives *)
  assert (Hr1 := Channel_Receive_next unmarshal hB2 cB (from_peer hnA q1)).
  rewrite HoB2 in Hr1. cbn [ch_rcv rcv_pkts next_in_order] in Hr1.
  rewrite lookup_insert_ne in Hr1 by lia. rewrite lookup_insert_eq in Hr1.
  specialize (Hr1 eq_refl eq_refl). cbv zeta in Hr1.
  rewrite Hr1. cbn [fst snd].
  split; [reflexivity|].
  set (hB3 := with_obj hB2 cB _).
  assert (HoB3 : obj hB3 cB =
            Channel id hnA typ make_channel_snd_buffer
              (RcvBuffer (delete 1 (<[2 := from_peer hnA q2]>
                                      (<[1 := from_peer hnA q1]> ∅)))
                 (1 + 1) None false)
              (ack_received_packet (ack_received_packet make_channel_ack_handler))).
  { unfold hB3. rewrite obj_with_obj.
    destruct (decide (cB = cB)); [reflexivity|contradiction]. }
  assert (Hr2 := Channel_Receive_next unmarshal hB3 cB (from_peer hnA q2)).
  rewrite HoB3 in Hr2. cbn [ch_rcv rcv_pkts next_in_order] in Hr2.
  rewrite lookup_delete_ne in Hr2 by lia.
  change (1 + 1) with 2 in Hr2. rewrite lookup_insert_eq in Hr2.
  specialize (Hr2 eq_refl eq_refl). cbv zeta in Hr2.
  rewrite Hr2. cbn [fst snd from_peer hdr q2 Custom set_Seq set_C set_Custom len
                    elems body].
  destruct custom as [|x custom]; [contradiction|].
  cbn [length Nat.ltb Nat.leb]. rewrite Hun. reflexivity.
Qed.

Lemma channel_delivers_witness :
  let f := fun _ : list byte => @None error in
  let hA1 := fst (Switch_Open empty_controller "ab" "B" "chat") in
  let hA2 := fst (Channel_Send (Some (Ok [x7b; x7d])) hA1 0 (Some [x68])) in
  exists q1 q2,
    wire hA2 = [("B", q1); ("B", q2)] /\
    let hB2 := rcv_channel_pkt
                 (rcv_channel_pkt empty_controller (from_peer "A" q1))
                 (from_peer "A" q2) in
    snd (Channel_Receive f (fst (Channel_Receive f hB2 0)) 0) =
      Received (Some [x68]) None (Some [x7b; x7d]).
Proof.
  intros f hA1 hA2.
  destruct (channel_delivers empty_controller empty_controller "ab" "A" "B"
              "chat" [x7b; x7d] (Some [x68]) f)
    as (q1 & q2 & Hw & H).
  - discriminate.
  - discriminate.
  - reflexivity.
  - discriminate.
  - reflexivity.
  - exists q1, q2. split; [exact Hw|]. apply H.
Defined.

End ChannelMoreFacts.
